(** * One_For_All: the two-lock FIFO queue and the worker-thread pool

    A shallow embedding of [include/threadsafe_queue.hpp] (class
    [ThreadsafeQueue<T>]) and of the thread-pool header ([JoinThreads],
    [FunctionWrapper], [ThreadPool]).

    - [Module Queue]: the linked node chain on an explicit heap, with every
      member function of [ThreadsafeQueue] as a computation in a small
      state-and-error monad. These are the executions of a single thread:
      every mutex is free when it is requested and released when the
      function returns, so the mutexes leave no trace in the state. The
      destructor, which the compiler writes, deletes the chain by
      destructor calls nested one inside the other; their depth is counted.
    - [Module Conc]: the same member functions cut into steps, one for each
      lock or unlock and each statement on the shared pointers and nodes,
      run by any number of threads in any interleaving, with the two
      mutexes in the state.
    - [Module CondVar]: the same interleaving with the threads that are
      blocked in [data_cond.wait] kept track of.
    - [Module Pool]: [FunctionWrapper], the [ThreadPool] constructor with its
      exception path, [submit] and the destructor, and the worker loop cut
      at its four statements; the workers, the submitting threads and the
      destroying thread interleave, each queue operation being one step. *)

From stdpp Require Import gmap list.

Set Default Proof Using "Type".

(** Addresses of heap-allocated nodes; [None] is the null pointer, for a
    [std::unique_ptr<node>], a raw [node*] and a [std::shared_ptr<T>]. *)
Abbreviation addr := positive (only parsing).
Abbreviation ptr := (option positive) (only parsing).

Module Queue.

(** Outcome of a member function run on one thread: it returns, it blocks
    for ever on the condition variable (no other thread will ever notify),
    or it dereferences a null or dangling pointer. *)
Inductive result (A : Type) : Type :=
  | Ok (a : A)
  | Blocked
  | Undefined.
Arguments Ok {A} a.
Arguments Blocked {A}.
Arguments Undefined {A}.

Section ThreadsafeQueue.
Context {T : Type}.

(** [struct node { std::shared_ptr<T> data; std::unique_ptr<node> next; }] *)
Record node : Type := Node { data : option T; next : ptr }.

(** The private members [head] (owning) and [tail] (raw), and the free store
    holding the nodes. The two mutexes and the condition variable carry no
    state between calls of a single thread. *)
Record queue : Type := Queue {
  heap : gmap positive node;
  head : ptr;
  tail : ptr
}.

Definition M (A : Type) : Type := queue → result (A * queue).

Definition ret {A} (a : A) : M A := λ q, Ok (a, q).
Definition bind {A B} (m : M A) (f : A → M B) : M B :=
  λ q, match m q with
       | Ok (a, q') => f a q'
       | Blocked => Blocked
       | Undefined => Undefined
       end.

(** Destruction of a [std::unique_ptr<node>]: the node is deleted, and its
    own [next] member with it, down the chain. *)
Fixpoint release (fuel : nat) (p : ptr) (h : gmap positive node) : gmap positive node :=
  match fuel, p with
  | S fuel', Some a =>
      match h !! a with
      | Some n => release fuel' (next n) (delete a h)
      | None => h
      end
  | _, _ => h
  end.

(** Reading and writing the members [head] and [tail]. *)
Definition get_head : M ptr := λ q, Ok (head q, q).
Definition read_tail : M ptr := λ q, Ok (tail q, q).
Definition set_head (p : ptr) : M unit :=
  λ q, Ok (tt, Queue (heap q) p (tail q)).
Definition set_tail (p : ptr) : M unit :=
  λ q, Ok (tt, Queue (heap q) (head q) p).

(** [*p] for reading. *)
Definition load (p : ptr) : M node :=
  λ q, match p with
       | Some a => match heap q !! a with
                   | Some n => Ok (n, q)
                   | None => Undefined
                   end
       | None => Undefined
       end.

(** [*p = n]. *)
Definition store (p : ptr) (n : node) : M unit :=
  λ q, match p with
       | Some a => match heap q !! a with
                   | Some _ => Ok (tt, Queue (<[a:=n]> (heap q)) (head q) (tail q))
                   | None => Undefined
                   end
       | None => Undefined
       end.

(** [new node]: both members are null. *)
Definition new_node : M ptr :=
  λ q, let a := fresh (dom (heap q)) in
       Ok (Some a, Queue (<[a:=Node None None]> (heap q)) (head q) (tail q)).

(** A [std::unique_ptr<node>] going out of scope. *)
Definition drop (p : ptr) : M unit :=
  λ q, Ok (tt, Queue (release (size (heap q)) p (heap q)) (head q) (tail q)).

(** [*d] for a [std::shared_ptr<T>]. *)
Definition deref (d : option T) : M T :=
  λ q, match d with Some v => Ok (v, q) | None => Undefined end.

End ThreadsafeQueue.
Arguments node : clear implicits.
Arguments queue : clear implicits.
Arguments M : clear implicits.

#[global] Instance M_ret {T} : MRet (M T) := λ A, ret.
#[global] Instance M_bind {T} : MBind (M T) := λ A B f m, bind m f.

Section Operations.
Context {T : Type}.
Implicit Types (q : queue T) (v : T).

(** [node* get_tail()]: [tail], read under [tail_mutex]. *)
Definition get_tail : M T ptr := read_tail.

(** [std::unique_ptr<node> pop_head()]: [old_head] takes the head node,
    [head] takes [old_head->next], which is left null. *)
Definition pop_head : M T ptr :=
  old_head ← get_head;
  set_head None;;
  n ← load old_head;
  set_head (next n);;
  store old_head (Node (data n) None);;
  mret old_head.

(** [wait_for_data()]: [data_cond.wait(head_lock, pred)] returns at once
    when the predicate holds and sleeps otherwise. *)
Definition wait_for_data : M T unit :=
  λ q, if decide (head q = tail q) then Blocked else Ok (tt, q).

(** [wait_pop_head()] *)
Definition wait_pop_head : M T ptr :=
  wait_for_data ;; pop_head.

(** [wait_pop_head(T& value)]; the new contents of [value] are returned
    next to the pointer. *)
Definition wait_pop_head_ref : M T (ptr * T) :=
  wait_for_data;;
  hd ← get_head;
  n ← load hd;
  value ← deref (data n);
  old_head ← pop_head;
  mret (old_head, value).

(** [try_pop_head()] *)
Definition try_pop_head : M T ptr :=
  hd ← get_head;
  t ← get_tail;
  if decide (hd = t) then mret None else pop_head.

(** [try_pop_head(T& value)]; [value] is the caller's object. *)
Definition try_pop_head_ref (value : T) : M T (ptr * T) :=
  hd ← get_head;
  t ← get_tail;
  if decide (hd = t) then mret (None, value)
  else
    n ← load hd;
    value' ← deref (data n);
    old_head ← pop_head;
    mret (old_head, value').

(** The constructor: [head(new node), tail(head.get())]. *)
Definition new_queue : queue T :=
  let a := fresh (dom (∅ : gmap positive (node T))) in
  Queue {[a := Node None None]} (Some a) (Some a).

(** [std::shared_ptr<T> try_pop()] *)
Definition try_pop : M T (option T) :=
  old_head ← try_pop_head;
  match old_head with
  | Some _ =>
      n ← load old_head;
      drop old_head;;
      mret (data n)
  | None => mret None
  end.

(** [bool try_pop(T& value)]: the flag and the contents of [value]. *)
Definition try_pop_ref (value : T) : M T (bool * T) :=
  r ← try_pop_head_ref value;
  drop r.1;;
  mret (bool_decide (r.1 ≠ None), r.2).

(** [std::shared_ptr<T> wait_and_pop()] *)
Definition wait_and_pop : M T (option T) :=
  old_head ← wait_pop_head;
  n ← load old_head;
  drop old_head;;
  mret (data n).

(** [void wait_and_pop(T& value)]: the contents of [value]. *)
Definition wait_and_pop_ref : M T T :=
  r ← wait_pop_head_ref;
  drop r.1;;
  mret r.2.

(** [void push(T new_value)]: [tail->data=new_data], then
    [tail->next=std::move(p)], which destroys what that [unique_ptr] owned
    before, then [tail=new_tail]. *)
Definition push (new_value : T) : M T unit :=
  p ← new_node;
  t ← read_tail;
  n ← load t;
  store t (Node (Some new_value) (next n));;
  n' ← load t;
  store t (Node (data n') p);;
  drop (next n');;
  set_tail p.

(** [bool empty()] *)
Definition empty : M T bool :=
  hd ← get_head;
  t ← get_tail;
  mret (bool_decide (hd = t)).

(** [v1..vN] pushed in order. *)
Fixpoint push_all (vs : list T) : M T unit :=
  match vs with
  | [] => mret tt
  | v :: vs' => push v;; push_all vs'
  end.

(** [n] successive calls of [try_pop()], with their results in order. *)
Fixpoint try_pop_n (n : nat) : M T (list (option T)) :=
  match n with
  | 0 => mret []
  | S n' => r ← try_pop; rs ← try_pop_n n'; mret (r :: rs)
  end.

(** [n] successive calls of [try_pop(value)] on the same object [value]:
    the flags and the contents of [value] after each call. *)
Fixpoint try_pop_ref_n (n : nat) (value : T) : M T (list (bool * T)) :=
  match n with
  | 0 => mret []
  | S n' => r ← try_pop_ref value; rs ← try_pop_ref_n n' r.2; mret (r :: rs)
  end.

(** ** Calls in sequence *)

(** A call of one of the public member functions, with its argument, and
    what the call gives back to its caller. *)
Inductive request : Type :=
  | DoPush (new_value : T)      (* [push(new_value)] *)
  | DoTryPop                    (* [try_pop()] *)
  | DoTryPopRef (value : T)     (* [try_pop(value)] *)
  | DoWaitAndPop                (* [wait_and_pop()] *)
  | DoWaitAndPopRef             (* [wait_and_pop(value)] *)
  | DoEmpty.                    (* [empty()] *)

Inductive reply : Type :=
  | Pushed
  | TryPopped (r : option T)              (* the [shared_ptr] returned *)
  | TryPoppedRef (b : bool) (value : T)   (* the flag, and [value] afterwards *)
  | WaitPopped (r : option T)             (* the [shared_ptr] returned *)
  | WaitPoppedRef (value : T)             (* [value] afterwards *)
  | Emptiness (b : bool).

Definition serve (c : request) : M T reply :=
  match c with
  | DoPush v => push v;; mret Pushed
  | DoTryPop => r ← try_pop; mret (TryPopped r)
  | DoTryPopRef value => r ← try_pop_ref value; mret (TryPoppedRef r.1 r.2)
  | DoWaitAndPop => r ← wait_and_pop; mret (WaitPopped r)
  | DoWaitAndPopRef => r ← wait_and_pop_ref; mret (WaitPoppedRef r)
  | DoEmpty => b ← empty; mret (Emptiness b)
  end.

(** The calls of [cs] made one after the other by one thread. *)
Fixpoint serve_all (cs : list request) : M T (list reply) :=
  match cs with
  | [] => mret []
  | c :: cs' => r ← serve c; rs ← serve_all cs'; mret (r :: rs)
  end.

(** The same calls on a plain list of values, oldest first: what a
    first-in first-out queue has to answer. There is no answer where the
    caller would wait for a value that no one is there to push. *)
Definition fifo (c : request) (l : list T) : option (reply * list T) :=
  match c, l with
  | DoPush v, _ => Some (Pushed, l ++ [v])
  | DoTryPop, [] => Some (TryPopped None, [])
  | DoTryPop, v :: l' => Some (TryPopped (Some v), l')
  | DoTryPopRef value, [] => Some (TryPoppedRef false value, [])
  | DoTryPopRef value, v :: l' => Some (TryPoppedRef true v, l')
  | DoWaitAndPop, [] => None
  | DoWaitAndPop, v :: l' => Some (WaitPopped (Some v), l')
  | DoWaitAndPopRef, [] => None
  | DoWaitAndPopRef, v :: l' => Some (WaitPoppedRef v, l')
  | DoEmpty, _ => Some (Emptiness (bool_decide (l = [])), l)
  end.

Fixpoint fifo_all (cs : list request) (l : list T) : option (list reply * list T) :=
  match cs with
  | [] => Some ([], l)
  | c :: cs' =>
      match fifo c l with
      | Some (r, l') =>
          match fifo_all cs' l' with
          | Some (rs, l'') => Some (r :: rs, l'')
          | None => None
          end
      | None => None
      end
  end.

(** Deleting the node a [std::unique_ptr<node>] owns, as the destructor
    the compiler writes for [node] does it: the member [next] is destroyed
    first, which deletes the next node from within this call, and so on
    down the chain; the memory of a node is given back when the calls
    below it have returned. The calls nest, one inside the other, one for
    each node. [depth] is the number of nested calls the stack of the
    calling thread has room for, and [None] is a stack that ran out. *)
Fixpoint delete_node (depth : nat) (p : ptr) (h : gmap positive (node T))
    {struct depth} : option (gmap positive (node T)) :=
  match p with
  | None => Some h
  | Some a =>
      match depth with
      | 0 => None
      | S depth' =>
          match h !! a with
          | Some n => delete a <$> delete_node depth' (next n) h
          | None => Some h
          end
      end
  end.

(** [~ThreadsafeQueue()], which the class leaves to the compiler: the
    members are destroyed, and with the [unique_ptr] [head] the nodes it
    owns. What is left of the free store is returned. *)
Definition destroy (depth : nat) (q : queue T) : option (gmap positive (node T)) :=
  delete_node depth (head q) (heap q).

(** ** The node chain and what it stands for *)

(** [chain h a cells t]: following [next] from [a] in [h] visits the nodes
    of [cells], each holding its value, and arrives at [t]. *)
Fixpoint chain (h : gmap positive (node T)) (a : addr)
    (cells : list (positive * T)) (t : addr) : Prop :=
  match cells with
  | [] => a = t
  | c :: rest =>
      c.1 = a ∧ ∃ a', h !! a = Some (Node (Some c.2) (Some a')) ∧ chain h a' rest t
  end.

(** [rep q l]: [q] is a queue holding [l], oldest value first. The chain from
    [head] ends in the sentinel [tail], which carries neither data nor a
    successor, and the free store holds these nodes and no others. *)
Definition rep (q : queue T) (l : list T) : Prop :=
  ∃ (hd tl : positive) (cells : list (positive * T)),
    head q = Some hd ∧ tail q = Some tl ∧ cells.*2 = l ∧
    chain (heap q) hd cells tl ∧
    heap q !! tl = Some (Node None None) ∧
    NoDup (cells.*1 ++ [tl]) ∧
    dom (heap q) = list_to_set (cells.*1 ++ [tl]).

End Operations.
Arguments request : clear implicits.
Arguments reply : clear implicits.

(** A queue holding the single value 7, as [push(7)] leaves a new queue. *)
Definition one_item : queue nat :=
  Queue (<[1%positive:=Node (Some 7) (Some 2%positive)]> {[2%positive:=Node None None]})
        (Some 1%positive) (Some 2%positive).

Create HintDb queue_run.
#[global] Hint Unfold mbind M_bind bind mret M_ret ret get_head get_tail
  read_tail set_head set_tail load store new_node drop deref : queue_run.

Ltac run := repeat autounfold with queue_run; simpl.

Section Representation.
Context {T : Type}.
Implicit Types (q : queue T) (v : T) (h : gmap positive (node T)).

Lemma release_null fuel h : release fuel None h = h.
Proof. by destruct fuel. Qed.

Lemma release_last h a (d : option T) :
  h !! a = Some (Node d None) → release (size h) (Some a) h = delete a h.
Proof.
  intros Ha. destruct (size h) as [|n] eqn:Hsz.
  - apply map_size_empty_inv in Hsz. subst h. by rewrite lookup_empty in Ha.
  - simpl. rewrite Ha. simpl. apply release_null.
Qed.

Lemma chain_insert_ne h a cells t b n :
  b ∉ cells.*1 → chain h a cells t → chain (<[b:=n]> h) a cells t.
Proof.
  revert a. induction cells as [|[c v] rest IH]; intros a Hb; simpl; [done|].
  intros [-> (a' & Ha & Hrest)]. split; [done|]. exists a'. split.
  - rewrite lookup_insert_ne; [done|]. intros ->. apply Hb. simpl. left.
  - apply IH; [|done]. intros Hin. apply Hb. simpl. by right.
Qed.

Lemma chain_delete_ne h a cells t b :
  b ∉ cells.*1 → chain h a cells t → chain (delete b h) a cells t.
Proof.
  revert a. induction cells as [|[c v] rest IH]; intros a Hb; simpl; [done|].
  intros [-> (a' & Ha & Hrest)]. split; [done|]. exists a'. split.
  - rewrite lookup_delete_ne; [done|]. intros ->. apply Hb. simpl. left.
  - apply IH; [|done]. intros Hin. apply Hb. simpl. by right.
Qed.

Lemma chain_snoc h a cells t v p :
  chain h a cells t → h !! t = Some (Node (Some v) (Some p)) →
  chain h a (cells ++ [(t, v)]) p.
Proof.
  revert a. induction cells as [|[c w] rest IH]; intros a; simpl.
  - intros -> Ht. split; [done|]. by exists p.
  - intros [-> (a' & Ha & Hrest)] Ht. split; [done|]. exists a'. eauto.
Qed.

(** The constructor builds the empty queue. *)
Lemma rep_new : rep (@new_queue T) [].
Proof.
  unfold new_queue. set (a := fresh _).
  exists a, a, []. simpl. split_and!; try done.
  apply NoDup_singleton.
Qed.

(** In a queue that stands for [l], the two pointers coincide exactly when
    [l] is empty. *)
Lemma rep_head_tail q l : rep q l → (head q = tail q ↔ l = []).
Proof.
  intros (hd & tl & cells & Hh & Ht & <- & Hch & Htl & Hnd & _).
  rewrite Hh, Ht. destruct cells as [|[c v] rest]; simpl in *.
  - subst. done.
  - destruct Hch as [-> _]. split; [|done]. intros [= ->].
    apply NoDup_cons in Hnd as [Hnd _]. exfalso. apply Hnd. set_solver.
Qed.

Lemma rep_push q l v :
  rep q l → ∃ q', push v q = Ok (tt, q') ∧ rep q' (l ++ [v]).
Proof.
  intros (hd & tl & cells & Hh & Ht & <- & Hch & Htl & Hnd & Hdom).
  unfold push. run. set (a := fresh (dom (heap q))).
  assert (Hfresh : a ∉ dom (heap q)) by apply is_fresh.
  assert (Ha : a ∉ cells.*1 ++ [tl]) by (rewrite Hdom in Hfresh; set_solver).
  assert (Hatl : a ≠ tl) by set_solver.
  rewrite Ht. rewrite lookup_insert_ne, Htl by done. simpl.
  rewrite lookup_insert_ne, Htl by done. simpl.
  rewrite lookup_insert_eq. simpl. rewrite lookup_insert_eq. simpl.
  rewrite release_null. eexists. split; [done|].
  exists hd, a, (cells ++ [(tl, v)]). simpl.
  rewrite !fmap_app. simpl. rewrite insert_insert_eq.
  apply NoDup_app in Hnd as Hnd'. destruct Hnd' as (Hnd1 & Hnd2 & _).
  split_and!; try done.
  - apply chain_snoc.
    + apply chain_insert_ne; [intros Hin; by apply (Hnd2 tl); [|left]|].
      apply chain_insert_ne; [set_solver|done].
    + apply lookup_insert_eq.
  - rewrite lookup_insert_ne by done. apply lookup_insert_eq.
  - apply NoDup_app. split_and!; [done| |apply NoDup_singleton].
    intros x Hx ->%list_elem_of_singleton. done.
  - rewrite !dom_insert_L, Hdom. set_solver.
Qed.

(** What the pop family does to the node chain of a queue that is not
    empty: [pop_head] unlinks the first node, and dropping it afterwards
    leaves the queue standing for the remaining values. *)
Lemma rep_pop_head q v l :
  rep q (v :: l) →
  ∃ hd q1,
    head q = Some hd ∧ head q ≠ tail q ∧
    heap q !! hd = Some (Node (Some v) (head q1)) ∧
    pop_head q = Ok (Some hd, q1) ∧
    heap q1 !! hd = Some (Node (Some v) None) ∧
    ∃ q2, drop (Some hd) q1 = Ok (tt, q2) ∧ rep q2 l.
Proof.
  intros Hrep. pose proof (rep_head_tail _ _ Hrep) as Hne.
  destruct Hrep as (hd & tl & cells & Hh & Ht & Hl & Hch & Htl & Hnd & Hdom).
  destruct cells as [|[c w] rest]; [done|]. simpl in *.
  injection Hl as -> <-. destruct Hch as [-> (a' & Hhd & Hch)].
  apply NoDup_cons in Hnd as [Hnotin Hnd].
  assert (Hhdtl : hd ≠ tl) by set_solver.
  unfold pop_head. run. rewrite Hh, Hhd. simpl. rewrite Hhd. simpl.
  exists hd, (Queue (<[hd:=Node (Some v) None]> (heap q)) (Some a') (tail q)).
  simpl. rewrite Ht.
  split_and!; [done|naive_solver|done|done|by rewrite lookup_insert_eq|].
  rewrite (release_last _ _ (Some v)) by apply lookup_insert_eq.
  eexists. split; [done|]. rewrite delete_insert_eq.
  exists a', tl, rest. simpl. split_and!; try done.
  - apply chain_delete_ne; [set_solver|done].
  - by rewrite lookup_delete_ne.
  - rewrite dom_delete_L, Hdom. set_solver.
Qed.

Lemma mbind_ok {A B} (m : M T A) (f : A → M T B) q a q' :
  m q = Ok (a, q') → (m ≫= f) q = f a q'.
Proof. intros Hm. unfold mbind, M_bind, bind. by rewrite Hm. Qed.

Lemma try_pop_head_eq q : head q = tail q → try_pop_head q = Ok (None, q).
Proof. intros Heq. unfold try_pop_head. run. by rewrite decide_True. Qed.

Lemma try_pop_head_ne q : head q ≠ tail q → try_pop_head q = pop_head q.
Proof. intros Hne. unfold try_pop_head. run. by rewrite decide_False. Qed.

Lemma try_pop_head_ref_eq q value :
  head q = tail q → try_pop_head_ref value q = Ok ((None, value), q).
Proof. intros Heq. unfold try_pop_head_ref. run. by rewrite decide_True. Qed.

Lemma try_pop_head_ref_ne q value :
  head q ≠ tail q → try_pop_head_ref value q = wait_pop_head_ref q.
Proof.
  intros Hne. unfold try_pop_head_ref, wait_pop_head_ref, wait_for_data.
  run. by rewrite !decide_False.
Qed.

Lemma wait_pop_head_ne q : head q ≠ tail q → wait_pop_head q = pop_head q.
Proof.
  intros Hne. unfold wait_pop_head, wait_for_data. run. by rewrite decide_False.
Qed.

Lemma wait_pop_head_ref_ok q q1 hd v :
  head q = Some hd → head q ≠ tail q →
  heap q !! hd = Some (Node (Some v) (head q1)) →
  pop_head q = Ok (Some hd, q1) →
  wait_pop_head_ref q = Ok ((Some hd, v), q1).
Proof.
  intros Hh Hne Hhd Hpop. unfold wait_pop_head_ref, wait_for_data.
  run. rewrite decide_False by done. rewrite Hh, Hhd. simpl.
  by rewrite Hpop.
Qed.

Lemma rep_try_pop_nil q : rep q [] → try_pop q = Ok (None, q).
Proof.
  intros Hrep. apply rep_head_tail in Hrep as [_ Heq]. specialize (Heq eq_refl).
  unfold try_pop. by rewrite (mbind_ok _ _ _ _ _ (try_pop_head_eq _ Heq)).
Qed.

Lemma rep_try_pop_ref_nil q value :
  rep q [] → try_pop_ref value q = Ok ((false, value), q).
Proof.
  intros Hrep. apply rep_head_tail in Hrep as [_ Heq]. specialize (Heq eq_refl).
  unfold try_pop_ref. rewrite (mbind_ok _ _ _ _ _ (try_pop_head_ref_eq _ _ Heq)).
  run. rewrite release_null. by destruct q.
Qed.

Lemma rep_wait_and_pop_nil q : rep q [] → wait_and_pop q = Blocked.
Proof.
  intros Hrep. apply rep_head_tail in Hrep as [_ Heq]. specialize (Heq eq_refl).
  unfold wait_and_pop, wait_pop_head, wait_for_data. run. by rewrite decide_True.
Qed.

Lemma rep_wait_and_pop_ref_nil q : rep q [] → wait_and_pop_ref q = Blocked.
Proof.
  intros Hrep. apply rep_head_tail in Hrep as [_ Heq]. specialize (Heq eq_refl).
  unfold wait_and_pop_ref, wait_pop_head_ref, wait_for_data. run.
  by rewrite decide_True.
Qed.

(** The four pop functions agree on a queue that is not empty. *)
Lemma rep_pop_cons q v l value :
  rep q (v :: l) →
  ∃ q', try_pop q = Ok (Some v, q') ∧
        try_pop_ref value q = Ok ((true, v), q') ∧
        wait_and_pop q = Ok (Some v, q') ∧
        wait_and_pop_ref q = Ok (v, q') ∧
        rep q' l.
Proof.
  intros (hd & q1 & Hh & Hne & Hhd0 & Hpop & Hhd & q2 & Hdrop & Hrep)%rep_pop_head.
  exists q2.
  pose proof (wait_pop_head_ref_ok _ _ _ _ Hh Hne Hhd0 Hpop) as Hwref.
  assert (Hload : load (Some hd) q1 = Ok (Node (Some v) None, q1))
    by (unfold load; by rewrite Hhd).
  split_and!; [| | | |done].
  - unfold try_pop. rewrite <-try_pop_head_ne in Hpop by done.
    rewrite (mbind_ok _ _ _ _ _ Hpop), (mbind_ok _ _ _ _ _ Hload).
    by rewrite (mbind_ok _ _ _ _ _ Hdrop).
  - unfold try_pop_ref. rewrite <-(try_pop_head_ref_ne _ value) in Hwref by done.
    rewrite (mbind_ok _ _ _ _ _ Hwref). simpl.
    by rewrite (mbind_ok _ _ _ _ _ Hdrop).
  - unfold wait_and_pop. rewrite <-wait_pop_head_ne in Hpop by done.
    rewrite (mbind_ok _ _ _ _ _ Hpop), (mbind_ok _ _ _ _ _ Hload).
    by rewrite (mbind_ok _ _ _ _ _ Hdrop).
  - unfold wait_and_pop_ref. rewrite (mbind_ok _ _ _ _ _ Hwref). simpl.
    by rewrite (mbind_ok _ _ _ _ _ Hdrop).
Qed.

Lemma rep_empty q l : rep q l → empty q = Ok (bool_decide (l = []), q).
Proof.
  intros Hrep%rep_head_tail. unfold empty. run. do 2 f_equal.
  by apply bool_decide_ext.
Qed.

Lemma chain_functional h a t cells cells' :
  h !! t = Some (Node None None) →
  chain h a cells t → chain h a cells' t → cells = cells'.
Proof.
  intros Ht. revert a cells'.
  induction cells as [|[c x] rest IH]; intros a [|[c' x'] rest']; simpl.
  - done.
  - intros -> [_ (a' & Ha & _)]. congruence.
  - intros [_ (a' & Ha & _)] ->. congruence.
  - intros [-> (a1 & Ha1 & Hr1)] [-> (a2 & Ha2 & Hr2)].
    rewrite Ha1 in Ha2. injection Ha2 as -> ->. f_equal. by eapply IH.
Qed.

(** A queue stands for one list only. *)
Lemma rep_functional q l l' : rep q l → rep q l' → l = l'.
Proof.
  intros (hd & tl & cells & Hh & Ht & <- & Hch & Htl & _)
         (hd' & tl' & cells' & Hh' & Ht' & <- & Hch' & _).
  rewrite Hh in Hh'. rewrite Ht in Ht'. injection Hh' as <-. injection Ht' as <-.
  by rewrite (chain_functional _ _ _ _ _ Htl Hch Hch').
Qed.

Lemma rep_push_all vs q l :
  rep q l → ∃ q', push_all vs q = Ok (tt, q') ∧ rep q' (l ++ vs).
Proof.
  revert q l. induction vs as [|v vs IH]; intros q l Hrep; simpl.
  - exists q. by rewrite app_nil_r.
  - destruct (rep_push _ _ v Hrep) as (q1 & Hpush & Hrep1).
    destruct (IH _ _ Hrep1) as (q2 & Hall & Hrep2).
    exists q2. rewrite (mbind_ok _ _ _ _ _ Hpush). split; [done|].
    by rewrite <-app_assoc in Hrep2.
Qed.

Lemma rep_try_pop_n vs q l :
  rep q (vs ++ l) →
  ∃ q', try_pop_n (length vs) q = Ok (Some <$> vs, q') ∧ rep q' l.
Proof.
  revert q. induction vs as [|v vs IH]; intros q Hrep; simpl.
  - by exists q.
  - destruct (rep_pop_cons _ _ _ v Hrep) as (q1 & Hpop & _ & _ & _ & Hrep1).
    destruct (IH _ Hrep1) as (q2 & Hn & Hrep2).
    exists q2. rewrite (mbind_ok _ _ _ _ _ Hpop).
    by rewrite (mbind_ok _ _ _ _ _ Hn).
Qed.

Lemma rep_try_pop_ref_n vs q l value :
  rep q (vs ++ l) →
  ∃ q', try_pop_ref_n (length vs) value q = Ok (pair true <$> vs, q') ∧ rep q' l.
Proof.
  revert q value. induction vs as [|v vs IH]; intros q value Hrep; simpl.
  - by exists q.
  - destruct (rep_pop_cons _ _ _ value Hrep) as (q1 & _ & Hpop & _ & _ & Hrep1).
    destruct (IH _ v Hrep1) as (q2 & Hn & Hrep2).
    exists q2. rewrite (mbind_ok _ _ _ _ _ Hpop). simpl.
    by rewrite (mbind_ok _ _ _ _ _ Hn).
Qed.

Lemma wait_pop_head_ref_some q p v q' :
  wait_pop_head_ref q = Ok ((p, v), q') → p ≠ None.
Proof.
  unfold wait_pop_head_ref, wait_for_data, pop_head. run.
  destruct (decide (head q = tail q)); [done|].
  destruct (head q) as [a|] eqn:Hh; [|done].
  destruct (heap q !! a) as [nd|] eqn:Ha; [|done].
  destruct (data nd); [|done]. simpl. rewrite Hh, Ha. simpl. rewrite Ha. simpl.
  by intros [= <- _ _].
Qed.

End Representation.

(** ** The queue on one thread *)

Section Sequential.
Context {T : Type}.
Implicit Types (q : queue T) (v value : T) (l vs : list T).

(** C1. Pushing [v1..vN] onto a freshly constructed queue and calling
    [try_pop] [N] times returns [v1..vN] in that order, for the
    [shared_ptr] overload and for the [bool try_pop(T&)] overload; one more
    [try_pop] reports no value (and leaves [value] alone), and [empty()]
    then answers true. *)
Theorem push_then_try_pop_fifo vs :
  ∃ q1, push_all vs (@new_queue T) = Ok (tt, q1) ∧
    (∃ q2, try_pop_n (length vs) q1 = Ok (Some <$> vs, q2) ∧
           try_pop q2 = Ok (None, q2) ∧ empty q2 = Ok (true, q2)) ∧
    (∀ value, ∃ q2,
           try_pop_ref_n (length vs) value q1 = Ok (pair true <$> vs, q2) ∧
           (∀ value', try_pop_ref value' q2 = Ok ((false, value'), q2)) ∧
           empty q2 = Ok (true, q2)).
Proof.
  destruct (rep_push_all vs _ _ rep_new) as (q1 & Hpush & Hrep1). simpl in Hrep1.
  exists q1. split; [done|]. rewrite <-(app_nil_r vs) in Hrep1. split.
  - destruct (rep_try_pop_n _ _ _ Hrep1) as (q2 & Hpop & Hrep2).
    exists q2. split_and!; [done|by apply rep_try_pop_nil|].
    by rewrite (rep_empty _ _ Hrep2).
  - intros value.
    destruct (rep_try_pop_ref_n _ _ _ value Hrep1) as (q2 & Hpop & Hrep2).
    exists q2. split_and!; [done|intros; by apply rep_try_pop_ref_nil|].
    by rewrite (rep_empty _ _ Hrep2).
Qed.

(** C3. The constructor builds a queue that stands for no values, and on
    which [empty()] is true. In every queue that stands for a list [l],
    [head == tail] holds exactly when [l] is empty, and that is what
    [empty()] returns without changing the queue. [push] extends the list at
    the back and [empty()] is false right after it; the four pop functions
    take the first value off (or, on the empty list, leave the queue as it
    is), and after the pop of the last value [empty()] is true again. *)
Theorem head_eq_tail_iff_empty q l v value :
  rep q l →
  (rep (@new_queue T) [] ∧ empty (@new_queue T) = Ok (true, new_queue)) ∧
  (head q = tail q ↔ l = []) ∧
  empty q = Ok (bool_decide (l = []), q) ∧
  (∃ q', push v q = Ok (tt, q') ∧ rep q' (l ++ [v]) ∧ head q' ≠ tail q' ∧
         empty q' = Ok (false, q')) ∧
  match l with
  | [] => try_pop q = Ok (None, q) ∧
          try_pop_ref value q = Ok ((false, value), q) ∧
          wait_and_pop q = Blocked ∧ wait_and_pop_ref q = Blocked
  | x :: l' =>
      ∃ q', try_pop q = Ok (Some x, q') ∧
            try_pop_ref value q = Ok ((true, x), q') ∧
            wait_and_pop q = Ok (Some x, q') ∧
            wait_and_pop_ref q = Ok (x, q') ∧
            rep q' l' ∧ (head q' = tail q' ↔ l' = []) ∧
            empty q' = Ok (bool_decide (l' = []), q')
  end.
Proof.
  intros Hrep. split_and!.
  - apply rep_new.
  - by rewrite (rep_empty _ _ rep_new).
  - by apply rep_head_tail.
  - by apply rep_empty.
  - destruct (rep_push _ _ v Hrep) as (q' & Hpush & Hrep').
    exists q'. split_and!; [done|done| |].
    + intros Heq. apply (rep_head_tail _ _ Hrep') in Heq. by destruct l.
    + rewrite (rep_empty _ _ Hrep'). by destruct l.
  - destruct l as [|x l'].
    + split_and!; [by apply rep_try_pop_nil|by apply rep_try_pop_ref_nil|
                   by apply rep_wait_and_pop_nil|by apply rep_wait_and_pop_ref_nil].
    + destruct (rep_pop_cons _ _ _ value Hrep) as (q' & H1 & H2 & H3 & H4 & Hrep').
      exists q'. split_and!; try done; [by apply rep_head_tail|by apply rep_empty].
Qed.

(** C8. On every queue state that is not empty ([head != tail]),
    [wait_and_pop()] is [try_pop()], result and final state, and
    [try_pop(value)] is [wait_and_pop(value)] with the flag [true] added.
    When the state stands for [x :: l'], all four functions hand out [x] and
    leave one and the same queue, which stands for [l']. *)
Theorem wait_and_pop_is_try_pop q value :
  head q ≠ tail q →
  wait_and_pop q = try_pop q ∧
  try_pop_ref value q =
    match wait_and_pop_ref q with
    | Ok (x, q') => Ok ((true, x), q')
    | Blocked => Blocked
    | Undefined => Undefined
    end ∧
  ∀ x l', rep q (x :: l') →
    ∃ q', try_pop q = Ok (Some x, q') ∧ wait_and_pop q = Ok (Some x, q') ∧
          try_pop_ref value q = Ok ((true, x), q') ∧
          wait_and_pop_ref q = Ok (x, q') ∧ rep q' l'.
Proof.
  intros Hne. split_and!.
  - unfold wait_and_pop, try_pop.
    unfold mbind at 1 4, M_bind, bind.
    rewrite wait_pop_head_ne, try_pop_head_ne by done.
    destruct (pop_head q) as [[[a|] q1]| |] eqn:Hpop; try done.
    revert Hpop. unfold pop_head. run.
    destruct (head q); [|done]. destruct (heap q !! _); [|done]. simpl.
    by destruct (heap q !! _).
  - unfold try_pop_ref, wait_and_pop_ref. unfold mbind at 1 3, M_bind, bind.
    rewrite try_pop_head_ref_ne by done.
    destruct (wait_pop_head_ref q) as [[[p x] q1]| |] eqn:Hw; try done.
    apply wait_pop_head_ref_some in Hw. run. by rewrite bool_decide_true.
  - intros x l' Hrep.
    destruct (rep_pop_cons _ _ _ value Hrep) as (q' & H1 & H2 & H3 & H4 & Hrep').
    by exists q'.
Qed.

(** C9. On every empty queue state ([head == tail]) both [try_pop]
    overloads return at once with no value, a null [shared_ptr] and [false],
    and leave the queue and the caller's [value] as they were. *)
Theorem try_pop_empty q value :
  head q = tail q →
  try_pop q = Ok (None, q) ∧ try_pop_ref value q = Ok ((false, value), q).
Proof.
  intros Heq. split.
  - unfold try_pop. by rewrite (mbind_ok _ _ _ _ _ (try_pop_head_eq _ Heq)).
  - unfold try_pop_ref.
    rewrite (mbind_ok _ _ _ _ _ (try_pop_head_ref_eq _ _ Heq)).
    run. rewrite release_null. by destruct q.
Qed.

End Sequential.

(** ** Any sequence of calls on one thread *)

Section Calls.
Context {T : Type}.
Implicit Types (q : queue T) (l : list T) (cs : list (request T))
  (rs : list (reply T)) (h : gmap positive (node T)).

Lemma mbind_blocked {A B} (m : M T A) (f : A → M T B) q :
  m q = Blocked → (m ≫= f) q = Blocked.
Proof. intros Hm. unfold mbind, M_bind, bind. by rewrite Hm. Qed.

(** One call on a queue that stands for [l] answers as [fifo] does on [l]
    and leaves a queue that stands for the list [fifo] leaves; where
    [fifo] has no answer, the call blocks. *)
Lemma serve_fifo c q l :
  rep q l →
  match fifo c l with
  | Some (r, l') => ∃ q', serve c q = Ok (r, q') ∧ rep q' l'
  | None => serve c q = Blocked
  end.
Proof.
  intros Hrep. destruct c as [v| |value| | |]; simpl.
  - destruct (rep_push _ _ v Hrep) as (q' & Hp & Hrep'). exists q'.
    by rewrite (mbind_ok _ _ _ _ _ Hp).
  - destruct l as [|v l].
    + exists q. by rewrite (mbind_ok _ _ _ _ _ (rep_try_pop_nil _ Hrep)).
    + destruct (rep_pop_cons _ _ _ v Hrep) as (q' & H1 & _ & _ & _ & Hrep').
      exists q'. by rewrite (mbind_ok _ _ _ _ _ H1).
  - destruct l as [|v l].
    + exists q. by rewrite (mbind_ok _ _ _ _ _ (rep_try_pop_ref_nil _ value Hrep)).
    + destruct (rep_pop_cons _ _ _ value Hrep) as (q' & _ & H2 & _ & _ & Hrep').
      exists q'. by rewrite (mbind_ok _ _ _ _ _ H2).
  - destruct l as [|v l].
    + by rewrite (mbind_blocked _ _ _ (rep_wait_and_pop_nil _ Hrep)).
    + destruct (rep_pop_cons _ _ _ v Hrep) as (q' & _ & _ & H3 & _ & Hrep').
      exists q'. by rewrite (mbind_ok _ _ _ _ _ H3).
  - destruct l as [|v l].
    + by rewrite (mbind_blocked _ _ _ (rep_wait_and_pop_ref_nil _ Hrep)).
    + destruct (rep_pop_cons _ _ _ v Hrep) as (q' & _ & _ & _ & H4 & Hrep').
      exists q'. by rewrite (mbind_ok _ _ _ _ _ H4).
  - exists q. by rewrite (mbind_ok _ _ _ _ _ (rep_empty _ _ Hrep)).
Qed.

Lemma serve_all_fifo cs q l :
  rep q l →
  match fifo_all cs l with
  | Some (rs, l') => ∃ q', serve_all cs q = Ok (rs, q') ∧ rep q' l'
  | None => serve_all cs q = Blocked
  end.
Proof.
  revert q l. induction cs as [|c cs IH]; intros q l Hrep; simpl.
  - by exists q.
  - pose proof (serve_fifo c _ _ Hrep) as Hc.
    destruct (fifo c l) as [[r l1]|]; [|by rewrite (mbind_blocked _ _ _ Hc)].
    destruct Hc as (q1 & Hc & Hrep1). rewrite (mbind_ok _ _ _ _ _ Hc).
    pose proof (IH _ _ Hrep1) as Hcs.
    destruct (fifo_all cs l1) as [[rs l2]|]; [|by rewrite (mbind_blocked _ _ _ Hcs)].
    destruct Hcs as (q2 & Hcs & Hrep2). exists q2.
    by rewrite (mbind_ok _ _ _ _ _ Hcs).
Qed.

(** The free store of a queue holds one node for each value and the
    sentinel. *)
Lemma rep_size q l : rep q l → size (heap q) = S (length l).
Proof.
  intros (hd & tl & cells & _ & _ & <- & _ & _ & Hnd & Hdom).
  rewrite <-size_dom, Hdom, size_list_to_set by done.
  rewrite length_app, !length_fmap. simpl. lia.
Qed.

(** Deleting the owner of a chain takes one nested call for each node of
    the chain, the sentinel included, and gives back these nodes. *)
Lemma delete_node_chain depth h a cells t :
  chain h a cells t → h !! t = Some (Node None None) →
  delete_node depth (Some a) h =
    if decide (length cells < depth)
    then Some (foldr delete h (cells.*1 ++ [t])) else None.
Proof.
  revert depth a. induction cells as [|[c v] rest IH]; intros depth a; simpl.
  - intros -> Ht. destruct depth as [|depth]; simpl; [done|].
    rewrite Ht. simpl. by destruct depth.
  - intros [-> (a' & Ha & Hch)] Ht. destruct depth as [|depth]; simpl; [done|].
    rewrite Ha. simpl. rewrite (IH depth a' Hch Ht).
    repeat case_decide; try lia; done.
Qed.

Lemma dom_foldr_delete (h : gmap positive (node T)) (l : list positive) :
  dom (foldr delete h l) = dom h ∖ list_to_set l.
Proof.
  induction l as [|a l IH]; simpl; [set_solver|].
  rewrite dom_delete_L, IH. set_solver.
Qed.

Lemma destroy_rep depth q l :
  rep q l →
  destroy depth q = if decide (length l < depth) then Some ∅ else None.
Proof.
  intros (hd & tl & cells & Hh & _ & <- & Hch & Htl & _ & Hdom).
  unfold destroy. rewrite Hh, (delete_node_chain _ _ _ _ _ Hch Htl), length_fmap.
  case_decide; [|done]. f_equal. apply dom_empty_inv_L.
  rewrite dom_foldr_delete, Hdom. set_solver.
Qed.

(** X1. Whatever public member functions one thread calls, in whatever
    order, on a queue that stands for [l]: the calls answer exactly as they
    would on the plain list [l], with [push] adding at the back and the four
    pop functions taking from the front, and leave a queue that stands for
    the list left; the sequence blocks exactly where a [wait_and_pop] meets
    the empty list; and no call ever dereferences a null pointer. *)
Theorem calls_answer_as_fifo cs q l :
  rep q l →
  (∀ rs l', fifo_all cs l = Some (rs, l') →
     ∃ q', serve_all cs q = Ok (rs, q') ∧ rep q' l') ∧
  (fifo_all cs l = None → serve_all cs q = Blocked) ∧
  serve_all cs q ≠ Undefined.
Proof.
  intros Hrep. pose proof (serve_all_fifo cs _ _ Hrep) as H.
  destruct (fifo_all cs l) as [[rs l']|].
  - destruct H as (q' & H & Hrep'). split_and!; [|done|by rewrite H].
    intros ?? [= <- <-]. eauto.
  - split_and!; [done|done|by rewrite H].
Qed.

(** X2. After any sequence of calls that returns, the free store holds one
    node for each value still in the queue and one more, the sentinel: every
    node taken out by a pop has been deleted, and [push] has left nothing
    behind. *)
Theorem one_node_per_value cs q l rs q' :
  rep q l → serve_all cs q = Ok (rs, q') →
  ∃ l', fifo_all cs l = Some (rs, l') ∧ rep q' l' ∧
        size (heap q') = S (length l').
Proof.
  intros Hrep Hrun. pose proof (serve_all_fifo cs _ _ Hrep) as H.
  destruct (fifo_all cs l) as [[rs1 l1]|]; [|congruence].
  destruct H as (q1 & H & Hrep1). rewrite H in Hrun. injection Hrun as <- <-.
  exists l1. split_and!; [done|done|by apply rep_size].
Qed.

(** X3. The destructor deletes the nodes by nested calls, one inside the
    other, one for each node: for a queue holding [n] values the calls nest
    [n+1] deep. On a stack with room for that many, destroying the queue
    deletes every node it owns, the values still queued with them, and
    nothing stays behind in the free store; on a stack with less room the
    destructor runs out of stack, so a queue that is long enough cannot be
    destroyed. This holds for a new queue and after any calls. *)
Theorem destroy_nests_once_per_node depth cs q l rs q' :
  rep q l →
  destroy depth q = (if decide (length l < depth) then Some ∅ else None) ∧
  (serve_all cs q = Ok (rs, q') →
     ∃ l', fifo_all cs l = Some (rs, l') ∧
           destroy depth q' = if decide (length l' < depth) then Some ∅ else None).
Proof.
  intros Hrep. split; [by apply destroy_rep|].
  intros Hrun. pose proof (serve_all_fifo cs _ _ Hrep) as H.
  destruct (fifo_all cs l) as [[rs1 l1]|]; [|congruence].
  destruct H as (q1 & H & Hrep1). rewrite H in Hrun. injection Hrun as <- <-.
  exists l1. split; [done|by apply destroy_rep].
Qed.

End Calls.

(** ** Concrete queues *)

Lemma one_item_push : push 7 new_queue = Ok (tt, one_item).
Proof. vm_compute. reflexivity. Qed.

Lemma rep_one_item : rep one_item [7].
Proof.
  destruct (rep_push new_queue [] 7 rep_new) as (q' & Hp & Hr).
  rewrite one_item_push in Hp. by injection Hp as <-.
Qed.

(** Push 1, 2, 3; four calls of [try_pop()]; then [empty()]. *)
Example push_1_2_3_then_pop :
  match (push_all [1; 2; 3];; rs ← try_pop_n 4; e ← empty; mret (rs, e)) new_queue with
  | Ok ((rs, e), _) => rs = [Some 1; Some 2; Some 3; None] ∧ e = true
  | _ => False
  end.
Proof. vm_compute. done. Qed.

Lemma head_eq_tail_iff_empty_witness :
  rep one_item [7] ∧
  ∃ after, try_pop one_item = Ok (Some 7, after) ∧ empty after = Ok (true, after).
Proof.
  split; [apply rep_one_item|].
  destruct (head_eq_tail_iff_empty one_item [7] 0 0 rep_one_item)
    as (_ & _ & _ & _ & after & Hpop & _ & _ & _ & _ & _ & Hempty).
  exists after. split; [exact Hpop|exact Hempty].
Defined.

Lemma wait_and_pop_is_try_pop_witness :
  head one_item ≠ tail one_item ∧
  wait_and_pop one_item = try_pop one_item ∧
  try_pop_ref 0 one_item =
    match wait_and_pop_ref one_item with
    | Ok (x, after) => Ok ((true, x), after)
    | Blocked => Blocked
    | Undefined => Undefined
    end.
Proof.
  assert (Hne : head one_item ≠ tail one_item) by discriminate.
  split; [exact Hne|].
  destruct (wait_and_pop_is_try_pop one_item 0 Hne) as (H1 & H2 & _).
  split; [exact H1|exact H2].
Defined.

Lemma try_pop_empty_witness :
  head (@new_queue nat) = tail (@new_queue nat) ∧
  try_pop (@new_queue nat) = Ok (None, new_queue) ∧
  try_pop_ref 5 (@new_queue nat) = Ok ((false, 5), new_queue).
Proof.
  split; [reflexivity|]. apply (try_pop_empty (@new_queue nat) 5). reflexivity.
Defined.

(** [try_pop()], [push(8)], [empty()] on the queue that holds 7. *)
Lemma calls_answer_as_fifo_witness :
  rep one_item [7] ∧
  ∃ q', serve_all [DoTryPop; DoPush 8; DoEmpty] one_item
          = Ok ([TryPopped (Some 7); Pushed; Emptiness false], q') ∧
        rep q' [8].
Proof.
  split; [apply rep_one_item|].
  destruct (calls_answer_as_fifo [DoTryPop; DoPush 8; DoEmpty] one_item [7] rep_one_item)
    as (H & _).
  apply (H _ _ eq_refl).
Defined.

(** [push(8)], [push(9)], [try_pop()] on the queue that holds 7: three
    nodes, for 8, for 9 and the sentinel. *)
Lemma one_node_per_value_witness :
  rep one_item [7] ∧
  ∃ q', serve_all [DoPush 8; DoPush 9; DoTryPop] one_item
          = Ok ([Pushed; Pushed; TryPopped (Some 7)], q') ∧
        rep q' [8; 9] ∧ size (heap q') = 3.
Proof.
  split; [apply rep_one_item|].
  pose proof (serve_all_fifo [DoPush 8; DoPush 9; DoTryPop] one_item [7] rep_one_item)
    as (q' & Hrun & _).
  exists q'. split; [exact Hrun|].
  destruct (one_node_per_value _ _ _ _ _ rep_one_item Hrun) as (l' & Hf & Hrep & Hsz).
  injection Hf as <-. split; [exact Hrep|exact Hsz].
Defined.

(** A queue holding one value has two nodes: two nested calls delete
    them, and a stack with room for one call only runs out. *)
Lemma destroy_nests_once_per_node_witness :
  rep one_item [7] ∧
  destroy 2 one_item = Some ∅ ∧ destroy 1 one_item = None ∧
  ∃ q', serve_all [DoPush 8; DoPush 9; DoTryPop] one_item = Ok ([Pushed; Pushed; TryPopped (Some 7)], q') ∧
        destroy 3 q' = Some ∅ ∧ destroy 2 q' = None.
Proof.
  split; [apply rep_one_item|].
  split; [exact (proj1 (destroy_nests_once_per_node 2 [] one_item [7] [] one_item
                          rep_one_item))|].
  split; [exact (proj1 (destroy_nests_once_per_node 1 [] one_item [7] [] one_item
                          rep_one_item))|].
  pose proof (serve_all_fifo [DoPush 8; DoPush 9; DoTryPop] one_item [7] rep_one_item)
    as (q' & Hrun & _).
  exists q'. split; [exact Hrun|].
  destruct (proj2 (destroy_nests_once_per_node 3 _ _ _ _ _ rep_one_item) Hrun)
    as (l3 & Hf3 & H3).
  destruct (proj2 (destroy_nests_once_per_node 2 _ _ _ _ _ rep_one_item) Hrun)
    as (l2 & Hf2 & H2).
  injection Hf3 as <-. injection Hf2 as <-. split; [exact H3|exact H2].
Defined.

End Queue.

(** * The queue under concurrent producers and consumers *)

Module Conc.
Import Queue.

(** The member functions a thread may call. The four pop functions and
    [empty()] share their first steps. *)
Inductive pop_kind : Type :=
  | TryPop          (* [std::shared_ptr<T> try_pop()] *)
  | TryPopRef       (* [bool try_pop(T& value)] *)
  | WaitAndPop      (* [std::shared_ptr<T> wait_and_pop()] *)
  | WaitAndPopRef   (* [void wait_and_pop(T& value)] *)
  | IsEmpty.        (* [bool empty()] *)

Definition by_ref (k : pop_kind) : bool :=
  match k with TryPopRef | WaitAndPopRef => true | _ => false end.

Definition waits (k : pop_kind) : bool :=
  match k with WaitAndPop | WaitAndPopRef => true | _ => false end.

Section Interleaving.
Context {T : Type}.

Inductive op : Type :=
  | Push (new_value : T)
  | Pop (k : pop_kind).

(** Where a thread stands: outside the queue, or before one statement of a
    member function, with its local variables. A step is one lock or
    unlock, or one statement that reads or writes the shared nodes or
    pointers; [pop_head()], which runs under [head_mutex], is one step.
    After [pop_head()], [r] is the caller's [value] for the overloads with
    [T& value]; for the others it is the data of the node taken, kept for
    the record only: what they return is read from the node in the last
    step. *)
Inductive thread : Type :=
  | Idle
  (* [push(new_value)] *)
  | PushAlloc (v : T)                 (* before [new node] *)
  | PushLock (v : T) (p : positive)   (* before [tail_lock(tail_mutex)] *)
  | PushData (v : T) (p : positive)   (* before [tail->data=new_data] *)
  | PushNext (v : T) (p : positive)   (* before [tail->next=std::move(p)] *)
  | PushTail (v : T) (p : positive)   (* before [tail=new_tail] *)
  | PushUnlock                        (* before the end of the block; then [notify_one()] *)
  (* the pop functions and [empty()] *)
  | PopLockHead (k : pop_kind)        (* before [head_lock(head_mutex)] *)
  | PopLockTail (k : pop_kind)        (* in [get_tail()], before [tail_lock(tail_mutex)] *)
  | PopReadTail (k : pop_kind)        (* before [return tail] *)
  | PopUnlockTail (k : pop_kind) (t : ptr)   (* before [get_tail()] gives up [tail_mutex] *)
  | PopCompare (k : pop_kind) (t : ptr)      (* before [head.get()==t] *)
  | PopEmpty (k : pop_kind)           (* found [head==tail]: before giving up [head_mutex] *)
  | PopMove (k : pop_kind)            (* before [value=std::move( *head->data)] *)
  | PopHead (k : pop_kind) (value : option T)            (* before [pop_head()] *)
  | PopUnlockHead (k : pop_kind) (old_head : positive) (r : option T)
                                      (* before giving up [head_mutex] *)
  | PopReturn (k : pop_kind) (old_head : positive) (r : option T).
                                      (* before reading [old_head->data] and returning *)

(** The queue object shared by the threads, the threads, and the record of
    what went in and came out: [pushed] gets a value when [push] is called
    with it, [popped] gets a value when a pop function returns it. *)
Record state : Type := State {
  heap : gmap positive (node T);
  head : ptr;
  tail : ptr;
  head_mutex : option nat;
  tail_mutex : option nat;
  threads : list thread;
  pushed : list T;
  popped : list T
}.

Inductive outcome : Type :=
  | Next (σ : state)
  | Disabled      (* the thread has to wait for a mutex, or has nothing to do *)
  | Fault.        (* null or dangling pointer dereferenced *)

Definition upd (i : nat) (th : thread) (σ : state)
    (h : gmap positive (node T)) (hd tl : ptr) (hm tm : option nat) : state :=
  State h hd tl hm tm (<[i:=th]> (threads σ)) (pushed σ) (popped σ).

Definition goto (i : nat) (th : thread) (σ : state) : outcome :=
  Next (upd i th σ (heap σ) (head σ) (tail σ) (head_mutex σ) (tail_mutex σ)).

(** One step of thread [i] inside a member function. *)
Definition move (i : nat) (σ : state) : outcome :=
  match threads σ !! i with
  | None | Some Idle => Disabled
  | Some (PushAlloc v) =>
      let p := fresh (dom (heap σ)) in
      Next (upd i (PushLock v p) σ (<[p:=Node None None]> (heap σ))
                (head σ) (tail σ) (head_mutex σ) (tail_mutex σ))
  | Some (PushLock v p) =>
      match tail_mutex σ with
      | None => Next (upd i (PushData v p) σ (heap σ) (head σ) (tail σ)
                          (head_mutex σ) (Some i))
      | Some _ => Disabled
      end
  | Some (PushData v p) =>
      match tail σ with
      | Some tl =>
          match heap σ !! tl with
          | Some n =>
              Next (upd i (PushNext v p) σ (<[tl:=Node (Some v) (next n)]> (heap σ))
                        (head σ) (tail σ) (head_mutex σ) (tail_mutex σ))
          | None => Fault
          end
      | None => Fault
      end
  | Some (PushNext v p) =>
      match tail σ with
      | Some tl =>
          match heap σ !! tl with
          | Some n =>
              let h := <[tl:=Node (data n) (Some p)]> (heap σ) in
              Next (upd i (PushTail v p) σ (release (size h) (next n) h)
                        (head σ) (tail σ) (head_mutex σ) (tail_mutex σ))
          | None => Fault
          end
      | None => Fault
      end
  | Some (PushTail v p) =>
      Next (upd i PushUnlock σ (heap σ) (head σ) (Some p)
                (head_mutex σ) (tail_mutex σ))
  | Some PushUnlock =>
      Next (upd i Idle σ (heap σ) (head σ) (tail σ) (head_mutex σ) None)
  | Some (PopLockHead k) =>
      match head_mutex σ with
      | None => Next (upd i (PopLockTail k) σ (heap σ) (head σ) (tail σ)
                          (Some i) (tail_mutex σ))
      | Some _ => Disabled
      end
  | Some (PopLockTail k) =>
      match tail_mutex σ with
      | None => Next (upd i (PopReadTail k) σ (heap σ) (head σ) (tail σ)
                          (head_mutex σ) (Some i))
      | Some _ => Disabled
      end
  | Some (PopReadTail k) => goto i (PopUnlockTail k (tail σ)) σ
  | Some (PopUnlockTail k t) =>
      Next (upd i (PopCompare k t) σ (heap σ) (head σ) (tail σ) (head_mutex σ) None)
  | Some (PopCompare k t) =>
      if decide (head σ = t) then goto i (PopEmpty k) σ
      else match k with
           | IsEmpty => goto i (PopEmpty k) σ
           | TryPopRef | WaitAndPopRef => goto i (PopMove k) σ
           | TryPop | WaitAndPop => goto i (PopHead k None) σ
           end
  | Some (PopEmpty k) =>
      (* [try_pop] and [empty] return; [data_cond.wait] gives up the mutex,
         sleeps, and takes the mutex again when woken *)
      Next (upd i (if waits k then PopLockHead k else Idle) σ (heap σ) (head σ)
                (tail σ) None (tail_mutex σ))
  | Some (PopMove k) =>
      match head σ with
      | Some hd =>
          match heap σ !! hd with
          | Some n =>
              match data n with
              | Some v => goto i (PopHead k (Some v)) σ
              | None => Fault
              end
          | None => Fault
          end
      | None => Fault
      end
  | Some (PopHead k value) =>
      match head σ with
      | Some hd =>
          match heap σ !! hd with
          | Some n =>
              Next (upd i (PopUnlockHead k hd (if by_ref k then value else data n)) σ
                        (<[hd:=Node (data n) None]> (heap σ))
                        (next n) (tail σ) (head_mutex σ) (tail_mutex σ))
          | None => Fault
          end
      | None => Fault
      end
  | Some (PopUnlockHead k a r) =>
      Next (upd i (PopReturn k a r) σ (heap σ) (head σ) (tail σ) None (tail_mutex σ))
  | Some (PopReturn k a r) =>
      match heap σ !! a with
      | Some n =>
          let res := if by_ref k then r else data n in
          Next (State (release (size (heap σ)) (Some a) (heap σ)) (head σ) (tail σ)
                      (head_mutex σ) (tail_mutex σ) (<[i:=Idle]> (threads σ))
                      (pushed σ) (popped σ ++ option_list res))
      | None => Fault
      end
  end.

(** Thread [i], outside the queue, calls a member function. *)
Definition call (i : nat) (o : op) (σ : state) : outcome :=
  match threads σ !! i with
  | Some Idle =>
      match o with
      | Push v =>
          Next (State (heap σ) (head σ) (tail σ) (head_mutex σ) (tail_mutex σ)
                      (<[i:=PushAlloc v]> (threads σ)) (pushed σ ++ [v]) (popped σ))
      | Pop k => goto i (PopLockHead k) σ
      end
  | _ => Disabled
  end.

Inductive action : Type :=
  | Call (i : nat) (o : op)
  | Move (i : nat).

Definition step (a : action) (σ : state) : outcome :=
  match a with
  | Call i o => call i o σ
  | Move i => move i σ
  end.

(** A schedule runs as far as its steps are enabled. *)
Fixpoint run (s : list action) (σ : state) : outcome :=
  match s with
  | [] => Next σ
  | a :: s' =>
      match step a σ with
      | Next σ' => run s' σ'
      | Disabled => Disabled
      | Fault => Fault
      end
  end.

(** A new queue and [n] threads that have not called anything yet. *)
Definition init (n : nat) : state :=
  let q := @new_queue T in
  State (Queue.heap q) (Queue.head q) (Queue.tail q) None None
        (replicate n Idle) [] [].

(** The values a thread has taken charge of: handed to [push] and not yet
    linked into the queue, or taken out by [pop_head()] and not yet returned. *)
Definition owned (th : thread) : list T :=
  match th with
  | PushAlloc v | PushLock v _ | PushData v _ | PushNext v _ | PushTail v _ => [v]
  | PopUnlockHead _ _ r | PopReturn _ _ r => option_list r
  | _ => []
  end.

End Interleaving.
Arguments op : clear implicits.
Arguments thread : clear implicits.
Arguments state : clear implicits.
Arguments outcome : clear implicits.
Arguments action : clear implicits.

(** ** What holds in every state the threads can bring about *)

Section Invariant.
Context {T : Type}.

Implicit Types (σ : state T) (th : thread T) (h : gmap positive (node T))
  (cells : list (positive * T)).

(** The steps at which a thread holds each mutex. *)
Definition holds_head th : bool :=
  match th with
  | PopLockTail _ | PopReadTail _ | PopUnlockTail _ _ | PopCompare _ _
  | PopEmpty _ | PopMove _ | PopHead _ _ | PopUnlockHead _ _ _ => true
  | _ => false
  end.

Definition holds_tail th : bool :=
  match th with
  | PushData _ _ | PushNext _ _ | PushTail _ _ | PushUnlock
  | PopReadTail _ | PopUnlockTail _ _ => true
  | _ => false
  end.

(** The node only this thread knows of: allocated and not yet linked, or
    unlinked and not yet freed. *)
Definition private th : option positive :=
  match th with
  | PushLock _ p | PushData _ p | PushNext _ p | PushTail _ p => Some p
  | PopUnlockHead _ a _ | PopReturn _ a _ => Some a
  | _ => None
  end.

(** What thread [i] can rely on, standing at [th], in a queue whose chain
    holds [cells] and ends in the sentinel [tl]. *)
Definition thread_ok h cells (tl : positive) (hm tm : option nat) (i : nat) th : Prop :=
  (holds_head th = true ↔ hm = Some i) ∧
  (holds_tail th = true ↔ tm = Some i) ∧
  (∀ x, private th = Some x → x ∉ cells.*1 ++ [tl]) ∧
  match th with
  | Idle | PushAlloc _ | PopLockHead _ | PopLockTail _ | PopEmpty _ => True
  | PushLock v p => h !! p = Some (Node None None)
  | PushData v p =>
      h !! p = Some (Node None None) ∧ h !! tl = Some (Node None None)
  | PushNext v p =>
      h !! p = Some (Node None None) ∧ h !! tl = Some (Node (Some v) None)
  | PushTail v p =>
      h !! p = Some (Node None None) ∧ h !! tl = Some (Node (Some v) (Some p))
  | PushUnlock | PopReadTail _ => h !! tl = Some (Node None None)
  | PopUnlockTail k t =>
      h !! tl = Some (Node None None) ∧ ∃ t', t = Some t' ∧ t' ∈ cells.*1 ++ [tl]
  | PopCompare k t => ∃ t', t = Some t' ∧ t' ∈ cells.*1 ++ [tl]
  | PopMove k => cells ≠ []
  | PopHead k value =>
      ∃ c rest, cells = c :: rest ∧ (by_ref k = true → value = Some c.2)
  | PopUnlockHead k a r | PopReturn k a r =>
      ∃ v, r = Some v ∧ h !! a = Some (Node (Some v) None)
  end.

(** No two threads have the same private node. *)
Definition distinct (ths : list (thread T)) : Prop :=
  ∀ i j th th' x,
    ths !! i = Some th → ths !! j = Some th' →
    private th = Some x → private th' = Some x → i = j.

(** [inv σ cells]: the chain from [head] holds [cells] and ends in [tail];
    the sentinel is blank unless a [push] is at work on it; every thread can
    rely on what [thread_ok] says; every value handed to [push] is in
    exactly one place: returned by a pop, in the chain, or in the charge of
    one thread; and the free store holds the chain and the private nodes of
    the threads, nothing else. *)
Definition inv σ cells : Prop :=
  ∃ hd tl,
    head σ = Some hd ∧ tail σ = Some tl ∧
    chain (heap σ) hd cells tl ∧
    NoDup (cells.*1 ++ [tl]) ∧
    is_Some (heap σ !! tl) ∧
    (tail_mutex σ = None → heap σ !! tl = Some (Node None None)) ∧
    (∀ i th, threads σ !! i = Some th →
       thread_ok (heap σ) cells tl (head_mutex σ) (tail_mutex σ) i th) ∧
    distinct (threads σ) ∧
    pushed σ ≡ₚ popped σ ++ cells.*2 ++ mjoin (owned <$> threads σ) ∧
    (∀ x, is_Some (heap σ !! x) ↔
          x ∈ cells.*1 ++ [tl] ∨ ∃ j th, threads σ !! j = Some th ∧ private th = Some x) ∧
    (∀ k, head_mutex σ = Some k ∨ tail_mutex σ = Some k → is_Some (threads σ !! k)).

(** What a step of thread [i] has to show about the free store. *)
Definition dom_step σ cells i th h' cells' (tl' : positive) th' : Prop :=
  ∀ tl others,
    tail σ = Some tl →
    (∀ x, others x ↔ ∃ j th_j, i ≠ j ∧ threads σ !! j = Some th_j ∧ private th_j = Some x) →
    (∀ x, is_Some (heap σ !! x) ↔ x ∈ cells.*1 ++ [tl] ∨ private th = Some x ∨ others x) →
    ∀ x, is_Some (h' !! x) ↔ x ∈ cells'.*1 ++ [tl'] ∨ private th' = Some x ∨ others x.

Ltac unpack Hinv :=
  pose proof Hinv as
    (hd & tl & Hh & Ht & Hch & Hnd & Htl & Htf & Hok & Hdis & Hacc & Hdom & Hown).

(** A step keeps the invariant, or waits; it never faults. *)
Definition preserved (o : outcome T) : Prop :=
  match o with
  | Next σ' => ∃ cells', inv σ' cells'
  | Disabled => True
  | Fault => False
  end.

(** All threads are outside the queue. *)
Definition quiescent σ : Prop := ∀ i th, threads σ !! i = Some th → th = Idle.

(** The thread that takes a step. *)
Definition actor (a : action T) : nat :=
  match a with Call i _ | Move i => i end.

(** The steps at which a thread asks for a mutex. *)
Definition wants_head th : bool :=
  match th with PopLockHead _ => true | _ => false end.

Definition wants_tail th : bool :=
  match th with PushLock _ _ | PopLockTail _ => true | _ => false end.

(** Inside [push]. *)
Definition in_push th : bool :=
  match th with
  | PushAlloc _ | PushLock _ _ | PushData _ _ | PushNext _ _ | PushTail _ _
  | PushUnlock => true
  | _ => false
  end.

(** Inside a pop function or [empty()], and which. *)
Definition in_pop th : option pop_kind :=
  match th with
  | PopLockHead k | PopLockTail k | PopReadTail k | PopUnlockTail k _
  | PopCompare k _ | PopEmpty k | PopMove k | PopHead k _
  | PopUnlockHead k _ _ | PopReturn k _ _ => Some k
  | _ => None
  end.

(** A step takes a thread from [th], inside a member function, to [th']:
    it stays inside that function, or returns; and it returns from the last statement
    of [push], from [try_pop] or [empty()] on finding [head==tail], or from
    a pop function with the node it took. *)
Definition follows th th' : Prop :=
  (in_push th = true → th' = Idle ∨ in_push th' = true) ∧
  (∀ k, in_pop th = Some k → th' = Idle ∨ in_pop th' = Some k) ∧
  (th' = Idle →
     th = PushUnlock ∨ (∃ k, th = PopEmpty k ∧ waits k = false) ∨
     ∃ k x r, th = PopReturn k x r) ∧
  th ≠ Idle.

(** Thread [pr] is outside or inside [push], thread [co] is outside or
    inside a pop function or [empty()], and every other thread is outside. *)
Definition roles (pr co : nat) (ths : list (thread T)) : Prop :=
  ∀ k th, ths !! k = Some th →
    (k = pr → in_pop th = None) ∧ (k = co → in_push th = false) ∧
    (k ≠ pr → k ≠ co → th = Idle).

(** A schedule in which thread [pr] is the only one to call [push] and
    thread [co] the only one to call anything else. *)
Definition spsc (pr co : nat) (s : list (action T)) : Prop :=
  Forall (λ a, match a with
               | Call i (Push _) => i = pr
               | Call i (Pop _) => i = co
               | Move _ => True
               end) s.

(** The values in the charge of thread [i]. *)
Definition owned_by (i : nat) σ : list T :=
  from_option owned [] (threads σ !! i).

(** A schedule in which no thread calls [push]. *)
Definition no_push (s : list (action T)) : Prop :=
  Forall (λ a, match a with Call _ (Push _) => False | _ => True end) s.

(** Thread [i] calls a member function and takes [m] steps, no other
    thread taking any. *)
Definition alone (i : nat) (o : op T) (m : nat) : list (action T) :=
  Call i o :: replicate m (Move i).

(** The shared object as one thread sees it. *)
Definition shared_queue σ : queue T := Queue (heap σ) (head σ) (tail σ).

(** The call as made by a single thread; [value] is the object handed to
    [try_pop(T&)]. *)
Definition request_of (o : op T) (value : T) : request T :=
  match o with
  | Push v => DoPush v
  | Pop TryPop => DoTryPop
  | Pop TryPopRef => DoTryPopRef value
  | Pop WaitAndPop => DoWaitAndPop
  | Pop WaitAndPopRef => DoWaitAndPopRef
  | Pop IsEmpty => DoEmpty
  end.

(** The value a call hands to the queue, and the value an answer hands
    back. *)
Definition put (o : op T) : list T :=
  match o with Push v => [v] | Pop _ => [] end.

Definition got (r : reply T) : list T :=
  match r with
  | TryPopped (Some v) | TryPoppedRef true v | WaitPopped (Some v)
  | WaitPoppedRef v => [v]
  | _ => []
  end.









(** ** What a step of one thread leaves to the others *)

Lemma thread_ok_private h cells tl hm tm i th x :
  thread_ok h cells tl hm tm i th → private th = Some x → is_Some (h !! x).
Proof.
  intros (_ & _ & _ & Hth) Hx.
  destruct th; simplify_eq/=; try naive_solver.
Qed.

(** A step of thread [i] leaves thread [j] with all it relied on, when it
    changes the mutexes for [i] only, leaves the private node of [j] alone,
    leaves the sentinel alone if [j] holds [tail_mutex], and only appends to
    the chain if [j] holds [head_mutex]. *)
Lemma thread_ok_transfer h cells tl hm tm h' cells' tl' hm' tm' i j th :
  i ≠ j →
  thread_ok h cells tl hm tm j th →
  (hm' = hm ∨ (hm = None ∧ hm' = Some i) ∨ (hm = Some i ∧ hm' = None)) →
  (tm' = tm ∨ (tm = None ∧ tm' = Some i) ∨ (tm = Some i ∧ tm' = None)) →
  (∀ x, private th = Some x → x ∉ cells.*1 ++ [tl] → is_Some (h !! x) →
        h' !! x = h !! x ∧ x ∉ cells'.*1 ++ [tl']) →
  (tm = Some j → tl' = tl ∧ h' !! tl = h !! tl) →
  (hm = Some j → ∃ more, cells' = cells ++ more ∧
                          ∀ x, x ∈ cells.*1 ++ [tl] → x ∈ cells'.*1 ++ [tl']) →
  thread_ok h' cells' tl' hm' tm' j th.
Proof.
  intros Hij Hok Hhm Htm Hpriv Htail Hhead.
  pose proof (λ x, thread_ok_private _ _ _ _ _ _ _ x Hok) as Halloc.
  destruct Hok as (Hh & Ht & Hp & Hth).
  assert (Hh' : holds_head th = true ↔ hm' = Some j).
  { rewrite Hh. destruct Hhm as [->|[[-> ->]|[-> ->]]]; [done|..];
      split; intros [=]; congruence. }
  assert (Ht' : holds_tail th = true ↔ tm' = Some j).
  { rewrite Ht. destruct Htm as [->|[[-> ->]|[-> ->]]]; [done|..];
      split; intros [=]; congruence. }
  assert (Hp' : ∀ x, private th = Some x → x ∉ cells'.*1 ++ [tl']).
  { intros x Hx. by apply Hpriv; [|apply Hp|apply Halloc]. }
  assert (Hpx : ∀ x, private th = Some x → h' !! x = h !! x).
  { intros x Hx. by apply Hpriv; [|apply Hp|apply Halloc]. }
  split_and!; [done..|].
  destruct th as [|v|v p|v p|v p|v p| |k|k|k|k t|k t|k|k|k value|k a r|k a r];
    simpl in *; try done.
  - by rewrite Hpx.
  - destruct (Htail (proj1 Ht eq_refl)) as [-> Htl]. by rewrite Hpx, Htl.
  - destruct (Htail (proj1 Ht eq_refl)) as [-> Htl]. by rewrite Hpx, Htl.
  - destruct (Htail (proj1 Ht eq_refl)) as [-> Htl]. by rewrite Hpx, Htl.
  - destruct (Htail (proj1 Ht eq_refl)) as [-> Htl]. by rewrite Htl.
  - destruct (Htail (proj1 Ht eq_refl)) as [-> Htl]. by rewrite Htl.
  - destruct (Htail (proj1 Ht eq_refl)) as [-> Htl]. rewrite Htl.
    destruct Hth as [Hn (t' & -> & Hin)]. split; [done|]. exists t'. split; [done|].
    destruct (Hhead (proj1 Hh eq_refl)) as (more & _ & Hsub). by apply Hsub.
  - destruct Hth as (t' & -> & Hin). exists t'. split; [done|].
    destruct (Hhead (proj1 Hh eq_refl)) as (more & _ & Hsub). by apply Hsub.
  - destruct (Hhead (proj1 Hh eq_refl)) as (more & -> & _). by destruct cells.
  - destruct (Hhead (proj1 Hh eq_refl)) as (more & -> & _).
    destruct Hth as (c & rest & -> & Hv). by exists c, (rest ++ more).
  - by rewrite Hpx.
  - by rewrite Hpx.
Qed.

(** ** Putting the invariant together again *)

Lemma owned_split (ths : list (thread T)) i th :
  ths !! i = Some th →
  ∃ R, mjoin (owned <$> ths) ≡ₚ owned th ++ R ∧
       ∀ th', mjoin (owned <$> <[i:=th']> ths) ≡ₚ owned th' ++ R.
Proof.
  revert i. induction ths as [|th0 ths IH]; intros [|i] Hi; simplify_eq/=.
  - exists (mjoin (owned <$> ths)). split; [done|]. by intros th'.
  - destruct (IH _ Hi) as (R & HR & HR'). exists (owned th0 ++ R). split.
    + rewrite HR. by rewrite !app_assoc, (Permutation_app_comm (owned th0)).
    + intros th'. rewrite (HR' th').
      by rewrite !app_assoc, (Permutation_app_comm (owned th0)).
Qed.

Lemma dom_keep σ cells i th tl th' :
  tail σ = Some tl → private th' = private th →
  dom_step σ cells i th (heap σ) cells tl th'.
Proof. intros Ht Hp tl0 others Ht0 _ Hdom x. rewrite Hp. naive_solver. Qed.

(** The invariant put together again after a step of thread [i]. *)
Lemma inv_rebuild σ cells i th th' h' hd' tl' cells' hm' tm' pushed' popped' :
  inv σ cells → threads σ !! i = Some th →
  chain h' hd' cells' tl' → NoDup (cells'.*1 ++ [tl']) →
  is_Some (h' !! tl') →
  (tm' = None → h' !! tl' = Some (Node None None)) →
  thread_ok h' cells' tl' hm' tm' i th' →
  (∀ j th_j, i ≠ j → threads σ !! j = Some th_j →
     thread_ok h' cells' tl' hm' tm' j th_j) →
  (∀ x, private th' = Some x →
     private th = Some x ∨
     ∀ j th_j, i ≠ j → threads σ !! j = Some th_j → private th_j ≠ Some x) →
  (∀ R, pushed σ ≡ₚ popped σ ++ cells.*2 ++ owned th ++ R →
        pushed' ≡ₚ popped' ++ cells'.*2 ++ owned th' ++ R) →
  dom_step σ cells i th h' cells' tl' th' →
  (hm' = head_mutex σ ∨ hm' = Some i ∨ hm' = None) ∧
  (tm' = tail_mutex σ ∨ tm' = Some i ∨ tm' = None) →
  inv (State h' (Some hd') (Some tl') hm' tm' (<[i:=th']> (threads σ)) pushed' popped')
      cells'.
Proof.
  intros (hd & tl & Hh & Ht & Hch & Hnd & Htl & Htf & Hok & Hdis & Hacc & Hdom & Hown)
    Hi Hch' Hnd' Htl' Htf' Hoki Hokj Hpriv Hacc' Hdom' [Hhm' Htm'].
  assert (Hlook : ∀ j, <[i:=th']> (threads σ) !! j
                       = if decide (i = j) then Some th' else threads σ !! j).
  { intros j. case_decide as Hij.
    - subst j. apply list_lookup_insert_eq. by eapply lookup_lt_Some.
    - by apply list_lookup_insert_ne. }
  exists hd', tl'. simpl. split_and!; try done.
  - intros j th_j. rewrite Hlook. case_decide as Hij.
    + by intros [= <-]; subst j.
    + by apply Hokj.
  - intros j1 j2 th1 th2 x. rewrite !Hlook.
    destruct (decide (i = j1)) as [<-|H1], (decide (i = j2)) as [<-|H2]; [done|..].
    + intros [= <-] H2' Hx1 Hx2. destruct (Hpriv _ Hx1) as [Hold|Hnew].
      * by apply (Hdis _ _ _ _ _ Hi H2' Hold Hx2).
      * by destruct (Hnew _ _ H2 H2').
    + intros H1' [= <-] Hx1 Hx2. destruct (Hpriv _ Hx2) as [Hold|Hnew].
      * by apply (Hdis _ _ _ _ _ H1' Hi Hx1 Hold).
      * by destruct (Hnew _ _ H1 H1').
    + apply Hdis.
  - destruct (owned_split _ _ _ Hi) as (R & HR & HR'). rewrite (HR' th').
    apply Hacc'. by rewrite <-HR.
  - intros x.
    rewrite (Hdom' tl (λ x, ∃ j th_j, i ≠ j ∧ threads σ !! j = Some th_j
                                   ∧ private th_j = Some x) Ht); [| done |].
    + split.
      * intros [?|[?|(j & th_j & Hij & Hj & Hx)]]; [by left|right..].
        -- exists i, th'. by rewrite Hlook, decide_True.
        -- exists j, th_j. by rewrite Hlook, decide_False.
      * intros [?|(j & th_j & Hj & Hx)]; [by left|right].
        rewrite Hlook in Hj. case_decide as Hij.
        -- left. congruence.
        -- right. by exists j, th_j.
    + intros y. rewrite Hdom. split.
      * intros [?|(j & th_j & Hj & Hx)]; [by left|right].
        destruct (decide (i = j)) as [<-|Hij].
        -- left. congruence.
        -- right. by exists j, th_j.
      * intros [?|[?|(j & th_j & Hij & Hj & Hx)]]; [by left|right..].
        -- by exists i, th.
        -- by exists j, th_j.
  - intros k Hk. apply lookup_lt_is_Some. rewrite length_insert.
    assert (Hlt : i < length (threads σ)) by by eapply lookup_lt_Some.
    apply lookup_lt_is_Some.
    destruct Hk as [Hk|Hk].
    + destruct Hhm' as [->|[->| ->]]; [apply Hown; by left| |done].
      injection Hk as <-. by apply lookup_lt_is_Some.
    + destruct Htm' as [->|[->| ->]]; [apply Hown; by right| |done].
      injection Hk as <-. by apply lookup_lt_is_Some.
Qed.

Lemma chain_allocated h a cells t x :
  chain h a cells t → x ∈ cells.*1 → is_Some (h !! x).
Proof.
  revert a. induction cells as [|[c v] rest IH]; intros a; simpl.
  - by intros _ ?%elem_of_nil.
  - intros [-> (a' & Ha & Hrest)] [->|Hin]%elem_of_cons; eauto.
Qed.

(** A step that changes nothing but the place of thread [i] and, for
    thread [i], the mutexes. *)
Lemma transfer_mutex h cells tl hm tm hm' tm' i j th :
  i ≠ j → thread_ok h cells tl hm tm j th →
  (hm' = hm ∨ (hm = None ∧ hm' = Some i) ∨ (hm = Some i ∧ hm' = None)) →
  (tm' = tm ∨ (tm = None ∧ tm' = Some i) ∨ (tm = Some i ∧ tm' = None)) →
  thread_ok h cells tl hm' tm' j th.
Proof.
  intros Hij Hok Hhm Htm. eapply thread_ok_transfer; eauto.
  intros _. exists []. by rewrite app_nil_r.
Qed.

(** A step that writes to the free store, away from the private node of
    thread [j] and, if [j] holds [tail_mutex], away from the sentinel. *)
Lemma transfer_heap h h' cells tl hm tm i j th :
  i ≠ j → thread_ok h cells tl hm tm j th →
  (∀ x, private th = Some x → x ∉ cells.*1 ++ [tl] → is_Some (h !! x) →
        h' !! x = h !! x) →
  (tm = Some j → h' !! tl = h !! tl) →
  thread_ok h' cells tl hm tm j th.
Proof.
  intros Hij Hok Hpriv Htl. eapply thread_ok_transfer; eauto.
  intros _. exists []. by rewrite app_nil_r.
Qed.

Lemma inv_start_call σ cells i o :
  inv σ cells →
  match call i o σ with
  | Next σ' => inv σ' cells
  | Disabled => True
  | Fault => False
  end.
Proof.
  intros Hinv. unpack Hinv. unfold call.
  destruct (threads σ !! i) as [[]|] eqn:Hi; try done.
  pose proof (Hok _ _ Hi) as (Hhi & Hti & _).
  destruct o as [v|k]; unfold goto, upd; rewrite Hh, Ht.
  - eapply inv_rebuild;
      [exact Hinv|exact Hi|done|done|done|done|by split_and!| |by intros ? [=]|
       |by apply dom_keep|by split; eauto].
    + intros j th_j Hij Hj. by apply Hok.
    + intros R HR. simpl in *. rewrite HR.
      rewrite <-!app_assoc. do 2 f_equiv. by rewrite Permutation_app_comm.
  - eapply inv_rebuild;
      [exact Hinv|exact Hi|done|done|done|done|by split_and!| |by intros ? [=]|done
       |by apply dom_keep|by split; eauto].
    intros j th_j Hij Hj. by apply Hok.
Qed.

Lemma move_push_alloc σ cells i v :
  inv σ cells → threads σ !! i = Some (PushAlloc v) → preserved (move i σ).
Proof.
  intros Hinv Hi. unpack Hinv. unfold move. rewrite Hi.
  set (p := fresh (dom (heap σ))).
  assert (Hp : heap σ !! p = None) by (apply not_elem_of_dom, is_fresh).
  assert (Hpc : p ∉ cells.*1 ++ [tl]).
  { intros [Hin| ->%list_elem_of_singleton]%elem_of_app.
    - apply (chain_allocated _ _ _ _ _ Hch) in Hin as [? Hin]. congruence.
    - destruct Htl. congruence. }
  assert (Hptl : p ≠ tl) by set_solver.
  pose proof (Hok _ _ Hi) as (Hhi & Hti & _).
  exists cells. unfold upd. rewrite Hh, Ht.
  eapply inv_rebuild; [exact Hinv|exact Hi|..].
  - apply chain_insert_ne; [set_solver|done].
  - done.
  - by rewrite lookup_insert_ne.
  - intros Htm. rewrite lookup_insert_ne by done. by apply Htf.
  - split_and!; [done|done| |apply lookup_insert_eq]. by intros x [= <-].
  - intros j th_j Hij Hj. eapply transfer_heap; [done|by apply Hok| |].
    + intros x _ _ [n Hx]. rewrite lookup_insert_ne; [done|congruence].
    + intros _. by rewrite lookup_insert_ne.
  - intros x [= <-]. right. intros j th_j Hij Hj Hpriv.
    destruct (thread_ok_private _ _ _ _ _ _ _ _ (Hok _ _ Hj) Hpriv). congruence.
  - done.
  - intros tl0 others Ht0 _ Hd x. assert (tl0 = tl) as -> by congruence. simpl in *.
    rewrite lookup_insert_is_Some. specialize (Hd x). split.
    + intros [<-|[_ Hx]]; [right; by left|].
      apply Hd in Hx as [?|[[=]|?]]; [by left|by right; right].
    + intros [Hx|[[= <-]|Hx]]; [|by left|].
      * right. assert (Hs : is_Some (heap σ !! x)) by (apply Hd; by left).
        split; [|done]. intros <-. destruct Hs. congruence.
      * right. assert (Hs : is_Some (heap σ !! x)) by (apply Hd; by right; right).
        split; [|done]. intros <-. destruct Hs. congruence.
  - split; eauto.
Qed.

Lemma move_push_lock σ cells i v p :
  inv σ cells → threads σ !! i = Some (PushLock v p) → preserved (move i σ).
Proof.
  intros Hinv Hi. unpack Hinv. unfold move. rewrite Hi.
  destruct (tail_mutex σ) as [k|] eqn:Htm; [done|]. simpl. exists cells.
  pose proof (Hok _ _ Hi) as (Hhi & Hti & Hpi & Hthi). simpl in *.
  unfold upd. rewrite Hh, Ht.
  eapply inv_rebuild; [exact Hinv|exact Hi|done|done|done|done| | |by left|done|by apply dom_keep|by split; eauto].
  - split_and!; [done|by split|done|done|by apply Htf].
  - intros j th_j Hij Hj.
    eapply transfer_mutex; [done|by apply Hok|by left|]. right. by left.
Qed.

Lemma move_push_data σ cells i v p :
  inv σ cells → threads σ !! i = Some (PushData v p) → preserved (move i σ).
Proof.
  intros Hinv Hi. unpack Hinv. unfold move. rewrite Hi, Ht.
  pose proof (Hok _ _ Hi) as (Hhi & Hti & Hpi & Hp & Hn). simpl in *.
  rewrite Hn. simpl. exists cells. unfold upd. rewrite Hh.
  assert (Htm : tail_mutex σ = Some i) by by apply Hti.
  assert (Hptl : p ≠ tl) by (specialize (Hpi p eq_refl); set_solver).
  assert (Htlc : tl ∉ cells.*1).
  { apply NoDup_app in Hnd as (_ & Hnd & _). intros Hin. apply (Hnd _ Hin). by left. }
  eapply inv_rebuild; [exact Hinv|exact Hi|..].
  - by apply chain_insert_ne.
  - done.
  - by rewrite lookup_insert_eq.
  - congruence.
  - split_and!; [done|done|done|by rewrite lookup_insert_ne|by rewrite lookup_insert_eq].
  - intros j th_j Hij Hj. eapply transfer_heap; [done|by apply Hok| |].
    + intros x _ Hx _. rewrite lookup_insert_ne; [done|]. set_solver.
    + congruence.
  - by left.
  - done.
  - intros tl0 others Ht0 _ Hd x. assert (tl0 = tl) as -> by congruence. simpl in *.
    rewrite lookup_insert_is_Some, <-(Hd x).
    destruct (decide (tl = x)) as [<-|Hx]; [|naive_solver].
    split; [by rewrite Hn|by left].
  - split; eauto.
Qed.

Lemma move_push_next σ cells i v p :
  inv σ cells → threads σ !! i = Some (PushNext v p) → preserved (move i σ).
Proof.
  intros Hinv Hi. unpack Hinv. unfold move. rewrite Hi, Ht.
  pose proof (Hok _ _ Hi) as (Hhi & Hti & Hpi & Hp & Hn). simpl in *.
  rewrite Hn. simpl. rewrite release_null. exists cells. unfold upd. rewrite Hh.
  assert (Htm : tail_mutex σ = Some i) by by apply Hti.
  assert (Hptl : p ≠ tl) by (specialize (Hpi p eq_refl); set_solver).
  assert (Htlc : tl ∉ cells.*1).
  { apply NoDup_app in Hnd as (_ & Hnd & _). intros Hin. apply (Hnd _ Hin). by left. }
  eapply inv_rebuild; [exact Hinv|exact Hi|..].
  - by apply chain_insert_ne.
  - done.
  - by rewrite lookup_insert_eq.
  - congruence.
  - split_and!; [done|done|done|by rewrite lookup_insert_ne|by rewrite lookup_insert_eq].
  - intros j th_j Hij Hj. eapply transfer_heap; [done|by apply Hok| |].
    + intros x _ Hx _. rewrite lookup_insert_ne; [done|]. set_solver.
    + congruence.
  - by left.
  - done.
  - intros tl0 others Ht0 _ Hd x. assert (tl0 = tl) as -> by congruence. simpl in *.
    rewrite lookup_insert_is_Some, <-(Hd x).
    destruct (decide (tl = x)) as [<-|Hx]; [|naive_solver].
    split; [by rewrite Hn|by left].
  - split; eauto.
Qed.

Lemma move_push_tail σ cells i v p :
  inv σ cells → threads σ !! i = Some (PushTail v p) → preserved (move i σ).
Proof.
  intros Hinv Hi. unpack Hinv. unfold move. rewrite Hi. simpl.
  pose proof (Hok _ _ Hi) as (Hhi & Hti & Hpi & Hp & Hn). simpl in *.
  exists (cells ++ [(tl, v)]). unfold upd. rewrite Hh.
  assert (Htm : tail_mutex σ = Some i) by by apply Hti.
  specialize (Hpi p eq_refl).
  eapply inv_rebuild; [exact Hinv|exact Hi|..].
  - by apply chain_snoc.
  - rewrite fmap_app. simpl. apply NoDup_app. split_and!; [done| |apply NoDup_singleton].
    by intros x Hx ->%list_elem_of_singleton.
  - by rewrite Hp.
  - congruence.
  - by split_and!.
  - intros j th_j Hij Hj.
    eapply thread_ok_transfer; [done|by apply Hok|by left|by left| | |].
    + intros x Hx Hxc _. split; [done|]. rewrite fmap_app. simpl.
      intros [Hin| ->%list_elem_of_singleton]%elem_of_app; [done|].
      by apply Hij, (Hdis _ _ _ _ _ Hi Hj eq_refl Hx).
    + congruence.
    + intros _. exists [(tl, v)]. split; [done|]. intros x Hx.
      rewrite fmap_app. simpl. apply elem_of_app. by left.
  - by intros x [=].
  - intros R HR. simpl in *. rewrite HR, fmap_app. simpl.
    by rewrite <-!app_assoc.
  - intros tl0 others Ht0 _ Hd x. assert (tl0 = tl) as -> by congruence.
    rewrite (Hd x), fmap_app. simpl.
    rewrite !elem_of_app, !list_elem_of_singleton. naive_solver.
  - split; eauto.
Qed.

Lemma move_push_unlock σ cells i :
  inv σ cells → threads σ !! i = Some PushUnlock → preserved (move i σ).
Proof.
  intros Hinv Hi. unpack Hinv. unfold move. rewrite Hi. simpl.
  pose proof (Hok _ _ Hi) as (Hhi & Hti & Hpi & Hn). simpl in *.
  exists cells. unfold upd. rewrite Hh, Ht.
  assert (Htm : tail_mutex σ = Some i) by by apply Hti.
  eapply inv_rebuild; [exact Hinv|exact Hi|done|done|done|done| | |by left|done|by apply dom_keep|by split; eauto].
  - by split_and!.
  - intros j th_j Hij Hj. eapply transfer_mutex; [done|by apply Hok|by left|].
    right. by right.
Qed.

Lemma move_pop_lock_head σ cells i k :
  inv σ cells → threads σ !! i = Some (PopLockHead k) → preserved (move i σ).
Proof.
  intros Hinv Hi. unpack Hinv. unfold move. rewrite Hi.
  destruct (head_mutex σ) as [o|] eqn:Hhm; [done|]. simpl. exists cells.
  pose proof (Hok _ _ Hi) as (Hhi & Hti & Hpi & _). simpl in *.
  unfold upd. rewrite Hh, Ht.
  eapply inv_rebuild; [exact Hinv|exact Hi|done|done|done|done| | |by left|done|by apply dom_keep|by split; eauto].
  - by split_and!.
  - intros j th_j Hij Hj.
    eapply transfer_mutex; [done|by apply Hok| |by left]. right. by left.
Qed.

Lemma move_pop_lock_tail σ cells i k :
  inv σ cells → threads σ !! i = Some (PopLockTail k) → preserved (move i σ).
Proof.
  intros Hinv Hi. unpack Hinv. unfold move. rewrite Hi.
  destruct (tail_mutex σ) as [o|] eqn:Htm; [done|]. simpl. exists cells.
  pose proof (Hok _ _ Hi) as (Hhi & Hti & Hpi & _). simpl in *.
  unfold upd. rewrite Hh, Ht.
  eapply inv_rebuild; [exact Hinv|exact Hi|done|done|done|done| | |by left|done|by apply dom_keep|by split; eauto].
  - split_and!; [done|by split|done|by apply Htf].
  - intros j th_j Hij Hj.
    eapply transfer_mutex; [done|by apply Hok|by left|]. right. by left.
Qed.

Lemma move_pop_read_tail σ cells i k :
  inv σ cells → threads σ !! i = Some (PopReadTail k) → preserved (move i σ).
Proof.
  intros Hinv Hi. unpack Hinv. unfold move. rewrite Hi. simpl. exists cells.
  pose proof (Hok _ _ Hi) as (Hhi & Hti & Hpi & Hn). simpl in *.
  unfold upd. rewrite Hh, Ht.
  eapply inv_rebuild; [exact Hinv|exact Hi|done|done|done|done| | |by left|done|by apply dom_keep|by split; eauto].
  - split_and!; [done|done|done|done|]. exists tl. split; [done|].
    apply elem_of_app. right. by left.
  - intros j th_j Hij Hj. by apply Hok.
Qed.

Lemma move_pop_unlock_tail σ cells i k t :
  inv σ cells → threads σ !! i = Some (PopUnlockTail k t) → preserved (move i σ).
Proof.
  intros Hinv Hi. unpack Hinv. unfold move. rewrite Hi. simpl. exists cells.
  pose proof (Hok _ _ Hi) as (Hhi & Hti & Hpi & Hn & Hon). simpl in *.
  unfold upd. rewrite Hh, Ht.
  assert (Htm : tail_mutex σ = Some i) by by apply Hti.
  eapply inv_rebuild; [exact Hinv|exact Hi|done|done|done|done| | |by left|done|by apply dom_keep|by split; eauto].
  - by split_and!.
  - intros j th_j Hij Hj.
    eapply transfer_mutex; [done|by apply Hok|by left|]. right. by right.
Qed.

Lemma move_pop_compare σ cells i k t :
  inv σ cells → threads σ !! i = Some (PopCompare k t) → preserved (move i σ).
Proof.
  intros Hinv Hi. unpack Hinv. unfold move. rewrite Hi.
  pose proof (Hok _ _ Hi) as (Hhi & Hti & Hpi & t' & -> & Hon). simpl in *.
  assert (Hgo : ∀ th', holds_head th' = true → holds_tail th' = false →
            private th' = None →
            thread_ok (heap σ) cells tl (head_mutex σ) (tail_mutex σ) i th' →
            preserved (goto i th' σ)).
  { intros th' H1 H2 H3 Hoki. exists cells. unfold upd. rewrite Hh, Ht.
    eapply inv_rebuild;
      [exact Hinv|exact Hi|done|done|done|done|done| |by rewrite H3|
       by destruct th'|by apply dom_keep; [|rewrite H3]|by split; eauto].
    intros j th_j Hij Hj. by apply Hok. }
  assert (Hflags : ∀ th', holds_head th' = true → holds_tail th' = false →
            private th' = None →
            (holds_head th' = true ↔ head_mutex σ = Some i) ∧
            (holds_tail th' = true ↔ tail_mutex σ = Some i) ∧
            (∀ x, private th' = Some x → x ∉ cells.*1 ++ [tl])).
  { intros th' -> -> ->. by split_and!. }
  destruct (decide (head σ = Some t')) as [Heq|Hne].
  { apply Hgo; [done..|]. by split_and!. }
  assert (Hcells : ∃ c rest, cells = c :: rest).
  { destruct cells as [|c rest]; [|by eauto]. simpl in *. subst tl.
    apply list_elem_of_singleton in Hon. congruence. }
  destruct Hcells as (c & rest & ->).
  destruct k; apply Hgo; try done.
  - destruct (Hflags (PopHead TryPop None)) as (? & ? & ?); [done..|].
    split_and!; [done..|]. by exists c, rest.
  - destruct (Hflags (PopHead WaitAndPop None)) as (? & ? & ?); [done..|].
    split_and!; [done..|]. by exists c, rest.
Qed.

Lemma move_pop_empty σ cells i k :
  inv σ cells → threads σ !! i = Some (PopEmpty k) → preserved (move i σ).
Proof.
  intros Hinv Hi. unpack Hinv. unfold move. rewrite Hi. simpl. exists cells.
  pose proof (Hok _ _ Hi) as (Hhi & Hti & Hpi & _). simpl in *.
  unfold upd. rewrite Hh, Ht.
  assert (Hhm : head_mutex σ = Some i) by by apply Hhi.
  eapply inv_rebuild;
    [exact Hinv|exact Hi|done|done|done|done| | | | | |by split; eauto].
  - by destruct (waits k); split_and!.
  - intros j th_j Hij Hj.
    eapply transfer_mutex; [done|by apply Hok| |by left]. right. by right.
  - by destruct (waits k).
  - by destruct (waits k).
  - apply dom_keep; [done|]. by destruct (waits k).
Qed.

Lemma chain_cons_inv h hd c rest tl :
  chain h hd (c :: rest) tl →
  c.1 = hd ∧ ∃ a', h !! hd = Some (Node (Some c.2) (Some a')) ∧ chain h a' rest tl.
Proof. done. Qed.

Lemma move_pop_move σ cells i k :
  inv σ cells → threads σ !! i = Some (PopMove k) → preserved (move i σ).
Proof.
  intros Hinv Hi. unpack Hinv. unfold move. rewrite Hi, Hh.
  pose proof (Hok _ _ Hi) as (Hhi & Hti & Hpi & Hne). simpl in *.
  destruct cells as [|c rest]; [done|].
  destruct (chain_cons_inv _ _ _ _ _ Hch) as (Hc & a' & Hhd & Hrest).
  rewrite Hhd. simpl. exists (c :: rest). unfold upd. rewrite Hh, Ht.
  eapply inv_rebuild; [exact Hinv|exact Hi|done|done|done|done| | |by left|done|by apply dom_keep|by split; eauto].
  - split_and!; [done..|]. by exists c, rest.
  - intros j th_j Hij Hj. by apply Hok.
Qed.

Lemma move_pop_head σ cells i k value :
  inv σ cells → threads σ !! i = Some (PopHead k value) → preserved (move i σ).
Proof.
  intros Hinv Hi. unpack Hinv. unfold move. rewrite Hi, Hh.
  pose proof (Hok _ _ Hi) as (Hhi & Hti & Hpi & c & rest & -> & Hval). simpl in *.
  destruct (chain_cons_inv _ _ _ _ _ Hch) as (Hc & a' & Hhd & Hrest).
  rewrite Hhd. simpl. exists rest. unfold upd. rewrite Ht.
  assert (Hhm : head_mutex σ = Some i) by by apply Hhi.
  apply NoDup_cons in Hnd as [Hhdc Hnd']. rewrite Hc in Hhdc.
  assert (Hhdtl : hd ≠ tl) by set_solver.
  assert (Hr : (if by_ref k then value else Some c.2) = Some c.2).
  { destruct (by_ref k); [by apply Hval|done]. }
  rewrite Hr.
  eapply inv_rebuild; [exact Hinv|exact Hi|..].
  - apply chain_insert_ne; [set_solver|done].
  - done.
  - by rewrite lookup_insert_ne.
  - intros Htm. rewrite lookup_insert_ne by done. by apply Htf.
  - split_and!; [done|done|by intros x [= <-]|].
    exists c.2. split; [done|]. apply lookup_insert_eq.
  - intros j th_j Hij Hj.
    eapply thread_ok_transfer; [done|by apply Hok|by left|by left| | |].
    + intros x Hx Hxc _. split.
      * rewrite lookup_insert_ne; [done|]. intros <-. apply Hxc. rewrite <-Hc. set_solver.
      * set_solver.
    + intros _. split; [done|]. by rewrite lookup_insert_ne.
    + congruence.
  - intros x [= <-]. right. intros j th_j Hij Hj Hx.
    destruct (Hok _ _ Hj) as (_ & _ & Hpj & _). apply (Hpj _ Hx).
    rewrite <-Hc. set_solver.
  - intros R HR. simpl in *. rewrite HR. f_equiv.
    by rewrite Permutation_middle.
  - intros tl0 others Ht0 _ Hd x. assert (tl0 = tl) as -> by congruence.
    rewrite lookup_insert_is_Some. specialize (Hd x). simpl in *.
    rewrite Hc in Hd. rewrite elem_of_cons in Hd.
    destruct (decide (hd = x)) as [<-|Hx]; [naive_solver|].
    rewrite Hd. naive_solver.
  - split; eauto.
Qed.

Lemma move_pop_unlock_head σ cells i k a r :
  inv σ cells → threads σ !! i = Some (PopUnlockHead k a r) → preserved (move i σ).
Proof.
  intros Hinv Hi. unpack Hinv. unfold move. rewrite Hi. simpl. exists cells.
  pose proof (Hok _ _ Hi) as (Hhi & Hti & Hpi & Hr). simpl in *.
  unfold upd. rewrite Hh, Ht.
  assert (Hhm : head_mutex σ = Some i) by by apply Hhi.
  eapply inv_rebuild; [exact Hinv|exact Hi|done|done|done|done| | |by left|done|by apply dom_keep|by split; eauto].
  - by split_and!.
  - intros j th_j Hij Hj.
    eapply transfer_mutex; [done|by apply Hok| |by left]. right. by right.
Qed.

Lemma move_pop_return σ cells i k a r :
  inv σ cells → threads σ !! i = Some (PopReturn k a r) → preserved (move i σ).
Proof.
  intros Hinv Hi. unpack Hinv. unfold move. rewrite Hi.
  pose proof (Hok _ _ Hi) as (Hhi & Hti & Hpi & v & -> & Ha). simpl in *.
  rewrite Ha. simpl. rewrite (release_last _ _ _ Ha). exists cells.
  rewrite Hh, Ht. specialize (Hpi a eq_refl).
  assert (Hatl : a ≠ tl) by set_solver.
  assert (Hres : (if by_ref k then Some v else Some v) = Some v) by by destruct (by_ref k).
  rewrite Hres. simpl.
  eapply inv_rebuild; [exact Hinv|exact Hi|..].
  - apply chain_delete_ne; [set_solver|done].
  - done.
  - by rewrite lookup_delete_ne.
  - intros Htm. rewrite lookup_delete_ne by done. by apply Htf.
  - by split_and!.
  - intros j th_j Hij Hj. eapply transfer_heap; [done|by apply Hok| |].
    + intros x Hx _ _. rewrite lookup_delete_ne; [done|]. intros <-.
      by apply Hij, (Hdis _ _ _ _ _ Hi Hj eq_refl Hx).
    + intros _. by rewrite lookup_delete_ne.
  - by intros x [=].
  - intros R HR. simpl in *. rewrite HR. rewrite <-!app_assoc. f_equiv.
    rewrite (Permutation_app_comm [v]). rewrite <-!app_assoc. f_equiv.
    by rewrite Permutation_app_comm.
  - intros tl0 others Ht0 Hoth Hd x. assert (tl0 = tl) as -> by congruence.
    rewrite lookup_delete_is_Some, (Hd x). simpl. split.
    + intros [Hne [?|[[=]|?]]]; [by left|done|by right; right].
    + intros [Hx|[[=]|Hx]].
      * split; [|by left]. by intros <-.
      * split; [|by right; right]. intros <-.
        apply Hoth in Hx as (j & th_j & Hij & Hj & Hx).
        by apply Hij, (Hdis _ _ _ _ _ Hi Hj eq_refl Hx).
  - split; eauto.
Qed.

(** Every step of every thread keeps the invariant or waits; none faults. *)
Lemma inv_step a σ cells : inv σ cells → preserved (step a σ).
Proof.
  intros Hinv. destruct a as [i o|i]; simpl.
  - pose proof (inv_start_call _ _ i o Hinv) as Hc.
    destruct (call i o σ); simpl; eauto.
  - destruct (threads σ !! i) as [th|] eqn:Hi;
      [|unfold move; by rewrite Hi].
    destruct th.
    + unfold move. by rewrite Hi.
    + by eapply move_push_alloc.
    + by eapply move_push_lock.
    + by eapply move_push_data.
    + by eapply move_push_next.
    + by eapply move_push_tail.
    + by eapply move_push_unlock.
    + by eapply move_pop_lock_head.
    + by eapply move_pop_lock_tail.
    + by eapply move_pop_read_tail.
    + by eapply move_pop_unlock_tail.
    + by eapply move_pop_compare.
    + by eapply move_pop_empty.
    + by eapply move_pop_move.
    + by eapply move_pop_head.
    + by eapply move_pop_unlock_head.
    + by eapply move_pop_return.
Qed.

(** ** From the first state on *)

Lemma owned_idle n : mjoin (owned <$> replicate n (@Idle T)) = [].
Proof. induction n as [|n IH]; [done|]. exact IH. Qed.

Lemma inv_init n : inv (@init T n) [].
Proof.
  unfold init, new_queue. set (a := fresh _).
  exists a, a. simpl. split_and!; try done.
  - apply NoDup_singleton.
  - intros i th [-> _]%lookup_replicate. by split_and!.
  - by intros i j th th' x [-> _]%lookup_replicate.
  - by rewrite owned_idle.
  - intros x. rewrite lookup_singleton_is_Some, list_elem_of_singleton. split.
    + intros <-. by left.
    + intros [->|(j & th & [-> _]%lookup_replicate & [=])]. done.
  - by intros k [[=]|[=]].
Qed.

Lemma inv_run s σ σ' cells :
  inv σ cells → run s σ = Next σ' → ∃ cells', inv σ' cells'.
Proof.
  revert σ cells. induction s as [|a s IH]; intros σ cells Hinv; simpl.
  - intros [= <-]. eauto.
  - pose proof (inv_step a _ _ Hinv) as Hstep.
    destruct (step a σ) as [σ1| |]; [|done..].
    destruct Hstep as [cells1 Hinv1]. by apply (IH _ _ Hinv1).
Qed.


Lemma owned_quiescent σ : quiescent σ → mjoin (owned <$> threads σ) = [].
Proof.
  unfold quiescent. induction (threads σ) as [|th ths IH]; intros Hq; [done|].
  simpl. rewrite (Hq 0 th eq_refl). simpl. apply IH.
  intros i th' Hi. by apply (Hq (S i)).
Qed.

(** When all threads are outside, the shared object is a queue as one
    thread knows it. *)
Lemma inv_quiescent σ cells :
  inv σ cells → quiescent σ →
  rep (Queue (heap σ) (head σ) (tail σ)) cells.*2 ∧
  pushed σ ≡ₚ popped σ ++ cells.*2.
Proof.
  intros (hd & tl & Hh & Ht & Hch & Hnd & Htl & Htf & Hok & Hdis & Hacc & Hdom & Hown) Hq.
  assert (Htm : tail_mutex σ = None).
  { destruct (tail_mutex σ) as [k|] eqn:Htm; [|done].
    destruct (Hown k) as [th Hk]; [by right|].
    destruct (Hok _ _ Hk) as (_ & Htk & _). rewrite (Hq _ _ Hk) in Htk.
    by pose proof (proj2 Htk eq_refl). }
  split.
  - exists hd, tl, cells. simpl. split_and!; try done; [by apply Htf|].
    apply set_eq. intros x. rewrite elem_of_dom, Hdom, elem_of_list_to_set.
    split; [|by left]. intros [?|(j & th & Hj & Hx)]; [done|].
    by rewrite (Hq _ _ Hj) in Hx.
  - by rewrite Hacc, owned_quiescent, app_nil_r.
Qed.

End Invariant.

(** ** Mutual exclusion, progress and order *)

Section Order.
Context {T : Type}.
Implicit Types (σ : state T) (th : thread T) (h : gmap positive (node T))
  (cells : list (positive * T)) (s : list (action T)) (a : action T)
  (o : op T) (value : T).

Lemma chain_functional_nodup h x t cells cells' :
  NoDup (cells.*1 ++ [t]) → NoDup (cells'.*1 ++ [t]) →
  chain h x cells t → chain h x cells' t → cells = cells'.
Proof.
  revert x cells'.
  induction cells as [|[c v] rest IH]; intros x [|[c' v'] rest']; simpl.
  - done.
  - intros _ [Hc _]%NoDup_cons -> [-> _]. set_solver.
  - intros [Hc _]%NoDup_cons _ [-> _] ->. set_solver.
  - intros [_ Hnd]%NoDup_cons [_ Hnd']%NoDup_cons
      [-> (a1 & Ha1 & Hr1)] [-> (a2 & Ha2 & Hr2)].
    rewrite Ha1 in Ha2. injection Ha2 as -> ->. f_equal. by eapply IH.
Qed.

(** A step changes the standing of the thread that takes it, of no other. *)
Lemma step_other a σ σ' j :
  step a σ = Next σ' → actor a ≠ j → threads σ' !! j = threads σ !! j.
Proof.
  destruct a as [i o|i]; simpl; intros Hstep Hij.
  - unfold call, goto, upd in Hstep.
    destruct (threads σ !! i) as [[]|]; try done.
    destruct o; injection Hstep as <-; simpl; by rewrite list_lookup_insert_ne.
  - unfold move, goto, upd in Hstep.
    destruct (threads σ !! i) as [[]|]; try done;
      repeat case_match; try done;
      injection Hstep as <-; simpl; by rewrite list_lookup_insert_ne.
Qed.

Ltac follow := unfold follows; simpl; naive_solver.
Ltac same H :=
  eexists; split_and!; [done|done|done|follow|by eapply H|done|done].

(** What a step does. A call records the value handed to [push] and takes
    the thread to the first statement. Inside a member function,
    [tail=new_tail] in [push] adds the value at the back of the chain,
    [pop_head()] takes the front node off and gives its value to the
    thread, the return of a pop function records that value, and no other
    step changes what the chain holds, what a thread has in its charge, or
    what is on record. *)
Lemma step_effect a σ σ' cells :
  inv σ cells → step a σ = Next σ' →
  ∃ cells', inv σ' cells' ∧
    match a with
    | Call i o =>
        cells' = cells ∧ threads σ !! i = Some Idle ∧ popped σ' = popped σ ∧
        match o with
        | Push v => threads σ' = <[i:=PushAlloc v]> (threads σ) ∧
                    pushed σ' = pushed σ ++ [v]
        | Pop k => threads σ' = <[i:=PopLockHead k]> (threads σ) ∧
                   pushed σ' = pushed σ
        end
    | Move i =>
        ∃ th th', threads σ !! i = Some th ∧ threads σ' = <[i:=th']> (threads σ) ∧
          pushed σ' = pushed σ ∧ follows th th' ∧
          match th with
          | PushTail v p =>
              (∃ tl, tail σ = Some tl ∧ cells' = cells ++ [(tl, v)]) ∧
              owned th' = [] ∧ popped σ' = popped σ
          | PopHead k value =>
              (∃ c, cells = c :: cells' ∧ owned th' = [c.2]) ∧ popped σ' = popped σ
          | PopReturn k x r =>
              cells' = cells ∧ owned th' = [] ∧ popped σ' = popped σ ++ owned th
          | _ => cells' = cells ∧ owned th' = owned th ∧ popped σ' = popped σ
          end
    end.
Proof.
  intros Hinv Hstep. pose proof (inv_step a _ _ Hinv) as Hp. rewrite Hstep in Hp.
  destruct Hp as [cells' Hinv']. exists cells'. split; [done|].
  destruct Hinv as (hd & tl & Hh & Ht & Hch & Hnd & Htl & Htf & Hok & Hdis & Hacc & Hdom & Hown).
  destruct Hinv' as (hd' & tl' & Hh' & Ht' & Hch' & Hnd' & _).
  assert (Hsame : ∀ h', heap σ' = h' → head σ' = head σ → tail σ' = tail σ →
                        chain h' hd cells tl → cells' = cells).
  { intros h' Eh Ehd Etl Hc. rewrite Eh in Hch'. rewrite Ehd, Hh in Hh'.
    rewrite Etl, Ht in Ht'. simplify_eq. by eapply chain_functional_nodup. }
  assert (Htlc : tl ∉ cells.*1).
  { apply NoDup_app in Hnd as (_ & Hnd & _). intros Hin. apply (Hnd _ Hin). set_solver. }
  destruct a as [i o|i]; simpl in Hstep.
  - unfold call, goto, upd in Hstep. destruct (threads σ !! i) as [[]|]; try done.
    destruct o; injection Hstep as <-; (split_and!; [by eapply Hsame|done..]).
  - unfold move, goto, upd in Hstep.
    destruct (threads σ !! i) as [th|] eqn:Hi; [|done].
    pose proof (Hok _ _ Hi) as (_ & _ & Hpriv & Hth).
    exists th.
    destruct th; simpl in Hth; try done.
    + injection Hstep as <-. eexists. split_and!; [done|done|done|follow| |done|done].
      eapply Hsame; [done..|]. simpl.
      apply chain_insert_ne; [|done]. intros Hin.
      apply (chain_allocated _ _ _ _ _ Hch) in Hin.
      by apply elem_of_dom, is_fresh in Hin.
    + destruct (tail_mutex σ); [done|]. injection Hstep as <-. same Hsame.
    + destruct Hth as [_ Htl0]. rewrite Ht, Htl0 in Hstep. injection Hstep as <-.
      eexists. split_and!; [done|done|done|follow| |done|done].
      eapply Hsame; [done..|]. by apply chain_insert_ne.
    + destruct Hth as [_ Htl0]. rewrite Ht, Htl0 in Hstep. simpl in Hstep.
      rewrite release_null in Hstep. injection Hstep as <-.
      eexists. split_and!; [done|done|done|follow| |done|done].
      eapply Hsame; [done..|]. by apply chain_insert_ne.
    + destruct Hth as [_ Htl0]. injection Hstep as <-. simpl in *.
      rewrite Hh in Hh'. simplify_eq.
      eexists. split_and!; [done|done|done|follow| |done|done].
      exists tl. split; [done|].
      eapply chain_functional_nodup; [exact Hnd'| |exact Hch'|by apply chain_snoc].
      rewrite fmap_app. simpl.
      apply NoDup_app. split_and!; [done| |apply NoDup_singleton].
      intros x Hx Hx2%list_elem_of_singleton. subst x. by apply (Hpriv tl').
    + injection Hstep as <-. same Hsame.
    + destruct (head_mutex σ); [done|]. injection Hstep as <-. same Hsame.
    + destruct (tail_mutex σ); [done|]. injection Hstep as <-. same Hsame.
    + injection Hstep as <-. same Hsame.
    + injection Hstep as <-. same Hsame.
    + case_decide; [|destruct k]; injection Hstep as <-; same Hsame.
    + injection Hstep as <-. destruct (waits k) eqn:Hw; same Hsame.
    + rewrite Hh in Hstep. destruct (heap σ !! hd) as [n|]; [|done].
      destruct (data n); [|done]. injection Hstep as <-. same Hsame.
    + destruct Hth as (c & rest & -> & Hval). simpl in Hch.
      destruct Hch as [Hc (x & Hx & Hrest)]. rewrite Hh, Hx in Hstep.
      injection Hstep as <-. simpl in *. simplify_eq.
      eexists. split_and!; [done|done|done|follow| |done].
      exists c. split.
      * f_equal. apply NoDup_cons in Hnd as [Hc Hnd].
        eapply chain_functional_nodup; [exact Hnd|exact Hnd'| |exact Hch'].
        apply chain_insert_ne; [set_solver|done].
      * destruct (by_ref k); [by rewrite Hval|done].
    + injection Hstep as <-. same Hsame.
    + destruct Hth as (v & -> & Hx). rewrite Hx in Hstep. injection Hstep as <-.
      eexists. split_and!; [done|done|done|follow| |done|].
      * eapply Hsame; [done..|]. rewrite (release_last _ _ _ Hx).
        apply chain_delete_ne; [|done]. intros Hin. apply (Hpriv old_head eq_refl).
        set_solver.
      * simpl. by destruct (by_ref k).
Qed.

Lemma owned_by_insert σ σ' i j th' :
  threads σ' = <[i:=th']> (threads σ) → i < length (threads σ) →
  owned_by j σ' = if decide (i = j) then owned th' else owned_by j σ.
Proof.
  intros Hths Hlt. unfold owned_by. rewrite Hths. case_decide as Hij.
  - subst j. by rewrite list_lookup_insert_eq.
  - by rewrite list_lookup_insert_ne.
Qed.

Lemma roles_insert pr co ths i th' :
  roles pr co ths →
  (i = pr → in_pop th' = None) → (i = co → in_push th' = false) →
  (i ≠ pr → i ≠ co → th' = Idle) →
  roles pr co (<[i:=th']> ths).
Proof.
  intros Hr H1 H2 H3 k th Hk. destruct (decide (i = k)) as [<-|Hik].
  - apply list_lookup_insert_Some in Hk as [(_ & <- & _)|[? _]]; done.
  - rewrite list_lookup_insert_ne in Hk by done. by apply Hr.
Qed.

(** With one producer and one consumer, the values handed to [push] are, in
    the order of the calls: those returned by pops, the one the consumer has
    just taken, those in the chain, and the one the producer is about to
    link. A step keeps it so. *)
Lemma fifo_step pr co a σ σ' cells :
  pr ≠ co → inv σ cells → roles pr co (threads σ) →
  pushed σ = popped σ ++ owned_by co σ ++ cells.*2 ++ owned_by pr σ →
  match a with
  | Call i (Push _) => i = pr
  | Call i (Pop _) => i = co
  | Move _ => True
  end →
  step a σ = Next σ' →
  ∃ cells', inv σ' cells' ∧ roles pr co (threads σ') ∧
    pushed σ' = popped σ' ++ owned_by co σ' ++ cells'.*2 ++ owned_by pr σ'.
Proof.
  intros Hne Hinv Hroles Hfifo Ha Hstep.
  destruct (step_effect _ _ _ _ Hinv Hstep) as (cells' & Hinv' & Heff).
  exists cells'. split; [done|].
  destruct a as [i [v|k]|i].
  - destruct Heff as (-> & Hi & Hpop & Hths & Hpush). subst i.
    assert (Hlt : pr < length (threads σ)) by by eapply lookup_lt_Some.
    split.
    + rewrite Hths. by apply roles_insert.
    + rewrite (owned_by_insert _ _ _ co _ Hths Hlt), (owned_by_insert _ _ _ pr _ Hths Hlt).
      rewrite decide_False, decide_True by done. rewrite Hpush, Hpop, Hfifo.
      unfold owned_by at 2. rewrite Hi. simpl. by rewrite app_nil_r, <-!app_assoc.
  - destruct Heff as (-> & Hi & Hpop & Hths & Hpush). subst i.
    assert (Hlt : co < length (threads σ)) by by eapply lookup_lt_Some.
    split.
    + rewrite Hths. apply roles_insert; [done|done|done|congruence].
    + rewrite (owned_by_insert _ _ _ co _ Hths Hlt), (owned_by_insert _ _ _ pr _ Hths Hlt).
      rewrite decide_True, decide_False by done. rewrite Hpush, Hpop, Hfifo.
      unfold owned_by at 1. by rewrite Hi.
  - destruct Heff as (th & th' & Hi & Hths & Hpush & (Hfp & Hfc & _ & Hidle) & Heff).
    assert (Hlt : i < length (threads σ)) by by eapply lookup_lt_Some.
    destruct (Hroles _ _ Hi) as (Hpr & Hco & Hother).
    rewrite (owned_by_insert _ _ _ co _ Hths Hlt), (owned_by_insert _ _ _ pr _ Hths Hlt).
    rewrite Hths, Hpush, Hfifo.
    destruct (decide (i = pr)) as [->|Hipr]; [|destruct (decide (i = co)) as [->|Hico]].
    + specialize (Hpr eq_refl). rewrite decide_False by done.
      assert (Hin : in_push th = true) by by destruct th.
      split.
      * apply roles_insert; [done| |done|done].
        intros _. by destruct (Hfp Hin) as [->|?]; [|destruct th'].
      * unfold owned_by at 2. rewrite Hi. simpl.
        destruct th; try done; simpl in *.
        all: try (destruct Heff as (-> & -> & ->); done).
        destruct Heff as ((tl & _ & ->) & -> & ->).
        by rewrite fmap_app, app_nil_r.
    + specialize (Hco eq_refl). simpl.
      assert (Hin : ∃ k, in_pop th = Some k) by (destruct th; by eauto).
      destruct Hin as [k Hin].
      split.
      * apply roles_insert; [done|done| |done].
        intros _. by destruct (Hfc _ Hin) as [->|?]; [|destruct th'].
      * unfold owned_by at 1. rewrite Hi. simpl.
        destruct th; try done; simpl in *.
        all: try (destruct Heff as (-> & -> & ->); done).
        -- destruct Heff as ((c & -> & ->) & ->). done.
        -- destruct Heff as (-> & -> & ->). by rewrite <-!app_assoc.
    + by destruct (Hidle (Hother Hipr Hico)).
Qed.

Lemma fifo_run pr co s σ σ' cells :
  pr ≠ co → spsc pr co s → inv σ cells → roles pr co (threads σ) →
  pushed σ = popped σ ++ owned_by co σ ++ cells.*2 ++ owned_by pr σ →
  run s σ = Next σ' →
  ∃ cells', inv σ' cells' ∧ roles pr co (threads σ') ∧
    pushed σ' = popped σ' ++ owned_by co σ' ++ cells'.*2 ++ owned_by pr σ'.
Proof.
  intros Hne Hs. revert σ cells.
  induction Hs as [|a s Ha Hs IH]; intros σ cells Hinv Hroles Hfifo; simpl.
  - intros [= <-]. eauto.
  - destruct (step a σ) as [σ1| |] eqn:Hstep; [|done..].
    destruct (fifo_step _ _ _ _ _ _ Hne Hinv Hroles Hfifo Ha Hstep)
      as (cells1 & Hinv1 & Hroles1 & Hfifo1).
    by apply (IH _ _ Hinv1 Hroles1 Hfifo1).
Qed.

Lemma run_app s1 s2 σ :
  run (s1 ++ s2) σ =
    match run s1 σ with
    | Next σ1 => run s2 σ1
    | Disabled => Disabled
    | Fault => Fault
    end.
Proof.
  revert σ. induction s1 as [|a s1 IH]; intros σ; simpl; [done|].
  by destruct (step a σ).
Qed.

(** While nothing has been handed to [push], nothing is in the chain, in
    the charge of a thread, or on record as popped. *)
Lemma nothing_pushed σ cells :
  inv σ cells → pushed σ = [] →
  cells = [] ∧ popped σ = [] ∧ head σ = tail σ ∧
  ∀ i th, threads σ !! i = Some th → owned th = [].
Proof.
  intros (hd & tl & Hh & Ht & Hch & _ & _ & _ & _ & _ & Hacc & _) Hp.
  rewrite Hp in Hacc. symmetry in Hacc. apply Permutation_nil_r in Hacc.
  apply app_eq_nil in Hacc as [Hpop [Hc Hown]%app_eq_nil].
  apply fmap_nil_inv in Hc. subst cells. simpl in Hch. subst tl.
  split_and!; [done|done|congruence|].
  intros i th Hi. destruct (owned_split _ _ _ Hi) as (R & HR & _).
  rewrite Hown in HR. symmetry in HR. apply Permutation_nil_r in HR.
  by apply app_eq_nil in HR as [? _].
Qed.

(** While nothing is pushed, a thread inside [wait_and_pop] stays inside. *)
Lemma wait_step a σ σ' cells i th k :
  inv σ cells → pushed σ = [] →
  match a with Call _ (Push _) => False | _ => True end →
  threads σ !! i = Some th → in_pop th = Some k → waits k = true →
  step a σ = Next σ' →
  ∃ cells' th', inv σ' cells' ∧ pushed σ' = [] ∧
                threads σ' !! i = Some th' ∧ in_pop th' = Some k.
Proof.
  intros Hinv Hp Ha Hi Hk Hw Hstep.
  destruct (nothing_pushed _ _ Hinv Hp) as (_ & _ & _ & Hnone).
  destruct (step_effect _ _ _ _ Hinv Hstep) as (cells' & Hinv' & Heff).
  exists cells'.
  assert (Hlt : i < length (threads σ)) by by eapply lookup_lt_Some.
  destruct a as [j [v|k']|j]; [done| |].
  - destruct Heff as (_ & Hj & _ & Hths & Hpush). exists th.
    split_and!; [done|congruence| |done].
    rewrite Hths, list_lookup_insert_ne; [done|]. intros ->.
    rewrite Hi in Hj. by simplify_eq.
  - destruct Heff as (th0 & th' & Hj & Hths & Hpush & (_ & Hfc & Hret & _) & _).
    destruct (decide (j = i)) as [->|Hji].
    + rewrite Hi in Hj. injection Hj as <-. exists th'.
      split_and!; [done|congruence|by rewrite Hths, list_lookup_insert_eq|].
      destruct (Hfc _ Hk) as [->|?]; [|done].
      destruct (Hret eq_refl) as [->|[(k' & -> & Hw')|(k' & x & r & ->)]].
      * done.
      * simpl in Hk. congruence.
      * destruct Hinv as (hd & tl & _ & _ & _ & _ & _ & _ & Hok & _).
        destruct (Hok _ _ Hi) as (_ & _ & _ & v & -> & _).
        by pose proof (Hnone _ _ Hi).
    + exists th. split_and!; [done|congruence| |done].
      by rewrite Hths, list_lookup_insert_ne.
Qed.

Lemma wait_run s σ σ' cells i th k :
  no_push s → inv σ cells → pushed σ = [] →
  threads σ !! i = Some th → in_pop th = Some k → waits k = true →
  run s σ = Next σ' →
  ∃ cells' th', inv σ' cells' ∧ pushed σ' = [] ∧
                threads σ' !! i = Some th' ∧ in_pop th' = Some k.
Proof.
  intros Hs. revert σ cells th.
  induction Hs as [|a s Ha Hs IH]; intros σ cells th Hinv Hp Hi Hk Hw; simpl.
  - intros [= <-]. by exists cells, th.
  - destruct (step a σ) as [σ1| |] eqn:Hstep; [|done..].
    destruct (wait_step _ _ _ _ _ _ _ Hinv Hp Ha Hi Hk Hw Hstep)
      as (cells1 & th1 & Hinv1 & Hp1 & Hi1 & Hk1).
    by apply (IH _ _ _ Hinv1 Hp1 Hi1 Hk1 Hw).
Qed.

(** A schedule without [push] leaves nothing pushed. *)
Lemma no_push_run s σ σ' :
  no_push s → pushed σ = [] → run s σ = Next σ' → pushed σ' = [].
Proof.
  intros Hs. revert σ. induction Hs as [|a s Ha Hs IH]; intros σ Hp; simpl.
  - by intros [= <-].
  - destruct (step a σ) as [σ1| |] eqn:Hstep; [|done..].
    apply IH. destruct a as [j [v|k]|j]; [done| |]; simpl in Hstep.
    + unfold call, goto, upd in Hstep. destruct (threads σ !! j) as [[]|]; try done.
      by injection Hstep as <-.
    + unfold move, goto, upd in Hstep.
      destruct (threads σ !! j) as [[]|]; try done; repeat case_match; try done;
        by injection Hstep as <-.
Qed.

(** A thread inside a member function can take its next step unless that
    step is the locking of a mutex that is held. *)
Lemma move_enabled σ cells j th :
  inv σ cells → threads σ !! j = Some th → th ≠ Idle →
  (wants_head th = true → head_mutex σ = None) →
  (wants_tail th = true → tail_mutex σ = None) →
  ∃ σ', move j σ = Next σ'.
Proof.
  intros Hinv Hj Hidle Hh Ht.
  pose proof (inv_step (Move j) _ _ Hinv) as Hp. simpl in Hp.
  destruct (move j σ) as [σ'| |] eqn:Hm; [eauto| |done].
  exfalso. unfold move, goto in Hm. rewrite Hj in Hm.
  destruct th; simpl in *; try done; repeat case_match; try done; naive_solver.
Qed.

(** X4. Each mutex is held by one thread at a time. In every state that any
    number of threads can reach, a thread stands between the locking and the
    unlocking of [head_mutex] exactly when the mutex is recorded as its own,
    and so for [tail_mutex]; hence no two threads are at once inside the
    part of a pop function that runs under [head_mutex], nor two inside the
    block of [push] or the body of [get_tail()] that runs under
    [tail_mutex]. *)
Theorem mutexes_exclude n s σ i j thi thj :
  run s (init n) = Next σ →
  threads σ !! i = Some thi → threads σ !! j = Some thj →
  (holds_head thi = true ↔ head_mutex σ = Some i) ∧
  (holds_tail thi = true ↔ tail_mutex σ = Some i) ∧
  (holds_head thi = true → holds_head thj = true → i = j) ∧
  (holds_tail thi = true → holds_tail thj = true → i = j).
Proof.
  intros Hrun Hi Hj. destruct (inv_run _ _ _ _ (inv_init n) Hrun) as [cells Hinv].
  destruct Hinv as (hd & tl & _ & _ & _ & _ & _ & _ & Hok & _).
  destruct (Hok _ _ Hi) as (Hhi & Hti & _), (Hok _ _ Hj) as (Hhj & Htj & _).
  split_and!; [done|done| |].
  - intros H1%Hhi H2%Hhj. congruence.
  - intros H1%Hti H2%Htj. congruence.
Qed.

(** X5. The two mutexes never bring the threads to a standstill. In every
    state that can be reached, if some thread is inside a member function
    then some thread can take a step: the holder of [tail_mutex] if there is
    one, which never has to wait for [head_mutex]; else the holder of
    [head_mutex] if there is one; else any thread that is inside. Here a
    thread that found the queue empty in [wait_and_pop] counts as free to
    come back for [head_mutex]; how it sleeps on the condition variable is
    the matter of [CondVar]. *)
Theorem some_thread_can_move n s σ i th :
  run s (init n) = Next σ → threads σ !! i = Some th → th ≠ Idle →
  ∃ j σ', move j σ = Next σ' ∧
          (∀ k, tail_mutex σ = Some k → j = k) ∧
          (∀ k, tail_mutex σ = None → head_mutex σ = Some k → j = k) ∧
          (tail_mutex σ = None → head_mutex σ = None → j = i).
Proof.
  intros Hrun Hi Hidle. destruct (inv_run _ _ _ _ (inv_init n) Hrun) as [cells Hinv].
  pose proof Hinv as (hd & tl & _ & _ & _ & _ & _ & _ & Hok & _ & _ & _ & Hown).
  destruct (tail_mutex σ) as [k|] eqn:Htm.
  - destruct (Hown k) as [thk Hk]; [by right|].
    pose proof (Hok _ _ Hk) as (_ & Htk & _).
    assert (Hholds : holds_tail thk = true) by by apply Htk.
    destruct (move_enabled σ cells k thk) as [σ' Hm]; [done|done|..].
    { by destruct thk. } { by destruct thk. } { by destruct thk. }
    exists k, σ'. split_and!; [done|congruence|done|done].
  - destruct (head_mutex σ) as [k|] eqn:Hhm.
    + destruct (Hown k) as [thk Hk]; [by left|].
      pose proof (Hok _ _ Hk) as (Hhk & _).
      assert (Hholds : holds_head thk = true) by by apply Hhk.
      destruct (move_enabled σ cells k thk) as [σ' Hm]; [done|done|..].
      { by destruct thk. } { by destruct thk. } { done. }
      exists k, σ'. split_and!; [done|done|congruence|done].
    + destruct (move_enabled σ cells i th) as [σ' Hm]; [done..|].
      exists i, σ'. by split_and!.
Qed.

(** X6. With any number of producers and consumers, the chain changes at its
    two ends only. Whatever step a thread takes in a state that can be
    reached, the chain from [head] to [tail] afterwards holds the same
    values in the same nodes as before, or one more at the back, put there
    by [tail=new_tail] in [push] (the old sentinel, now holding the value
    pushed), or one less at the front, taken by [pop_head()] into the hands
    of the popping thread. No value in the chain is ever passed by another. *)
Theorem chain_changes_at_its_ends n s a σ σ' :
  run s (init n) = Next σ → step a σ = Next σ' →
  ∃ cells cells' hd tl hd' tl',
    head σ = Some hd ∧ tail σ = Some tl ∧ chain (heap σ) hd cells tl ∧
    head σ' = Some hd' ∧ tail σ' = Some tl' ∧ chain (heap σ') hd' cells' tl' ∧
    (cells' = cells ∨
     (∃ v, cells' = cells ++ [(tl, v)] ∧
           threads σ !! actor a = Some (PushTail v tl')) ∨
     (∃ c k r, cells = c :: cells' ∧
           threads σ !! actor a = Some (PopHead k r) ∧
           owned_by (actor a) σ' = [c.2])).
Proof.
  intros Hrun Hstep. destruct (inv_run _ _ _ _ (inv_init n) Hrun) as [cells Hinv].
  destruct (step_effect _ _ _ _ Hinv Hstep) as (cells' & Hinv' & Heff).
  pose proof Hinv as (hd & tl & Hh & Ht & Hch & _).
  pose proof Hinv' as (hd' & tl' & Hh' & Ht' & Hch' & _).
  exists cells, cells', hd, tl, hd', tl'. split_and!; [done..|].
  destruct a as [i o|i]; simpl.
  - left. by destruct Heff as [-> _].
  - destruct Heff as (th & th' & Hi & Hths & _ & _ & Heff).
    assert (Hlt : i < length (threads σ)) by by eapply lookup_lt_Some.
    destruct th; try (left; by destruct Heff as [-> _]).
    + right. left. destruct Heff as ((tl0 & Ht0 & ->) & _). exists v.
      rewrite Ht in Ht0. injection Ht0 as <-. split; [done|].
      rewrite Hi. do 2 f_equal.
      unfold step, move in Hstep. rewrite Hi in Hstep. injection Hstep as <-.
      simpl in Ht'. by injection Ht'.
    + right. right. destruct Heff as ((c & -> & Hown) & _). exists c, k, value.
      split_and!; [done|done|].
      by rewrite (owned_by_insert _ _ _ i _ Hths Hlt), decide_True.
Qed.

(** X7. One thread pushes and another pops, their steps interleaved in any
    way: the values come out in the order in which they went in. At every
    moment the values handed to [push], in the order of the calls, are the
    values returned by the pops in the order of the returns, then the value
    the consumer has taken and not yet returned, then the values in the
    chain from [head] to [tail], then the value the producer has not yet
    linked. So what has been popped is always an initial part of what has
    been pushed. *)
Theorem one_producer_one_consumer_fifo n pr co s σ :
  pr ≠ co → spsc pr co s → run s (init n) = Next σ →
  ∃ cells hd tl,
    head σ = Some hd ∧ tail σ = Some tl ∧ chain (heap σ) hd cells tl ∧
    pushed σ = popped σ ++ owned_by co σ ++ cells.*2 ++ owned_by pr σ ∧
    popped σ `prefix_of` pushed σ ∧
    (quiescent σ →
       pushed σ = popped σ ++ cells.*2 ∧
       rep (Queue (heap σ) (head σ) (tail σ)) cells.*2).
Proof.
  intros Hne Hs Hrun.
  destruct (fifo_run pr co s (init n) σ [] Hne Hs (inv_init n))
    as (cells & Hinv & _ & Hfifo); [| |done|].
  { by intros k th [-> _]%lookup_replicate. }
  { unfold owned_by. simpl.
    destruct (replicate n Idle !! co) as [th|] eqn:Hco;
      [apply lookup_replicate in Hco as [-> _]|];
      (destruct (replicate n Idle !! pr) as [th'|] eqn:Hpr;
         [apply lookup_replicate in Hpr as [-> _]|]); done. }
  pose proof Hinv as (hd & tl & Hh & Ht & Hch & _).
  exists cells, hd, tl. split_and!; [done..| |].
  - rewrite Hfifo. by apply prefix_app_r.
  - intros Hq. destruct (inv_quiescent _ _ Hinv Hq) as [Hrep _]. split; [|done].
    rewrite Hfifo. unfold owned_by.
    destruct (threads σ !! co) as [th|] eqn:Hco; [rewrite (Hq _ _ Hco)|];
      (destruct (threads σ !! pr) as [th'|] eqn:Hpr; [rewrite (Hq _ _ Hpr)|]);
      simpl; by rewrite app_nil_r.
Qed.

(** X8. [wait_and_pop] does not return before a value has been pushed. A
    thread that calls one of the two [wait_and_pop] functions when nothing
    has been pushed is still inside that function after any steps of any
    threads among which there is no call of [push]: each time it finds
    [head==tail] it gives up [head_mutex] and comes back for it. Nothing is
    popped meanwhile and the queue stays empty. *)
Theorem wait_and_pop_waits_for_push n s1 s2 σ i k :
  waits k = true → no_push (s1 ++ s2) →
  run (s1 ++ Call i (Pop k) :: s2) (init n) = Next σ →
  pushed σ = [] ∧ popped σ = [] ∧ head σ = tail σ ∧
  threads σ !! i ≠ Some Idle ∧
  ∃ th, threads σ !! i = Some th ∧ in_pop th = Some k.
Proof.
  intros Hw [Hs1 Hs2]%Forall_app Hrun. rewrite run_app in Hrun.
  destruct (run s1 (init n)) as [σ1| |] eqn:Hrun1; [|done..].
  destruct (inv_run _ _ _ _ (inv_init n) Hrun1) as [cells1 Hinv1].
  pose proof (no_push_run s1 (init n) σ1 Hs1 eq_refl Hrun1) as Hp1.
  simpl in Hrun. destruct (call i (Pop k) σ1) as [σ2| |] eqn:Hcall; [|done..].
  destruct (step_effect (Call i (Pop k)) _ _ _ Hinv1 Hcall)
    as (cells2 & Hinv2 & _ & Hi & _ & Hths & Hp2).
  rewrite Hp1 in Hp2.
  assert (Hi2 : threads σ2 !! i = Some (PopLockHead k)).
  { rewrite Hths. apply list_lookup_insert_eq. by eapply lookup_lt_Some. }
  destruct (wait_run _ _ _ _ _ _ _ Hs2 Hinv2 Hp2 Hi2 eq_refl Hw Hrun)
    as (cells & th & Hinv & Hp & Hth & Hk).
  destruct (nothing_pushed _ _ Hinv Hp) as (_ & Hpop & Heq & _).
  split_and!; [done..| |by exists th].
  rewrite Hth. intros [= ->]. done.
Qed.

Ltac go Hlt :=
  unfold move at 1; simpl;
  rewrite list_lookup_insert_eq by (rewrite ?length_insert; exact Hlt); simpl.

Lemma alone_add i o m1 m2 : alone i o (m1 + m2) = alone i o m1 ++ replicate m2 (Move i).
Proof. unfold alone. by rewrite replicate_add. Qed.

Lemma pop_alone_prefix σ i k :
  threads σ !! i = Some Idle → head_mutex σ = None → tail_mutex σ = None →
  run (alone i (Pop k) 4) σ =
    Next (State (heap σ) (head σ) (tail σ) (Some i) None
                (<[i:=PopCompare k (tail σ)]> (threads σ)) (pushed σ) (popped σ)).
Proof.
  intros Hi Hhm Htm.
  assert (Hlt : i < length (threads σ)) by by eapply lookup_lt_Some.
  unfold alone. simpl. unfold call, goto, upd. rewrite Hi.
  go Hlt. rewrite Hhm. go Hlt. rewrite Htm. go Hlt. unfold goto, upd. simpl. go Hlt.
  unfold upd. simpl. by rewrite !list_insert_insert_eq.
Qed.

Lemma state_eta σ ths :
  ths = threads σ →
  State (heap σ) (head σ) (tail σ) (head_mutex σ) (tail_mutex σ) ths
        (pushed σ) (popped σ) = σ.
Proof. intros ->. by destruct σ. Qed.

(** [try_pop] and [empty()] alone on the empty queue, in six steps. *)
Lemma pop_alone_nil σ i k :
  threads σ !! i = Some Idle → head_mutex σ = None → tail_mutex σ = None →
  head σ = tail σ → waits k = false →
  run (alone i (Pop k) 6) σ = Next σ.
Proof.
  intros Hi Hhm Htm Heq Hw.
  assert (Hlt : i < length (threads σ)) by by eapply lookup_lt_Some.
  change 6 with (4 + 2). rewrite alone_add, run_app, pop_alone_prefix by done.
  simpl. go Hlt. rewrite decide_True by done. unfold goto, upd. simpl.
  go Hlt. rewrite Hw. unfold upd. simpl. rewrite !list_insert_insert_eq.
  f_equal. rewrite <-Hhm at 1. rewrite <-Htm at 1. apply state_eta.
  by apply list_insert_id.
Qed.

(** [empty()] alone on a queue that is not empty. *)
Lemma empty_alone_cons σ i :
  threads σ !! i = Some Idle → head_mutex σ = None → tail_mutex σ = None →
  head σ ≠ tail σ →
  run (alone i (Pop IsEmpty) 6) σ = Next σ.
Proof.
  intros Hi Hhm Htm Hne.
  assert (Hlt : i < length (threads σ)) by by eapply lookup_lt_Some.
  change 6 with (4 + 2). rewrite alone_add, run_app, pop_alone_prefix by done.
  simpl. go Hlt. rewrite decide_False by done. unfold goto, upd. simpl.
  go Hlt. unfold upd. simpl. rewrite !list_insert_insert_eq.
  f_equal. rewrite <-Hhm at 1. rewrite <-Htm at 1. apply state_eta.
  by apply list_insert_id.
Qed.

(** A pop function alone on a queue that is not empty. *)
Lemma pop_alone_cons σ i k hd tl v x :
  threads σ !! i = Some Idle → head_mutex σ = None → tail_mutex σ = None →
  head σ = Some hd → tail σ = Some tl → hd ≠ tl →
  heap σ !! hd = Some (Node (Some v) x) → k ≠ IsEmpty →
  run (alone i (Pop k) (if by_ref k then 9 else 8)) σ =
    Next (State (release (size (<[hd:=Node (Some v) None]> (heap σ))) (Some hd)
                         (<[hd:=Node (Some v) None]> (heap σ)))
                x (tail σ) None None (threads σ) (pushed σ) (popped σ ++ [v])).
Proof.
  intros Hi Hhm Htm Hh Ht Hne Hhd Hk.
  assert (Hlt : i < length (threads σ)) by by eapply lookup_lt_Some.
  assert (Heq : head σ ≠ tail σ) by congruence.
  destruct k; try done; unfold by_ref.
  - change 8 with (4 + 4). rewrite alone_add, run_app, pop_alone_prefix by done.
    simpl. go Hlt. rewrite decide_False by done. unfold goto, upd. simpl.
    go Hlt. rewrite Hh, Hhd. simpl. go Hlt. unfold upd. simpl. go Hlt.
    rewrite lookup_insert_eq. simpl. rewrite !list_insert_insert_eq.
    by rewrite list_insert_id.
  - change 9 with (4 + 5). rewrite alone_add, run_app, pop_alone_prefix by done.
    simpl. go Hlt. rewrite decide_False by done. unfold goto, upd. simpl.
    go Hlt. rewrite Hh, Hhd. simpl. unfold goto, upd. simpl.
    go Hlt. rewrite ?Hh, Hhd. simpl. go Hlt. unfold upd. simpl. go Hlt.
    rewrite lookup_insert_eq. simpl. rewrite !list_insert_insert_eq.
    by rewrite list_insert_id.
  - change 8 with (4 + 4). rewrite alone_add, run_app, pop_alone_prefix by done.
    simpl. go Hlt. rewrite decide_False by done. unfold goto, upd. simpl.
    go Hlt. rewrite Hh, Hhd. simpl. go Hlt. unfold upd. simpl. go Hlt.
    rewrite lookup_insert_eq. simpl. rewrite !list_insert_insert_eq.
    by rewrite list_insert_id.
  - change 9 with (4 + 5). rewrite alone_add, run_app, pop_alone_prefix by done.
    simpl. go Hlt. rewrite decide_False by done. unfold goto, upd. simpl.
    go Hlt. rewrite Hh, Hhd. simpl. unfold goto, upd. simpl.
    go Hlt. rewrite ?Hh, Hhd. simpl. go Hlt. unfold upd. simpl. go Hlt.
    rewrite lookup_insert_eq. simpl. rewrite !list_insert_insert_eq.
    by rewrite list_insert_id.
Qed.

Lemma serve_nil (q : queue T) k value :
  Queue.head q = Queue.tail q → waits k = false →
  ∃ r, serve (request_of (Pop k) value) q = Ok (r, q) ∧ got r = [].
Proof.
  intros Heq Hw. destruct k; try done; unfold request_of, serve.
  - exists (TryPopped None). split; [|done].
    unfold try_pop, try_pop_head. run. by rewrite decide_True.
  - exists (TryPoppedRef false value). split; [|done].
    unfold try_pop_ref, try_pop_head_ref. run. rewrite decide_True by done.
    simpl. rewrite release_null. by destruct q.
  - exists (Emptiness true). split; [|done].
    unfold empty. run. by rewrite bool_decide_eq_true_2.
Qed.

Lemma serve_empty_cons (q : queue T) value :
  Queue.head q ≠ Queue.tail q →
  serve (request_of (Pop IsEmpty) value) q = Ok (Emptiness false, q).
Proof.
  intros Hne. unfold request_of, serve, empty. run.
  by rewrite bool_decide_eq_false_2.
Qed.

Lemma pop_head_at (q : queue T) hd v x :
  Queue.head q = Some hd → Queue.heap q !! hd = Some (Node (Some v) x) →
  pop_head q = Ok (Some hd, Queue (<[hd:=Node (Some v) None]> (Queue.heap q)) x
                                  (Queue.tail q)).
Proof. intros Hh Hhd. unfold pop_head. run. rewrite Hh, Hhd. simpl. by rewrite Hhd. Qed.

Lemma serve_pop_cons (q : queue T) hd tl v x k value :
  Queue.head q = Some hd → Queue.tail q = Some tl → hd ≠ tl →
  Queue.heap q !! hd = Some (Node (Some v) x) → k ≠ IsEmpty →
  ∃ r, serve (request_of (Pop k) value) q =
         Ok (r, Queue (release (size (<[hd:=Node (Some v) None]> (Queue.heap q)))
                               (Some hd) (<[hd:=Node (Some v) None]> (Queue.heap q)))
                      x (Queue.tail q)) ∧
       got r = [v].
Proof.
  intros Hh Ht Hhdtl Hhd Hk.
  assert (Hne : Queue.head q ≠ Queue.tail q) by congruence.
  pose proof (pop_head_at _ _ _ _ Hh Hhd) as Hpop.
  set (q1 := Queue (<[hd:=Node (Some v) None]> (Queue.heap q)) x (Queue.tail q)) in *.
  pose proof (wait_pop_head_ref_ok q q1 hd v Hh Hne Hhd Hpop) as Hwref.
  assert (Hload : load (Some hd) q1 = Ok (Node (Some v) None, q1)).
  { unfold load. simpl. by rewrite lookup_insert_eq. }
  set (q2 := Queue (release (size (<[hd:=Node (Some v) None]> (Queue.heap q)))
                            (Some hd) (<[hd:=Node (Some v) None]> (Queue.heap q)))
                   x (Queue.tail q)).
  assert (Hdrop : drop (Some hd) q1 = Ok (tt, q2)) by done.
  destruct k; try done; unfold request_of, serve.
  - exists (TryPopped (Some v)). split; [|done].
    assert (Htry : try_pop q = Ok (Some v, q2)); [|by rewrite (mbind_ok _ _ _ _ _ Htry)].
    unfold try_pop. rewrite <-try_pop_head_ne in Hpop by done.
    rewrite (mbind_ok _ _ _ _ _ Hpop), (mbind_ok _ _ _ _ _ Hload).
    by rewrite (mbind_ok _ _ _ _ _ Hdrop).
  - exists (TryPoppedRef true v). split; [|done].
    assert (Htry : try_pop_ref value q = Ok ((true, v), q2));
      [|by rewrite (mbind_ok _ _ _ _ _ Htry)].
    unfold try_pop_ref. rewrite <-(try_pop_head_ref_ne _ value) in Hwref by done.
    rewrite (mbind_ok _ _ _ _ _ Hwref). simpl.
    by rewrite (mbind_ok _ _ _ _ _ Hdrop).
  - exists (WaitPopped (Some v)). split; [|done].
    assert (Htry : wait_and_pop q = Ok (Some v, q2));
      [|by rewrite (mbind_ok _ _ _ _ _ Htry)].
    unfold wait_and_pop. rewrite <-wait_pop_head_ne in Hpop by done.
    rewrite (mbind_ok _ _ _ _ _ Hpop), (mbind_ok _ _ _ _ _ Hload).
    by rewrite (mbind_ok _ _ _ _ _ Hdrop).
  - exists (WaitPoppedRef v). split; [|done].
    assert (Htry : wait_and_pop_ref q = Ok (v, q2));
      [|by rewrite (mbind_ok _ _ _ _ _ Htry)].
    unfold wait_and_pop_ref. rewrite (mbind_ok _ _ _ _ _ Hwref). simpl.
    by rewrite (mbind_ok _ _ _ _ _ Hdrop).
Qed.

Lemma push_alone σ cells i v :
  inv σ cells → threads σ !! i = Some Idle → tail_mutex σ = None →
  ∃ σ', run (alone i (Push v) 6) σ = Next σ' ∧
        push v (shared_queue σ) = Ok (tt, shared_queue σ') ∧
        threads σ' = threads σ ∧ head_mutex σ' = head_mutex σ ∧
        tail_mutex σ' = None ∧
        pushed σ' = pushed σ ++ [v] ∧ popped σ' = popped σ.
Proof.
  intros Hinv Hi Htm.
  destruct Hinv as (hd & tl & Hh & Ht & Hch & Hnd & Htl & Htf & Hok & Hdis & Hacc & Hdom & Hown).
  specialize (Htf Htm).
  assert (Hlt : i < length (threads σ)) by by eapply lookup_lt_Some.
  set (p := fresh (dom (heap σ))).
  assert (Hp : p ≠ tl).
  { intros Heq. apply (is_fresh (dom (heap σ))). fold p. rewrite Heq.
    by apply elem_of_dom. }
  eexists. split.
  - unfold alone. simpl. unfold call. rewrite Hi.
    go Hlt. go Hlt. rewrite Htm. go Hlt.
    rewrite Ht. fold p. rewrite lookup_insert_ne by done. rewrite Htf.
    go Hlt. rewrite lookup_insert_eq. simpl. rewrite release_null.
    go Hlt. go Hlt. reflexivity.
  - simpl. split_and!; try done.
    + unfold push, shared_queue. run. fold p. rewrite Ht. simpl.
      rewrite lookup_insert_ne by done. rewrite Htf. simpl.
      rewrite lookup_insert_ne by done. rewrite Htf. simpl.
      rewrite lookup_insert_eq. simpl. rewrite lookup_insert_eq. simpl.
      rewrite release_null. done.
    + rewrite !list_insert_insert_eq. by apply list_insert_id.
Qed.

(** X9. A call that no other thread disturbs runs to its end in a few steps
    and does to the shared object what the member function does on one
    thread. In any state that can be reached, let a thread outside the queue
    call a member function while [tail_mutex] is free and, for a pop
    function or [empty()], [head_mutex] is free too; for [wait_and_pop] let
    the queue not be empty. Other threads may be in the middle of calls of
    their own. Then after at most nine steps of its own the thread is
    outside again, both mutexes are as they were, the object is in the state
    in which the same call leaves it on one thread, and the value pushed or
    popped is on record. [push] does not ask for [head_mutex]: it goes
    through while another thread holds it. *)
Theorem call_alone_as_on_one_thread n s σ i o value :
  run s (init n) = Next σ → threads σ !! i = Some Idle →
  tail_mutex σ = None →
  (∀ k, o = Pop k → head_mutex σ = None ∧ (waits k = true → head σ ≠ tail σ)) →
  ∃ m σ' r, m ≤ 9 ∧ run (alone i o m) σ = Next σ' ∧
    serve (request_of o value) (shared_queue σ) = Ok (r, shared_queue σ') ∧
    threads σ' = threads σ ∧ head_mutex σ' = head_mutex σ ∧
    tail_mutex σ' = None ∧
    pushed σ' = pushed σ ++ put o ∧ popped σ' = popped σ ++ got r.
Proof.
  intros Hrun Hi Htm Hpop.
  destruct (inv_run _ _ _ _ (inv_init n) Hrun) as [cells Hinv].
  destruct o as [v|k].
  - destruct (push_alone _ _ _ v Hinv Hi Htm) as (σ' & Hr & Hpush & H1 & H2 & H3 & H4 & H5).
    exists 6, σ', Pushed. split_and!; [lia|done| |done..|by rewrite H5, app_nil_r].
    unfold request_of, serve. by rewrite (mbind_ok _ _ _ _ _ Hpush).
  - destruct (Hpop k eq_refl) as [Hhm Hwait].
    destruct (decide (head σ = tail σ)) as [Heq|Hne].
    + assert (Hw : waits k = false).
      { destruct (waits k); [by destruct Hwait|done]. }
      destruct (serve_nil (shared_queue σ) k value Heq Hw) as (r & Hserve & Hgot).
      exists 6, σ, r. rewrite Hgot, !app_nil_r.
      split_and!; [lia|by apply pop_alone_nil| |done..].
      rewrite Hserve. by destruct σ.
    + assert (k = IsEmpty ∨ k ≠ IsEmpty) as [->|Hk] by (destruct k; by eauto).
      * exists 6, σ, (Emptiness false). rewrite !app_nil_r.
        split_and!; [lia|by apply empty_alone_cons| |done..].
        rewrite (serve_empty_cons (shared_queue σ) value Hne). by destruct σ.
      * destruct Hinv as (hd & tl & Hh & Ht & Hch & Hnd & _).
        destruct cells as [|c rest]; simpl in Hch; [congruence|].
        destruct Hch as [Hc (x & Hx & _)].
        assert (Hhdtl : hd ≠ tl).
        { intros ->. apply NoDup_cons in Hnd as [Hnd _]. apply Hnd.
          rewrite Hc. set_solver. }
        destruct (serve_pop_cons (shared_queue σ) hd tl c.2 (Some x) k value)
          as (r & Hserve & Hgot); [done..|].
        eexists (if by_ref k then 9 else 8), _, r.
        split; [destruct (by_ref k); lia|].
        split; [by eapply pop_alone_cons|].
        rewrite Hserve, Hgot, Hhm. simpl. by rewrite app_nil_r.
Qed.

End Order.

(** ** Every value pushed can be popped *)

Section Drain.
Context {T : Type}.
Implicit Types (σ : state T) (th : thread T) (h : gmap positive (node T))
  (cells : list (positive * T)) (s : list (action T)) (a : action T).



















End Drain.


(** Two producers and one consumer, interleaved. *)
Example two_producers_one_consumer :
  match run [Call 0 (Push 1); Call 1 (Push 2); Call 2 (Pop TryPop);
             Move 0; Move 1; Move 2; Move 1; Move 1; Move 1; Move 1; Move 1;
             Move 2; Move 2; Move 2; Move 0; Move 2; Move 0; Move 2; Move 0;
             Move 2; Move 0; Move 2; Move 0]
            (init 3) with
  | Next σ => pushed σ = [1; 2] ∧ popped σ = [2] ∧
              threads σ = [Idle; Idle; Idle] ∧ head σ ≠ tail σ
  | _ => False
  end.
Proof. vm_compute. split_and!; done. Qed.

(** Thread 0 pushes 1, then 2; thread 1 calls [try_pop()] while the second
    [push] is under way. *)
Lemma one_producer_one_consumer_fifo_witness :
  0 ≠ 1 ∧
  spsc 0 1 [Call 0 (Push 1); Move 0; Move 0; Move 0; Move 0; Move 0; Move 0;
            Call 0 (Push 2); Move 0; Call 1 (Pop TryPop); Move 1; Move 0;
            Move 0; Move 0; Move 0; Move 0; Move 1; Move 1; Move 1; Move 1;
            Move 1; Move 1; Move 1] ∧
  match run [Call 0 (Push 1); Move 0; Move 0; Move 0; Move 0; Move 0; Move 0;
             Call 0 (Push 2); Move 0; Call 1 (Pop TryPop); Move 1; Move 0;
             Move 0; Move 0; Move 0; Move 0; Move 1; Move 1; Move 1; Move 1;
             Move 1; Move 1; Move 1] (init 2) with
  | Next σ => popped σ `prefix_of` pushed σ
  | _ => False
  end.
Proof.
  assert (Hne : 0 ≠ 1) by discriminate.
  assert (Hs : spsc 0 1
            [Call 0 (Push 1); Move 0; Move 0; Move 0; Move 0; Move 0; Move 0;
             Call 0 (Push 2); Move 0; Call 1 (Pop TryPop); Move 1; Move 0;
             Move 0; Move 0; Move 0; Move 0; Move 1; Move 1; Move 1; Move 1;
             Move 1; Move 1; Move 1]) by (repeat constructor).
  split; [exact Hne|]. split; [exact Hs|].
  destruct (run _ (init 2)) as [σ| |] eqn:Hrun.
  - destruct (one_producer_one_consumer_fifo 2 0 1 _ σ Hne Hs Hrun)
      as (cells & hd & tl & _ & _ & _ & _ & Hpre & _).
    exact Hpre.
  - vm_compute in Hrun. discriminate.
  - vm_compute in Hrun. discriminate.
Defined.

(** One thread alone calls [wait_and_pop()] on the new queue and takes
    seven steps. *)
Lemma wait_and_pop_waits_for_push_witness :
  waits WaitAndPop = true ∧
  no_push (T:=nat) ([] ++ [Move 0; Move 0; Move 0; Move 0; Move 0; Move 0; Move 0]) ∧
  match run ([] ++ Call 0 (Pop WaitAndPop)
                   :: [Move 0; Move 0; Move 0; Move 0; Move 0; Move 0; Move 0])
            (@init nat 1) with
  | Next σ => threads σ !! 0 ≠ Some Idle
  | _ => False
  end.
Proof.
  assert (Hs : no_push (T:=nat)
            ([] ++ [Move 0; Move 0; Move 0; Move 0; Move 0; Move 0; Move 0]))
    by (repeat constructor).
  split; [reflexivity|]. split; [exact Hs|].
  destruct (run _ (@init nat 1)) as [σ| |] eqn:Hrun.
  - destruct (wait_and_pop_waits_for_push 1 [] _ σ 0 WaitAndPop eq_refl Hs Hrun)
      as (_ & _ & _ & Hi & _).
    exact Hi.
  - vm_compute in Hrun. discriminate.
  - vm_compute in Hrun. discriminate.
Defined.

(** [push(5)] by the one thread of a new queue. *)
Lemma call_alone_as_on_one_thread_witness :
  run [] (@init nat 1) = Next (@init nat 1) ∧
  ∃ m σ', m ≤ 9 ∧ run (alone 0 (Push 5) m) (@init nat 1) = Next σ' ∧
          pushed σ' = [5] ∧ threads σ' = [Idle] ∧
          push 5 (shared_queue (@init nat 1)) = Ok (tt, shared_queue σ').
Proof.
  split; [reflexivity|].
  destruct (call_alone_as_on_one_thread 1 [] (@init nat 1) 0 (Push 5) 0
              eq_refl eq_refl eq_refl)
    as (m & σ' & r & Hm & Hrun & Hserve & Hths & _ & _ & Hpushed & _).
  { intros k Hk. discriminate Hk. }
  exists m, σ'. split; [exact Hm|]. split; [exact Hrun|].
  split; [exact Hpushed|]. split; [exact Hths|].
  unfold request_of, serve, mbind, M_bind, bind in Hserve.
  destruct (push 5 (shared_queue (@init nat 1))) as [[[] q']| |];
    [|discriminate Hserve..].
  injection Hserve as _ ->. reflexivity.
Defined.

(** A producer inside the block of [push] and a consumer that has locked
    [head_mutex] and waits for [tail_mutex]. *)
Lemma mutexes_exclude_witness :
  ∃ σ th0 th1,
    run [Call 0 (Push 1); Move 0; Move 0; Call 1 (Pop TryPop); Move 1] (init 2)
      = Next σ ∧
    threads σ !! 0 = Some th0 ∧ threads σ !! 1 = Some th1 ∧
    holds_tail th0 = true ∧ tail_mutex σ = Some 0 ∧
    holds_head th1 = true ∧ head_mutex σ = Some 1.
Proof.
  destruct (run [Call 0 (Push 1); Move 0; Move 0; Call 1 (Pop TryPop); Move 1]
                (init 2)) as [σ| |] eqn:Hrun;
    [|vm_compute in Hrun; discriminate Hrun..].
  assert (H0 : threads σ !! 0 = Some (PushData 1 2%positive)).
  { vm_compute in Hrun. injection Hrun as <-. reflexivity. }
  assert (H1 : threads σ !! 1 = Some (PopLockTail TryPop)).
  { vm_compute in Hrun. injection Hrun as <-. reflexivity. }
  exists σ, (PushData 1 2%positive), (PopLockTail TryPop).
  destruct (mutexes_exclude 2 _ σ 0 1 _ _ Hrun H0 H1) as (_ & Ht0 & _ & _).
  destruct (mutexes_exclude 2 _ σ 1 0 _ _ Hrun H1 H0) as (Hh1 & _ & _ & _).
  split; [reflexivity|]. split; [exact H0|]. split; [exact H1|].
  split; [reflexivity|]. split; [exact (proj1 Ht0 eq_refl)|].
  split; [reflexivity|exact (proj1 Hh1 eq_refl)].
Defined.

(** The consumer waits for [tail_mutex]; the producer, who holds it, can
    move. *)
Lemma some_thread_can_move_witness :
  ∃ σ σ',
    run [Call 0 (Push 1); Move 0; Move 0; Call 1 (Pop TryPop); Move 1] (init 2)
      = Next σ ∧
    threads σ !! 1 = Some (PopLockTail TryPop) ∧ move 1 σ = Disabled ∧
    move 0 σ = Next σ'.
Proof.
  destruct (run [Call 0 (Push 1); Move 0; Move 0; Call 1 (Pop TryPop); Move 1]
                (init 2)) as [σ| |] eqn:Hrun;
    [|vm_compute in Hrun; discriminate Hrun..].
  assert (H1 : threads σ !! 1 = Some (PopLockTail TryPop)).
  { vm_compute in Hrun. injection Hrun as <-. reflexivity. }
  assert (Hd : move 1 σ = Disabled).
  { vm_compute in Hrun. injection Hrun as <-. reflexivity. }
  assert (Htm : tail_mutex σ = Some 0).
  { vm_compute in Hrun. injection Hrun as <-. reflexivity. }
  assert (Hne : PopLockTail TryPop ≠ @Idle nat) by discriminate.
  destruct (some_thread_can_move 2 _ σ 1 _ Hrun H1 Hne) as (j & σ' & Hm & Hj & _).
  rewrite (Hj 0 Htm) in Hm.
  exists σ, σ'. split; [reflexivity|]. split; [exact H1|]. split; [exact Hd|exact Hm].
Defined.

(** The step [tail=new_tail] of a [push(1)] on the new queue. *)
Lemma chain_changes_at_its_ends_witness :
  ∃ σ σ',
    run [Call 0 (Push 1); Move 0; Move 0; Move 0; Move 0] (init 1) = Next σ ∧
    step (Move 0) σ = Next σ' ∧
    ∃ cells cells' hd tl hd' tl',
      head σ = Some hd ∧ tail σ = Some tl ∧ chain (heap σ) hd cells tl ∧
      head σ' = Some hd' ∧ tail σ' = Some tl' ∧ chain (heap σ') hd' cells' tl' ∧
      (cells' = cells ∨
       (∃ v, cells' = cells ++ [(tl, v)] ∧
             threads σ !! 0 = Some (PushTail v tl')) ∨
       (∃ c k r, cells = c :: cells' ∧
             threads σ !! 0 = Some (PopHead k r) ∧ owned_by 0 σ' = [c.2])).
Proof.
  destruct (run [Call 0 (Push 1); Move 0; Move 0; Move 0; Move 0] (init 1))
    as [σ| |] eqn:Hrun; [|vm_compute in Hrun; discriminate Hrun..].
  destruct (step (Move 0) σ) as [σ'| |] eqn:Hstep;
    [|vm_compute in Hrun; injection Hrun as <-; vm_compute in Hstep;
      discriminate Hstep..].
  exists σ, σ'. split; [reflexivity|]. split; [exact Hstep|].
  exact (chain_changes_at_its_ends 1 _ (Move 0) σ σ' Hrun Hstep).
Defined.


End Conc.

(** * Waiting on the condition variable *)

(** The interleaving of [Conc] lets a thread that finds [head==tail] in
    [wait_and_pop] come back for [head_mutex] whenever it is scheduled, as
    if [data_cond.wait] woke at once. Here the thread blocks in [wait]
    until [notify_one()] chooses it or the wait ends for no reason; all
    other steps are those of [Conc]. [push] unlocks [tail_mutex] and calls
    [notify_one()] in one step. *)

Module CondVar.
Import Queue Conc.

Section Waiting.
Context {T : Type}.

(** Which of the threads blocked in [wait] a [notify_one()] unblocks is up
    to the implementation: [pick] chooses among them. *)
Context (pick : list nat → nat).

(** The shared object and its threads, and the threads blocked in
    [data_cond.wait]. *)
Record state : Type := State {
  object : Conc.state T;
  blocked : list nat
}.

Inductive outcome : Type :=
  | Next (c : state)
  | Disabled
  | Fault.

(** [data_cond.notify_one()] *)
Definition notify_one (bl : list nat) : list nat :=
  match bl with
  | [] => []
  | _ => delete (pick bl `mod` length bl) bl
  end.

(** A step of a thread, or a wakeup that no one asked for, which [wait] is
    allowed to have. *)
Inductive action : Type :=
  | Do (a : Conc.action T)
  | Spurious (i : nat).

Definition step (a : action) (c : state) : outcome :=
  match a with
  | Do (Call i o) =>
      match call i o (object c) with
      | Conc.Next σ' => Next (State σ' (blocked c))
      | Conc.Disabled => Disabled
      | Conc.Fault => Fault
      end
  | Do (Move i) =>
      if bool_decide (i ∈ blocked c) then Disabled
      else
        match move i (object c) with
        | Conc.Next σ' =>
            match threads (object c) !! i with
            | Some (PopEmpty k) =>
                Next (State σ' (if waits k then blocked c ++ [i] else blocked c))
            | Some PushUnlock => Next (State σ' (notify_one (blocked c)))
            | _ => Next (State σ' (blocked c))
            end
        | Conc.Disabled => Disabled
        | Conc.Fault => Fault
        end
  | Spurious i =>
      if bool_decide (i ∈ blocked c)
      then Next (State (object c) (filter (λ j, j ≠ i) (blocked c)))
      else Disabled
  end.

Fixpoint run (s : list action) (c : state) : outcome :=
  match s with
  | [] => Next c
  | a :: s' =>
      match step a c with
      | Next c' => run s' c'
      | Disabled => Disabled
      | Fault => Fault
      end
  end.

Definition init (n : nat) : state := State (Conc.init n) [].

(** The steps of the threads in a schedule, the wakeups left out. *)
Definition strip (s : list action) : list (Conc.action T) :=
  omap (λ a, match a with Do a0 => Some a0 | Spurious _ => None end) s.

(** Thread 1 calls a [wait_and_pop] and finds the queue empty; before it
    blocks, thread 0 runs a whole [push(v)]; then thread 1 blocks. *)
Definition late_sleeper (v : T) (k : pop_kind) : list action :=
  Do <$> (alone 1 (Pop k) 5 ++ alone 0 (Push v) 6 ++ [Move 1]).

(** No thread is blocked twice, and a blocked thread is inside a
    [wait_and_pop], in [wait], with [head_mutex] to take again when it
    wakes. *)
Definition sleeping (c : state) : Prop :=
  NoDup (blocked c) ∧
  ∀ i, i ∈ blocked c →
    ∃ k, threads (object c) !! i = Some (PopLockHead k) ∧ waits k = true.

End Waiting.
Arguments state : clear implicits.
Arguments outcome : clear implicits.
Arguments action : clear implicits.

(** ** Blocked threads, and a wakeup that goes missing *)

Section Lost.
Context {T : Type} (pick : list nat → nat).
Implicit Types (c : state T) (s : list (action T)) (a : action T).

(** Leaving out who is blocked, a step is a step of the threads as
    [Conc] has them, or nothing at all. *)
Lemma step_object a c c' :
  step pick a c = Next c' →
  match a with
  | Do a0 => Conc.step a0 (object c) = Conc.Next (object c')
  | Spurious _ => object c' = object c
  end.
Proof.
  destruct a as [[i o|i]|i]; simpl.
  - destruct (call i o (object c)); [|done..]. by intros [= <-].
  - case_bool_decide; [done|].
    destruct (move i (object c)) as [σ'| |]; [|done..].
    destruct (threads (object c) !! i) as [[]|]; by intros [= <-].
  - case_bool_decide; [|done]. by intros [= <-].
Qed.

Lemma run_object s c c' :
  run pick s c = Next c' → Conc.run (strip s) (object c) = Conc.Next (object c').
Proof.
  revert c. induction s as [|a s IH]; intros c; simpl.
  - by intros [= <-].
  - destruct (step pick a c) as [c1| |] eqn:Hstep; [|done..].
    intros Hrun. apply step_object in Hstep. destruct a as [a0|i]; simpl.
    + rewrite Hstep. by apply IH.
    + rewrite <-Hstep. by apply IH.
Qed.

Lemma notify_one_sublist (bl : list nat) : notify_one pick bl `sublist_of` bl.
Proof. destruct bl; [done|]. apply sublist_delete. Qed.

Lemma sleeping_step a c c' :
  sleeping c → step pick a c = Next c' → sleeping c'.
Proof.
  unfold sleeping. intros [Hnd Hbl] Hstep.
  destruct a as [[i o|i]|i]; simpl in Hstep.
  - destruct (call i o (object c)) as [σ'| |] eqn:Hcall; [|done..].
    injection Hstep as <-. simpl in *. split; [done|].
    intros j Hj. destruct (Hbl j Hj) as (k & Hk & Hw). exists k. split; [|done].
    rewrite (step_other (Call i o) _ _ j Hcall); [done|]. simpl. intros ->.
    unfold call in Hcall. rewrite Hk in Hcall. done.
  - case_bool_decide as Hi; [done|].
    destruct (move i (object c)) as [σ'| |] eqn:Hmove; [|done..].
    assert (Hkeep : ∀ j, j ∈ blocked c →
              ∃ k, threads σ' !! j = Some (PopLockHead k) ∧ waits k = true).
    { intros j Hj. destruct (Hbl j Hj) as (k & Hk & Hw). exists k. split; [|done].
      rewrite (step_other (Move i) _ _ j Hmove); [done|]. simpl. by intros ->. }
    destruct (threads (object c) !! i) as [th|] eqn:Hth;
      [|unfold move in Hmove; by rewrite Hth in Hmove].
    destruct th; injection Hstep as <-; simpl; try (split; [done|exact Hkeep]).
    + split.
      * eapply sublist_NoDup; [done|apply notify_one_sublist].
      * intros j Hj. apply Hkeep.
        eapply elem_of_sublist; [done|apply notify_one_sublist].
    + destruct (waits k) eqn:Hw; [|by split]. split.
      * apply NoDup_app. split_and!; [done| |apply NoDup_singleton].
        intros j Hj ->%list_elem_of_singleton. done.
      * intros j [Hj| ->%list_elem_of_singleton]%elem_of_app; [by apply Hkeep|].
        exists k. split; [|done]. unfold move in Hmove. rewrite Hth, Hw in Hmove.
        injection Hmove as <-. simpl. apply list_lookup_insert_eq.
        by eapply lookup_lt_Some.
  - case_bool_decide as Hi; [|done]. injection Hstep as <-. simpl. split.
    + by apply NoDup_filter.
    + intros j [_ Hj]%list_elem_of_filter. by apply Hbl.
Qed.

Lemma run_stuck a s c : step pick a c = Disabled → run pick (a :: s) c = Disabled.
Proof. intros H. change (run pick (a :: s) c) with
  (match step pick a c with Next c' => run pick s c' | Disabled => Disabled | Fault => Fault end).
  by rewrite H.
Qed.

Lemma sleeping_run s c c' :
  sleeping c → run pick s c = Next c' → sleeping c'.
Proof.
  revert c. induction s as [|a s IH]; intros c Hsl; simpl.
  - by intros [= <-].
  - destruct (step pick a c) as [c1| |] eqn:Hstep; [|done..].
    apply IH. by eapply sleeping_step.
Qed.

Lemma run_safe s c cells : inv (object c) cells → run pick s c ≠ Fault.
Proof.
  revert c cells. induction s as [|a s IH]; intros c cells Hinv; simpl; [done|].
  destruct (step pick a c) as [c1| |] eqn:Hstep.
  - pose proof (step_object _ _ _ Hstep) as Hobj. destruct a as [a0|i].
    + pose proof (inv_step a0 _ _ Hinv) as Hp. rewrite Hobj in Hp.
      destruct Hp as [cells1 Hinv1]. by eapply IH.
    + eapply IH. by rewrite Hobj.
  - done.
  - exfalso. destruct a as [[i o|i]|i]; simpl in Hstep.
    + pose proof (inv_step (Call i o) _ _ Hinv) as Hp. simpl in Hp.
      by destruct (call i o (object c)).
    + case_bool_decide; [done|].
      pose proof (inv_step (Move i) _ _ Hinv) as Hp. simpl in Hp.
      destruct (move i (object c)); [|done..].
      by destruct (threads (object c) !! i) as [[]|].
    + by case_bool_decide.
Qed.

(** X10. A wakeup can be lost. Thread 1 calls [wait_and_pop], locks
    [head_mutex] and finds [head==tail]; before it blocks in [wait], thread
    0 runs [push(v)] from beginning to end, [notify_one()] included, which
    finds no thread to wake; then thread 1 blocks. Now the queue holds [v],
    both mutexes are free, thread 0 is outside, and thread 1 sleeps inside
    [wait_and_pop]: no thread has a step to take, and so it stays until some
    thread calls [push] again or the wait ends for no reason. This is so
    whichever thread [notify_one()] would choose to wake. *)
Theorem wakeup_can_be_lost (v : T) (k : pop_kind) :
  waits k = true →
  ∃ c, run pick (late_sleeper v k) (init 2) = Next c ∧
       blocked c = [1] ∧
       threads (object c) = [Idle; PopLockHead k] ∧
       head_mutex (object c) = None ∧ tail_mutex (object c) = None ∧
       pushed (object c) = [v] ∧ popped (object c) = [] ∧
       rep (shared_queue (object c)) [v] ∧
       (∀ i, step pick (Do (Move i)) c = Disabled) ∧
       (∀ i s, run pick (Do (Move i) :: s) c = Disabled).
Proof.
  intros Hw.
  destruct (rep_push new_queue [] v rep_new) as (q' & Hpush & Hrep).
  vm_compute in Hpush. injection Hpush as <-.
  assert (Hstuck : ∀ q (c : state T),
            threads (object c) = [Idle; q] → blocked c = [1] →
            ∀ i, step pick (Do (Move i)) c = Disabled).
  { intros q c Hths Hbl [|[|i]]; simpl; rewrite Hbl; [|done|].
    - rewrite bool_decide_eq_false_2 by (by intros [=]%list_elem_of_singleton).
      unfold move. by rewrite Hths.
    - rewrite bool_decide_eq_false_2 by (by intros [=]%list_elem_of_singleton).
      unfold move. by rewrite Hths. }
  destruct k; try done.
  - eexists. split; [vm_compute; reflexivity|].
    split_and!; try reflexivity; [exact Hrep|by eapply Hstuck|].
    intros i s. apply run_stuck. by eapply Hstuck.
  - eexists. split; [vm_compute; reflexivity|].
    split_and!; try reflexivity; [exact Hrep|by eapply Hstuck|].
    intros i s. apply run_stuck. by eapply Hstuck.
Qed.

(** X11. A thread blocked in [data_cond.wait] is inside one of the two
    [wait_and_pop] functions, holds neither mutex, and takes no step while
    it is blocked; no thread is blocked twice. With the blocked threads left
    out of the picture, what the threads do is what they do in the
    interleaving of [Conc], so that no step faults here either. *)
Theorem blocked_threads_hold_no_mutex n s c :
  run pick s (init n) = Next c →
  Conc.run (strip s) (Conc.init n) = Conc.Next (object c) ∧
  NoDup (blocked c) ∧
  (∀ i, i ∈ blocked c →
     (∃ k, threads (object c) !! i = Some (PopLockHead k) ∧ waits k = true) ∧
     head_mutex (object c) ≠ Some i ∧ tail_mutex (object c) ≠ Some i ∧
     step pick (Do (Move i)) c = Disabled) ∧
  ∀ s', run pick s' c ≠ Fault.
Proof.
  intros Hrun. pose proof (run_object _ _ _ Hrun) as Hobj. simpl in Hobj.
  destruct (inv_run _ _ _ _ (inv_init n) Hobj) as [cells Hinv].
  assert (Hsl : sleeping c).
  { eapply sleeping_run; [|done]. split; [apply NoDup_nil_2|].
    by intros i ?%elem_of_nil. }
  destruct Hsl as [Hnd Hbl].
  split_and!; [done|done| |intros s'; by eapply run_safe].
  intros i Hi. destruct (Hbl i Hi) as (k & Hk & Hw).
  destruct Hinv as (hd & tl & _ & _ & _ & _ & _ & _ & Hok & _).
  destruct (Hok _ _ Hk) as (Hh & Ht & _). simpl in Hh, Ht.
  split_and!; [by exists k| | |].
  - intros Hm. by apply Hh in Hm.
  - intros Hm. by apply Ht in Hm.
  - simpl. by rewrite bool_decide_eq_true_2.
Qed.

End Lost.

Lemma wakeup_can_be_lost_witness :
  waits WaitAndPop = true ∧
  ∃ c, run (λ _, 0) (late_sleeper 7 WaitAndPop) (init 2) = Next c ∧
       blocked c = [1] ∧ pushed (object c) = [7] ∧ popped (object c) = [] ∧
       step (λ _, 0) (Do (Move 1)) c = Disabled.
Proof.
  split; [reflexivity|].
  destruct (wakeup_can_be_lost (λ _, 0) 7 WaitAndPop eq_refl)
    as (c & Hrun & Hbl & _ & _ & _ & Hpushed & Hpopped & _ & Hstuck & _).
  exists c. split; [exact Hrun|]. split; [exact Hbl|]. split; [exact Hpushed|].
  split; [exact Hpopped|exact (Hstuck 1)].
Defined.

(** Two threads call [wait_and_pop()] on the new queue and block. *)
Lemma blocked_threads_hold_no_mutex_witness :
  ∃ c, run (λ _, 0) (Do <$> (alone 0 (Pop WaitAndPop) 6 ++ alone 1 (Pop WaitAndPop) 6))
           (@init nat 2) = Next c ∧
       blocked c = [0; 1] ∧
       head_mutex (object c) ≠ Some 1 ∧ step (λ _, 0) (Do (Move 1)) c = Disabled.
Proof.
  destruct (run (λ _, 0) (Do <$> (alone 0 (Pop WaitAndPop) 6 ++ alone 1 (Pop WaitAndPop) 6))
                (@init nat 2)) as [c| |] eqn:Hrun;
    [|vm_compute in Hrun; discriminate Hrun..].
  assert (Hbl : blocked c = [0; 1]).
  { vm_compute in Hrun. injection Hrun as <-. reflexivity. }
  destruct (blocked_threads_hold_no_mutex (λ _, 0) 2 _ c Hrun) as (_ & _ & H & _).
  destruct (H 1) as (_ & Hh & _ & Hd).
  { rewrite Hbl. apply elem_of_cons. right. apply elem_of_cons. by left. }
  exists c. split; [reflexivity|]. split; [exact Hbl|]. split; [exact Hh|exact Hd].
Defined.
End CondVar.

(** * The thread pool *)

Module Pool.
Import Queue.

(** What calling a submitted callable does: it returns a value or it throws. *)
Inductive outcome (V E : Type) : Type :=
  | Returns (v : V)
  | Throws (e : E).
Arguments Returns {V E} v.
Arguments Throws {V E} e.

Section ThreadPool.
Context {V E : Type}.

(** A zero-argument callable [f] with result type [V]: a call of it comes
    back, with a value or with an exception. A callable that never returns
    is not among these; what is proved below is proved of tasks that come
    back. *)
Definition callable : Type := unit → outcome V E.

(** [std::packaged_task<result_type()>]: the stored callable and the shared
    state it reports to, named by a number; the [std::future] obtained from
    [get_future()] names the same shared state. Its call operator runs the
    stored callable and makes the shared state ready with the value returned
    or the exception thrown; on a shared state that is ready already it
    throws [std::future_error] itself. *)
Record packaged_task : Type := PackagedTask {
  stored : callable;
  state : nat
}.

(** [FunctionWrapper]: [impl] owns an [impl_type<F>] holding the callable, or
    is null. The pool instantiates [F] with [packaged_task] only. *)
Record FunctionWrapper : Type := Wrapper { impl : option packaged_task }.

(** [FunctionWrapper() = default] *)
Definition FunctionWrapper_default : FunctionWrapper := Wrapper None.

(** [template<typename F> FunctionWrapper(F&& f): impl(new impl_type<F>(std::move(f)))] *)
Definition FunctionWrapper_of (f : packaged_task) : FunctionWrapper :=
  Wrapper (Some f).

(** Where a worker thread stands in [worker_thread()]. *)
Inductive worker : Type :=
  | AtWhile                          (* about to evaluate [while(!done)] *)
  | AtTryPop                         (* [task] declared, about to call [try_pop(task)] *)
  | AtCall (task : FunctionWrapper)  (* [try_pop] returned true, about to call [task()] *)
  | AtYield                          (* [try_pop] returned false, about to yield *)
  | Exited                           (* [worker_thread()] has returned *)
  | Faulted.                         (* null dereference, or an exception left the thread *)

(** The members [done], [work_queue] and [threads] ([joiner] only refers to
    [threads]), and around them the shared states of the futures handed out:
    [shared] holds the ready ones, [issued] counts those created, and
    [invoked] lists the tasks whose call operator has run, oldest first. *)
Record pool : Type := MkPool {
  done : bool;
  work_queue : queue FunctionWrapper;
  threads : list worker;
  shared : gmap nat (outcome V E);
  issued : nat;
  invoked : list nat
}.

Definition set_thread (i : nat) (w : worker) (p : pool) : pool :=
  MkPool (done p) (work_queue p) (<[i:=w]> (threads p)) (shared p) (issued p) (invoked p).

Definition set_work_queue (q : queue FunctionWrapper) (p : pool) : pool :=
  MkPool (done p) q (threads p) (shared p) (issued p) (invoked p).

Definition set_done (b : bool) (p : pool) : pool :=
  MkPool b (work_queue p) (threads p) (shared p) (issued p) (invoked p).

(** What the constructing thread does, in order. *)
Inductive event : Type :=
  | Spawned (i : nat)   (* [threads.push_back(std::thread(...))] succeeded *)
  | DoneSet             (* [done=true] *)
  | Joined (i : nat)    (* [threads[i].join()] returned *)
  | Rethrown.           (* the exception leaves the constructor *)

(** [for(unsigned i=0;i<thread_count;++i) threads.push_back(std::thread(...))]
    with [n] iterations to go; [spawn_ok i] tells whether the [i]-th
    [std::thread] can be created. The flag is false when the loop was left
    by the exception. *)
Fixpoint spawn_loop (n i : nat) (spawn_ok : nat → bool) (ths : list worker)
    : list worker * bool :=
  match n with
  | 0 => (ths, true)
  | S n' =>
      if spawn_ok i then spawn_loop n' (S i) spawn_ok (ths ++ [AtWhile])
      else (ths, false)
  end.

(** [~JoinThreads()]: every thread of the vector is joinable, having been
    started and never joined. *)
Definition JoinThreads_dtor (ths : list worker) : list event :=
  Joined <$> seq 0 (length ths).

(** The members as initialised before the constructor body runs. *)
Definition initial : pool := MkPool false new_queue [] ∅ 0 [].

(** [ThreadPool()], given what [std::thread::hardware_concurrency()]
    answers. When the loop throws, the handler sets [done] and rethrows; the
    members constructed so far are then destroyed in reverse order, [joiner]
    first, and no object comes into being. *)
Definition ThreadPool_ctor (hardware_concurrency : nat) (spawn_ok : nat → bool)
    : list event * option pool :=
  let thread_count := hardware_concurrency in
  match spawn_loop thread_count 0 spawn_ok (threads initial) with
  | (ths, true) =>
      (Spawned <$> seq 0 (length ths),
       Some (MkPool false new_queue ths ∅ 0 []))
  | (ths, false) =>
      ((Spawned <$> seq 0 (length ths)) ++ [DoneSet] ++ JoinThreads_dtor ths ++ [Rethrown],
       None)
  end.

(** [submit(f)]: the future returned names the shared state of the task.
    The statements of [submit] make one step here, taken at the moment
    [push] links the node into the queue under [tail_mutex], and the shared
    states are numbered in the order of these moments. For the calls of one
    thread this is the order of the calls; calls of [submit] from several
    threads at once enter the queue in the order in which their pushes get
    [tail_mutex]. *)
Definition submit (f : callable) (p : pool) : result (nat * pool) :=
  let task := PackagedTask f (issued p) in
  let res := state task in
  match push (FunctionWrapper_of task) (work_queue p) with
  | Ok (_, q') =>
      Ok (res, MkPool (done p) q' (threads p) (shared p) (S (issued p)) (invoked p))
  | Blocked => Blocked
  | Undefined => Undefined
  end.

(** [task()] for a [FunctionWrapper]: [impl->call()]. *)
Definition call (task : FunctionWrapper) (p : pool) : option pool :=
  match impl task with
  | None => None
  | Some t =>
      match shared p !! state t with
      | Some _ => None
      | None =>
          Some (MkPool (done p) (work_queue p) (threads p)
                       (<[state t:=stored t tt]> (shared p)) (issued p)
                       (invoked p ++ [state t]))
      end
  end.

(** One move of thread [i] through [worker_thread()]. *)
Definition worker_step (i : nat) (p : pool) : pool :=
  match threads p !! i with
  | Some AtWhile => set_thread i (if done p then Exited else AtTryPop) p
  | Some AtTryPop =>
      match try_pop_ref FunctionWrapper_default (work_queue p) with
      | Ok ((true, task), q') => set_thread i (AtCall task) (set_work_queue q' p)
      | Ok ((false, _), q') => set_thread i AtYield (set_work_queue q' p)
      | _ => set_thread i Faulted p
      end
  | Some (AtCall task) =>
      match call task p with
      | Some p' => set_thread i AtWhile p'
      | None => set_thread i Faulted p
      end
  | Some AtYield => set_thread i AtWhile p
  | Some Exited | Some Faulted | None => p
  end.

(** [~ThreadPool() { done=true; }]: the body of the destructor. What the
    compiler adds after it, the destruction of the members ([joiner] joins
    the workers, then [threads] goes, then [work_queue] with the tasks still
    in it, whose futures the library makes ready with [broken_promise]), is
    not part of this step. A schedule after [Shutdown] tells what the
    workers do until they are joined; [shared] records what the tasks that
    ran have stored, and says nothing of a future once the queue is gone. *)
Definition ThreadPool_dtor (p : pool) : pool := set_done true p.

(** What may happen next to a pool: a worker moves, some thread calls
    [submit], or the owner starts destroying it. *)
Inductive action : Type :=
  | Run (i : nat)
  | Submit (f : callable)
  | Shutdown.

Definition act (p : pool) (a : action) : pool :=
  match a with
  | Run i => worker_step i p
  | Submit f => match submit f p with Ok (_, p') => p' | _ => p end
  | Shutdown => ThreadPool_dtor p
  end.

Definition run_schedule (s : list action) (p : pool) : pool := foldl act p s.

(** How many moves thread [i] makes in a schedule. *)
Fixpoint runs_of (i : nat) (s : list action) : nat :=
  match s with
  | [] => 0
  | Run j :: s' => (if decide (j = i) then 1 else 0) + runs_of i s'
  | _ :: s' => runs_of i s'
  end.

(** The pools that can exist: built by the constructor, then acted upon. *)
Definition reachable (p : pool) : Prop :=
  ∃ hw spawn_ok tr p0 s,
    ThreadPool_ctor hw spawn_ok = (tr, Some p0) ∧ p = run_schedule s p0.

(** The shared state a wrapper reports to, if it holds a task. *)
Definition wid (w : FunctionWrapper) : option nat := state <$> impl w.

(** [w] holds a task whose shared state exists and is not ready. *)
Definition waiting (p : pool) (w : FunctionWrapper) : Prop :=
  ∃ t, impl w = Some t ∧ state t < issued p ∧ shared p !! state t = None.

(** [inv p l]: the queue of [p] stands for [l]; the wrappers in the queue
    and those popped but not yet called hold tasks that have not run, no
    two of them the same task; the ready shared states are those of the
    tasks that have run, each once; no thread has faulted, and none has
    left its loop while [done] is false. *)
Record inv (p : pool) (l : list FunctionWrapper) : Prop := MkInv {
  inv_rep : rep (work_queue p) l;
  inv_queue : ∀ w, w ∈ l → waiting p w;
  inv_held : ∀ i w, threads p !! i = Some (AtCall w) → waiting p w;
  inv_nodup : NoDup (wid <$> l);
  inv_held_queue : ∀ i w, threads p !! i = Some (AtCall w) → wid w ∉ wid <$> l;
  inv_held_held : ∀ i j w w',
    threads p !! i = Some (AtCall w) → threads p !! j = Some (AtCall w') →
    wid w = wid w' → i = j;
  inv_no_fault : ∀ i, threads p !! i ≠ Some Faulted;
  inv_running : done p = false → ∀ i, threads p !! i ≠ Some Exited;
  inv_shared : ∀ id, is_Some (shared p !! id) ↔ id ∈ invoked p;
  inv_invoked : NoDup (invoked p);
  inv_issued : ∀ id, id ∈ invoked p → id < issued p
}.

(** How far a thread is from leaving its loop once [done] is set. *)
Definition exit_rank (w : worker) : nat :=
  match w with
  | AtTryPop => 3
  | AtCall _ | AtYield => 2
  | AtWhile => 1
  | Exited | Faulted => 0
  end.

(** Every thread is at its loop head or out of its loop. *)
Definition between_iterations (p : pool) : Prop :=
  ∀ j w, threads p !! j = Some w → w = AtWhile ∨ w = Exited.




(** A worker at [try_pop] or at the call is in the middle of an iteration:
    it may yet invoke one task before it sees the flag. *)
Definition mid_iteration (w : worker) : nat :=
  match w with
  | AtTryPop | AtCall _ => 1
  | _ => 0
  end.

(** The tasks in the hands of the workers, by their shared states. *)
Definition held (ths : list worker) : list nat :=
  omap (λ pc, match pc with AtCall w => wid w | _ => None end) ths.

(** The task with shared state [id] has left the queue: it has run, or a
    worker has popped it and is about to call it. *)
Definition taken (p : pool) (id : nat) : Prop :=
  id ∈ invoked p ∨ ∃ i w, threads p !! i = Some (AtCall w) ∧ wid w = Some id.

(** [in_order p l k]: of the tasks submitted so far, numbered in the order
    in which [submit] put them into the queue, the queue holds the tasks
    [k], [k+1], ... in this order, and those taken are the tasks before
    [k]; a single worker has run them in this order. *)
Definition in_order (p : pool) (l : list FunctionWrapper) (k : nat) : Prop :=
  k + length l = issued p ∧
  wid <$> l = Some <$> seq k (length l) ∧
  (∀ id, taken p id ↔ id < k) ∧
  (length (threads p) = 1 → invoked p ++ held (threads p) = seq 0 k).

End ThreadPool.
Arguments callable : clear implicits.
Arguments packaged_task : clear implicits.
Arguments FunctionWrapper : clear implicits.
Arguments worker : clear implicits.
Arguments pool : clear implicits.
Arguments action : clear implicits.

(** A pool of one worker, as the constructor builds it. *)
Definition one_worker : pool nat nat := MkPool false new_queue [AtWhile] ∅ 0 [].

(** ** Properties *)

Section Facts.
Context {V E : Type}.
Implicit Types (p : pool V E) (l : list (FunctionWrapper V E))
  (task target : FunctionWrapper V E) (ths : list (worker V E))
  (pc : worker V E) (f g : callable V E) (s : list (action V E)) (a : action V E).

(** ** The constructor *)

Lemma spawn_loop_all n i spawn_ok ths :
  (∀ j, j < n → spawn_ok (i + j) = true) →
  spawn_loop n i spawn_ok ths = (ths ++ replicate n AtWhile, true).
Proof.
  revert i ths. induction n as [|n IH]; intros i ths Hok; simpl.
  - by rewrite app_nil_r.
  - rewrite <-(Nat.add_0_r i) at 1. rewrite Hok by lia.
    rewrite IH; [by rewrite <-app_assoc|].
    intros j Hj. replace (S i + j) with (i + S j) by lia. apply Hok. lia.
Qed.

Lemma spawn_loop_fail n i k spawn_ok ths :
  k < n → (∀ j, j < k → spawn_ok (i + j) = true) → spawn_ok (i + k) = false →
  spawn_loop n i spawn_ok ths = (ths ++ replicate k AtWhile, false).
Proof.
  revert i k ths. induction n as [|n IH]; intros i k ths Hk Hok Hfail; [lia|].
  simpl. destruct k as [|k].
  - rewrite Nat.add_0_r in Hfail. rewrite Hfail. by rewrite app_nil_r.
  - rewrite <-(Nat.add_0_r i) at 1. rewrite Hok by lia.
    rewrite (IH (S i) k); [by rewrite <-app_assoc|lia| |].
    + intros j Hj. replace (S i + j) with (i + S j) by lia. apply Hok. lia.
    + by replace (S i + k) with (i + S k) by lia.
Qed.

(** What the constructor does when the [k]-th thread is the first that
    cannot be created. *)
Lemma ctor_failure_trace hw spawn_ok k :
  k < hw → (∀ i, i < k → spawn_ok i = true) → spawn_ok k = false →
  ThreadPool_ctor (V:=V) (E:=E) hw spawn_ok =
    ((Spawned <$> seq 0 k) ++ [DoneSet] ++ (Joined <$> seq 0 k) ++ [Rethrown],
     None).
Proof.
  intros Hk Hok Hfail. unfold ThreadPool_ctor.
  rewrite (spawn_loop_fail hw 0 k spawn_ok) by done.
  simpl. unfold JoinThreads_dtor. by rewrite length_replicate.
Qed.

(** ** The invariant and the moves that keep it *)

Lemma set_thread_lookup i j w p pc :
  threads p !! i = Some pc →
  threads (set_thread i w p) !! j = if decide (i = j) then Some w else threads p !! j.
Proof.
  intros Hi. simpl. case_decide as Hij.
  - subst j. apply list_lookup_insert_eq. by eapply lookup_lt_Some.
  - by apply list_lookup_insert_ne.
Qed.

Lemma inv_initial n :
  inv (V:=V) (E:=E) (MkPool false new_queue (replicate n AtWhile) ∅ 0 []) [].
Proof.
  split; simpl.
  - apply rep_new.
  - intros w Hw. by apply elem_of_nil in Hw.
  - by intros i w [? _]%lookup_replicate.
  - apply NoDup_nil_2.
  - intros i w _ Hin. by apply elem_of_nil in Hin.
  - by intros i j w w' [? _]%lookup_replicate.
  - by intros i [? _]%lookup_replicate.
  - by intros _ i [? _]%lookup_replicate.
  - intros id. rewrite lookup_empty. split; [by intros [? [=]]|].
    by intros ?%elem_of_nil.
  - apply NoDup_nil_2.
  - by intros id ?%elem_of_nil.
Qed.

Lemma ctor_some hw spawn_ok tr p0 :
  ThreadPool_ctor hw spawn_ok = (tr, Some p0) →
  ∃ n, p0 = MkPool false new_queue (replicate n AtWhile) ∅ 0 [].
Proof.
  unfold ThreadPool_ctor. simpl.
  assert (Hgen : ∀ n i ths k, ths = replicate k AtWhile →
            ∃ m, (spawn_loop n i spawn_ok ths).1 = replicate m AtWhile).
  { induction n as [|n IH]; intros i ths k ->; simpl; [by exists k|].
    destruct (spawn_ok i); [|by exists k].
    apply (IH _ _ (S k)). rewrite replicate_S_end. done. }
  destruct (Hgen hw 0 [] 0 eq_refl) as [m Hm].
  destruct (spawn_loop hw 0 spawn_ok []) as [ths [|]]; simpl in *; [|done].
  intros [= _ <-]. exists m. by rewrite Hm.
Qed.

Lemma wid_waiting p w : waiting p w → ∃ id, wid w = Some id ∧ id < issued p ∧ shared p !! id = None.
Proof. intros (t & Ht & Hlt & Hsh). exists (state t). unfold wid. by rewrite Ht. Qed.

(** A thread moves to a point of its loop where it holds no task. *)
Lemma inv_set_thread p l i pc pc' :
  inv p l → threads p !! i = Some pc →
  (∀ w, pc' ≠ AtCall w) → pc' ≠ Faulted → (pc' = Exited → done p = true) →
  inv (set_thread i pc' p) l.
Proof.
  intros [] Hi Hcall Hfault Hexit.
  split; try done.
  - intros j w. rewrite (set_thread_lookup _ _ _ _ _ Hi).
    case_decide; [naive_solver|]. intros Hj. by eapply inv_held0.
  - intros j w. rewrite (set_thread_lookup _ _ _ _ _ Hi).
    case_decide; [naive_solver|]. intros Hj. by eapply inv_held_queue0.
  - intros j k w w'. rewrite !(set_thread_lookup _ _ _ _ _ Hi).
    destruct (decide (i = j)) as [<-|Hij], (decide (i = k)) as [<-|Hik];
      [done|intros [= ->]; by destruct (Hcall w)|
       intros _ [= ->]; by destruct (Hcall w')|by apply inv_held_held0].
  - intros j. rewrite (set_thread_lookup _ _ _ _ _ Hi).
    case_decide; [naive_solver|]. apply inv_no_fault0.
  - intros Hd j. rewrite (set_thread_lookup _ _ _ _ _ Hi).
    case_decide; [|by apply inv_running0]. simpl in Hd. intros [= ->].
    specialize (Hexit eq_refl). congruence.
Qed.

(** A thread takes the first wrapper out of the queue. *)
Lemma inv_pop p w l i pc q' :
  inv p (w :: l) → threads p !! i = Some pc → rep q' l →
  inv (set_thread i (AtCall w) (set_work_queue q' p)) l.
Proof.
  intros [] Hi Hrep. rewrite fmap_cons in *.
  apply NoDup_cons in inv_nodup0 as [Hw Hnd].
  assert (Hi' : threads (set_work_queue q' p) !! i = Some pc) by done.
  split; try done.
  - intros w' Hw'. apply inv_queue0. by right.
  - intros j w'. rewrite (set_thread_lookup _ _ _ _ _ Hi').
    case_decide.
    + intros [= <-]. apply inv_queue0. by left.
    + intros Hj. by eapply inv_held0.
  - intros j w'. rewrite (set_thread_lookup _ _ _ _ _ Hi').
    case_decide.
    + by intros [= <-].
    + intros Hj Hin. eapply inv_held_queue0; [done|]. by right.
  - intros j k w1 w2. rewrite !(set_thread_lookup _ _ _ _ _ Hi').
    destruct (decide (i = j)) as [<-|Hij], (decide (i = k)) as [<-|Hik]; [done| | |].
    + intros [= <-] Hk Heq. exfalso. eapply inv_held_queue0; [exact Hk|].
      rewrite <-Heq. by left.
    + intros Hj [= <-] Heq. exfalso. eapply inv_held_queue0; [exact Hj|].
      rewrite Heq. by left.
    + by apply inv_held_held0.
  - intros j. rewrite (set_thread_lookup _ _ _ _ _ Hi').
    case_decide; [done|]. apply inv_no_fault0.
  - intros Hd j. rewrite (set_thread_lookup _ _ _ _ _ Hi').
    case_decide; [done|]. by apply inv_running0.
Qed.

(** A thread calls the wrapper it holds. *)
Lemma inv_call p l i w :
  inv p l → threads p !! i = Some (AtCall w) →
  ∃ t p', impl w = Some t ∧ shared p !! state t = None ∧
    call w p = Some p' ∧
    p' = MkPool (done p) (work_queue p) (threads p)
                (<[state t:=stored t tt]> (shared p)) (issued p)
                (invoked p ++ [state t]) ∧
    inv (set_thread i AtWhile p') l.
Proof.
  intros Hinv Hi. destruct (inv_held _ _ Hinv _ _ Hi) as (t & Ht & Hlt & Hsh).
  eexists t, _. split_and!; [done|done| |done|].
  { unfold call. by rewrite Ht, Hsh. }
  set (p' := MkPool _ _ _ _ _ _).
  assert (Hi' : threads p' !! i = Some (AtCall w)) by done.
  assert (Hwid : wid w = Some (state t)) by (unfold wid; by rewrite Ht).
  destruct Hinv.
  assert (Hother : ∀ w', waiting p w' → wid w' ≠ wid w → waiting p' w').
  { intros w' (t' & Ht' & Hlt' & Hsh') Hne. exists t'. split_and!; [done|done|].
    simpl. rewrite lookup_insert_ne; [done|]. intros Heq. apply Hne.
    unfold wid. rewrite Ht, Ht'. simpl. by rewrite Heq. }
  split; try done.
  - intros w' Hw'. apply Hother; [by apply inv_queue0|].
    intros Heq. apply (inv_held_queue0 _ _ Hi). rewrite <-Heq.
    by apply list_elem_of_fmap_2.
  - intros j w'. rewrite (set_thread_lookup _ _ _ _ _ Hi').
    case_decide as Hij; [done|]. intros Hj. apply Hother; [by eapply inv_held0|].
    intros Heq. apply Hij. symmetry. by eapply inv_held_held0.
  - intros j w'. rewrite (set_thread_lookup _ _ _ _ _ Hi').
    case_decide; [done|]. intros Hj. by eapply inv_held_queue0.
  - intros j k w1 w2. rewrite !(set_thread_lookup _ _ _ _ _ Hi').
    destruct (decide (i = j)) as [<-|Hij], (decide (i = k)) as [<-|Hik]; try done.
    by apply inv_held_held0.
  - intros j. rewrite (set_thread_lookup _ _ _ _ _ Hi').
    case_decide; [done|]. apply inv_no_fault0.
  - intros Hd j. rewrite (set_thread_lookup _ _ _ _ _ Hi').
    case_decide; [done|]. by apply inv_running0.
  - intros id. simpl. rewrite elem_of_app, list_elem_of_singleton, <-inv_shared0.
    rewrite lookup_insert. case_decide; subst; split; eauto. by intros [?|?].
  - simpl. apply NoDup_app. split_and!; [done| |apply NoDup_singleton].
    intros id Hin ->%list_elem_of_singleton. apply inv_shared0 in Hin as [? Hin].
    congruence.
  - intros id. simpl. rewrite elem_of_app, list_elem_of_singleton.
    intros [?| ->]; [by apply inv_issued0|done].
Qed.

(** [submit] always succeeds and appends a new task at the back. *)
Lemma inv_submit p l f :
  inv p l →
  ∃ q', push (FunctionWrapper_of (PackagedTask f (issued p))) (work_queue p)
          = Ok (tt, q') ∧
    submit f p =
      Ok (issued p, MkPool (done p) q' (threads p) (shared p) (S (issued p)) (invoked p)) ∧
    inv (MkPool (done p) q' (threads p) (shared p) (S (issued p)) (invoked p))
        (l ++ [FunctionWrapper_of (PackagedTask f (issued p))]).
Proof.
  intros Hinv. set (w := FunctionWrapper_of _).
  destruct (rep_push _ _ w (inv_rep _ _ Hinv)) as (q' & Hpush & Hrep).
  exists q'. split; [done|]. split; [unfold submit; simpl; fold w; by rewrite Hpush|].
  destruct Hinv.
  assert (Hfresh : shared p !! issued p = None).
  { destruct (shared p !! issued p) eqn:Hsh; [|done].
    assert (Hin : issued p ∈ invoked p) by (apply inv_shared0; eauto).
    apply inv_issued0 in Hin. lia. }
  assert (Hold : ∀ w', waiting p w' → waiting (MkPool (done p) q' (threads p)
                   (shared p) (S (issued p)) (invoked p)) w' ∧ wid w' ≠ wid w).
  { intros w' (t' & Ht' & Hlt' & Hsh'). split.
    - exists t'. simpl. split_and!; [done|lia|done].
    - unfold wid. rewrite Ht'. simpl. intros [= Heq]. lia. }
  split; try done; simpl.
  - intros w' [Hw'| ->%list_elem_of_singleton]%elem_of_app.
    + by apply Hold, inv_queue0.
    + exists (PackagedTask f (issued p)). simpl. split_and!; [done|lia|done].
  - intros j w' Hj. by eapply Hold, inv_held0.
  - rewrite fmap_app. apply NoDup_app. split_and!; [done| |apply NoDup_singleton].
    intros x (w' & -> & Hw')%list_elem_of_fmap ?%list_elem_of_singleton.
    by apply (Hold w'); [apply inv_queue0|].
  - intros j w' Hj. rewrite fmap_app, elem_of_app.
    intros [Hin|Hin%list_elem_of_singleton].
    + by eapply inv_held_queue0.
    + by eapply Hold; [eapply inv_held0|].
  - intros id Hin. apply inv_issued0 in Hin. lia.
Qed.

Lemma inv_shutdown p l : inv p l → inv (ThreadPool_dtor p) l.
Proof. intros []. by split. Qed.

(** ** One move of a worker, point by point *)

Lemma step_at_while p l i :
  inv p l → threads p !! i = Some AtWhile →
  worker_step i p = set_thread i (if done p then Exited else AtTryPop) p ∧
  inv (worker_step i p) l.
Proof.
  intros Hinv Hi. unfold worker_step. rewrite Hi. split; [done|].
  eapply inv_set_thread; [done|done|by destruct (done p)..].
Qed.

Lemma step_at_try_pop_nil p i :
  inv p [] → threads p !! i = Some AtTryPop →
  worker_step i p = set_thread i AtYield p ∧ inv (worker_step i p) [].
Proof.
  intros Hinv Hi. unfold worker_step. rewrite Hi.
  rewrite (rep_try_pop_ref_nil _ _ (inv_rep _ _ Hinv)).
  assert (Heq : set_work_queue (work_queue p) p = p) by by destruct p.
  rewrite Heq. split; [done|]. by eapply inv_set_thread.
Qed.

Lemma step_at_try_pop_cons p w l i :
  inv p (w :: l) → threads p !! i = Some AtTryPop →
  ∃ q', rep q' l ∧
    worker_step i p = set_thread i (AtCall w) (set_work_queue q' p) ∧
    inv (worker_step i p) l.
Proof.
  intros Hinv Hi. unfold worker_step. rewrite Hi.
  destruct (rep_pop_cons _ _ _ FunctionWrapper_default (inv_rep _ _ Hinv))
    as (q' & _ & Hpop & _ & _ & Hrep).
  rewrite Hpop. exists q'. split_and!; [done|done|]. by eapply inv_pop.
Qed.

Lemma step_at_call p l i w :
  inv p l → threads p !! i = Some (AtCall w) →
  ∃ t, impl w = Some t ∧ shared p !! state t = None ∧
    worker_step i p =
      set_thread i AtWhile
        (MkPool (done p) (work_queue p) (threads p)
                (<[state t:=stored t tt]> (shared p)) (issued p)
                (invoked p ++ [state t])) ∧
    inv (worker_step i p) l.
Proof.
  intros Hinv Hi. unfold worker_step. rewrite Hi.
  destruct (inv_call _ _ _ _ Hinv Hi) as (t & p' & Ht & Hsh & Hcall & -> & Hinv').
  rewrite Hcall. by exists t.
Qed.

Lemma step_at_yield p l i :
  inv p l → threads p !! i = Some AtYield →
  worker_step i p = set_thread i AtWhile p ∧ inv (worker_step i p) l.
Proof.
  intros Hinv Hi. unfold worker_step. rewrite Hi. split; [done|].
  by eapply inv_set_thread.
Qed.

Lemma step_idle p i :
  threads p !! i = Some Exited ∨ threads p !! i = None → worker_step i p = p.
Proof. unfold worker_step. by intros [->| ->]. Qed.

Lemma inv_worker_step p l i : inv p l → ∃ l', inv (worker_step i p) l'.
Proof.
  intros Hinv. destruct (threads p !! i) as [[| |w| | |]|] eqn:Hi.
  - exists l. by eapply step_at_while.
  - destruct l as [|w l].
    + exists []. by eapply step_at_try_pop_nil.
    + exists l. by destruct (step_at_try_pop_cons _ _ _ _ Hinv Hi) as (? & _ & _ & ?).
  - exists l. by destruct (step_at_call _ _ _ _ Hinv Hi) as (? & _ & _ & _ & ?).
  - exists l. by eapply step_at_yield.
  - exists l. rewrite step_idle; eauto.
  - by destruct (inv_no_fault _ _ Hinv i).
  - exists l. rewrite step_idle; eauto.
Qed.

Lemma inv_act p l a : inv p l → ∃ l', inv (act p a) l'.
Proof.
  intros Hinv. destruct a as [i|f|]; simpl.
  - by eapply inv_worker_step.
  - destruct (inv_submit _ _ f Hinv) as (q' & _ & -> & Hinv'). eauto.
  - exists l. by apply inv_shutdown.
Qed.

Lemma inv_run_schedule s p l : inv p l → ∃ l', inv (run_schedule s p) l'.
Proof.
  revert p l. induction s as [|a s IH]; intros p l Hinv; simpl; [eauto|].
  destruct (inv_act _ _ a Hinv) as [l' Hinv']. by eapply IH.
Qed.

Lemma reachable_inv p : reachable p → ∃ l, inv p l.
Proof.
  intros (hw & spawn_ok & tr & p0 & s & Hctor & ->).
  apply ctor_some in Hctor as [n ->]. eapply inv_run_schedule, inv_initial.
Qed.

Lemma reachable_run s p : reachable p → reachable (run_schedule s p).
Proof.
  intros (hw & spawn_ok & tr & p0 & s0 & Hctor & ->).
  exists hw, spawn_ok, tr, p0, (s0 ++ s). split; [done|].
  unfold run_schedule. by rewrite foldl_app.
Qed.

(** ** What a move leaves alone *)

Lemma call_frame task p p' :
  call task p = Some p' →
  done p' = done p ∧ work_queue p' = work_queue p ∧ threads p' = threads p ∧
  issued p' = issued p.
Proof.
  unfold call. destruct (impl task) as [t|]; [|done].
  destruct (shared p !! state t); [done|]. by intros [= <-].
Qed.

Lemma worker_step_other i j p :
  i ≠ j → threads (worker_step i p) !! j = threads p !! j.
Proof.
  intros Hij. unfold worker_step.
  destruct (threads p !! i) as [[| |task| | |]|]; try done.
  - simpl. by rewrite list_lookup_insert_ne.
  - destruct (try_pop_ref _ _) as [[[[|] task] q']| |]; simpl;
      by rewrite list_lookup_insert_ne.
  - destruct (call task p) as [p'|] eqn:Hcall; simpl.
    + apply call_frame in Hcall as (_ & _ & -> & _). by rewrite list_lookup_insert_ne.
    + by rewrite list_lookup_insert_ne.
  - simpl. by rewrite list_lookup_insert_ne.
Qed.

Lemma worker_step_done i p : done (worker_step i p) = done p.
Proof.
  unfold worker_step.
  destruct (threads p !! i) as [[| |task| | |]|]; try done.
  - by destruct (try_pop_ref _ _) as [[[[|] task] q']| |].
  - destruct (call task p) as [p'|] eqn:Hcall; simpl; [|done].
    by apply call_frame in Hcall as (-> & _).
Qed.

Lemma submit_frame f p fut p' :
  submit f p = Ok (fut, p') →
  done p' = done p ∧ threads p' = threads p ∧ shared p' = shared p ∧
  invoked p' = invoked p.
Proof.
  unfold submit. destruct (push _ _) as [[[] q']| |]; [|done..]. by intros [= _ <-].
Qed.

Lemma action_cases a i : a = Run i ∨ (∀ j, a = Run j → j ≠ i).
Proof.
  destruct a as [j|f|]; [|by right..].
  destruct (decide (j = i)) as [->|Hne]; [by left|right]. by intros ? [= <-].
Qed.

Lemma act_other p a i :
  (∀ j, a = Run j → j ≠ i) → threads (act p a) !! i = threads p !! i.
Proof.
  intros Hne. destruct a as [j|f|]; simpl.
  - apply worker_step_other. by apply Hne.
  - destruct (submit f p) as [[fut p']| |] eqn:Hs; [|done..].
    by apply submit_frame in Hs as (_ & -> & _).
  - done.
Qed.

Lemma act_done_true p a : done p = true → done (act p a) = true.
Proof.
  intros Hd. destruct a as [j|f|]; simpl; [by rewrite worker_step_done| |done].
  destruct (submit f p) as [[fut p']| |] eqn:Hs; [|done..].
  apply submit_frame in Hs as (-> & _). done.
Qed.

Lemma run_schedule_length s p :
  length (threads (run_schedule s p)) = length (threads p).
Proof.
  revert p. induction s as [|a s IH]; intros p; [done|]. simpl. rewrite IH.
  destruct a as [j|f|]; simpl; [| |done].
  - unfold worker_step.
    destruct (threads p !! j) as [[| |task| | |]|]; simpl;
      rewrite ?length_insert; try done.
    + destruct (try_pop_ref _ _) as [[[[|] task] q']| |]; simpl;
        by rewrite length_insert.
    + destruct (call task p) as [p'|] eqn:Hc; simpl; rewrite length_insert;
        [|done]. by apply call_frame in Hc as (_ & _ & -> & _).
  - destruct (submit f p) as [[fut p']| |] eqn:Hs; [|done..].
    by apply submit_frame in Hs as (_ & -> & _).
Qed.

(** A thread that has left its loop stays out. *)
Lemma exited_final s p i :
  threads p !! i = Some Exited → threads (run_schedule s p) !! i = Some Exited.
Proof.
  revert p. induction s as [|a s IH]; intros p Hi; [done|]. simpl. apply IH.
  destruct (action_cases a i) as [->|Hne].
  - simpl. rewrite step_idle; eauto.
  - by rewrite act_other.
Qed.

(** A thread leaves its loop from the test of [done] and from nowhere else. *)
Lemma exit_from_while i p :
  threads (worker_step i p) !! i = Some Exited →
  threads p !! i = Some Exited ∨ (threads p !! i = Some AtWhile ∧ done p = true).
Proof.
  unfold worker_step. destruct (threads p !! i) as [pc|] eqn:Hi; [|by rewrite Hi].
  assert (Hlt : i < length (threads p)) by by eapply lookup_lt_Some.
  destruct pc as [| |task| | |]; try (rewrite Hi; by eauto).
  - simpl. rewrite list_lookup_insert_eq by done. destruct (done p); eauto. done.
  - destruct (try_pop_ref _ _) as [[[[|] task] q']| |]; simpl;
      by rewrite list_lookup_insert_eq.
  - destruct (call task p) as [p'|] eqn:Hcall; simpl.
    + apply call_frame in Hcall as (_ & _ & -> & _).
      by rewrite list_lookup_insert_eq.
    + by rewrite list_lookup_insert_eq.
  - simpl. by rewrite list_lookup_insert_eq.
Qed.

(** Only the test at the loop head reads [done]. *)
Lemma step_ignores_done i p w b :
  threads p !! i = Some w → w ≠ AtWhile →
  worker_step i (set_done b p) = set_done b (worker_step i p).
Proof.
  intros Hi Hw. unfold worker_step. simpl. rewrite Hi.
  destruct w as [| |task| | |]; try done.
  - by destruct (try_pop_ref _ _) as [[[[|] task] q']| |].
  - unfold call. simpl. destruct (impl task) as [t|]; [|done].
    by destruct (shared p !! state t).
Qed.

(** ** Leaving the loop once [done] is set *)

Lemma exit_rank_step p l i pc :
  inv p l → done p = true → threads p !! i = Some pc →
  ∃ pc', threads (worker_step i p) !! i = Some pc' ∧
         exit_rank pc' ≤ exit_rank pc - 1.
Proof.
  intros Hinv Hd Hi.
  assert (Hlt : i < length (threads p)) by by eapply lookup_lt_Some.
  destruct pc as [| |task| | |].
  - destruct (step_at_while _ _ _ Hinv Hi) as [-> _]. rewrite Hd.
    exists Exited. simpl. by rewrite list_lookup_insert_eq.
  - destruct l as [|w l].
    + destruct (step_at_try_pop_nil _ _ Hinv Hi) as [-> _].
      exists AtYield. simpl. by rewrite list_lookup_insert_eq.
    + destruct (step_at_try_pop_cons _ _ _ _ Hinv Hi) as (q' & _ & -> & _).
      exists (AtCall w). simpl. by rewrite list_lookup_insert_eq.
  - destruct (step_at_call _ _ _ _ Hinv Hi) as (t & _ & _ & -> & _).
    exists AtWhile. simpl. by rewrite list_lookup_insert_eq.
  - destruct (step_at_yield _ _ _ Hinv Hi) as [-> _].
    exists AtWhile. simpl. by rewrite list_lookup_insert_eq.
  - exists Exited. rewrite step_idle; eauto.
  - by destruct (inv_no_fault _ _ Hinv i).
Qed.

Lemma exit_rank_schedule s p l i pc :
  inv p l → done p = true → threads p !! i = Some pc →
  ∃ pc', threads (run_schedule s p) !! i = Some pc' ∧
         exit_rank pc' ≤ exit_rank pc - runs_of i s.
Proof.
  revert p l pc. induction s as [|a s IH]; intros p l pc Hinv Hd Hi.
  { exists pc. split; [done|simpl; lia]. }
  destruct (inv_act _ _ a Hinv) as [l' Hinv'].
  pose proof (act_done_true _ a Hd) as Hd'.
  destruct (action_cases a i) as [->|Hne].
  - destruct (exit_rank_step _ _ _ _ Hinv Hd Hi) as (pc1 & Hi1 & Hr1).
    destruct (IH _ _ _ Hinv' Hd' Hi1) as (pc2 & Hi2 & Hr2).
    exists pc2. split; [done|]. simpl. rewrite decide_True by done. lia.
  - assert (Hi1 : threads (act p a) !! i = Some pc) by by rewrite act_other.
    destruct (IH _ _ _ Hinv' Hd' Hi1) as (pc2 & Hi2 & Hr2).
    exists pc2. split; [done|].
    destruct a as [j|f|]; simpl; [|done..].
    rewrite decide_False; [done|]. by apply Hne.
Qed.

(** Once [done] is set, three moves of its own take a thread out of its loop. *)
Lemma exits_after_shutdown s p l i :
  inv p l → done p = true → i < length (threads p) → 3 ≤ runs_of i s →
  threads (run_schedule s p) !! i = Some Exited.
Proof.
  intros Hinv Hd Hlt Hruns.
  destruct (lookup_lt_is_Some_2 _ _ Hlt) as [pc Hi].
  destruct (exit_rank_schedule s _ _ _ _ Hinv Hd Hi) as (pc' & Hi' & Hr).
  destruct (inv_run_schedule s _ _ Hinv) as [l' Hinv'].
  assert (Hz : exit_rank pc' = 0) by (destruct pc; simpl in Hr; lia).
  destruct pc'; try done. by destruct (inv_no_fault _ _ Hinv' i).
Qed.

Lemma quiescent_act p a :
  done p = true → between_iterations p →
  done (act p a) = true ∧ between_iterations (act p a) ∧
  invoked (act p a) = invoked p ∧ shared (act p a) = shared p.
Proof.
  intros Hd Hb. split; [by apply act_done_true|].
  destruct a as [i|f|]; simpl.
  - unfold worker_step. destruct (threads p !! i) as [pc|] eqn:Hi; [|done].
    destruct (Hb _ _ Hi) as [-> | ->]; [|done]. rewrite Hd. split; [|done].
    intros j w. rewrite (set_thread_lookup _ _ _ _ _ Hi).
    case_decide; [intros [= <-]; by right|apply Hb].
  - destruct (submit f p) as [[fut p']| |] eqn:Hs; [|done..].
    apply submit_frame in Hs as (_ & Hths & -> & ->). split; [|done].
    unfold between_iterations. by rewrite Hths.
  - done.
Qed.

Lemma quiescent_run s p :
  done p = true → between_iterations p →
  invoked (run_schedule s p) = invoked p ∧ shared (run_schedule s p) = shared p.
Proof.
  revert p. induction s as [|a s IH]; intros p Hd Hb; [done|]. simpl.
  destruct (quiescent_act p a Hd Hb) as (Hd' & Hb' & <- & <-). by apply IH.
Qed.

Lemma between_iterations_run s p :
  done p = true → between_iterations p → between_iterations (run_schedule s p).
Proof.
  revert p. induction s as [|a s IH]; intros p Hd Hb; [done|]. simpl.
  destruct (quiescent_act p a Hd Hb) as (Hd' & Hb' & _). by apply IH.
Qed.

(** ** A submitted task on its way to a worker *)



Lemma act_done_false p a : done (act p a) = false → done p = false.
Proof.
  destruct (done p) eqn:Hd; [|done]. by rewrite (act_done_true p a Hd).
Qed.









Lemma run_no_shutdown s p :
  Shutdown ∉ s → done p = false → done (run_schedule s p) = false.
Proof.
  revert p. induction s as [|a s IH]; intros p Hs Hd; [done|]. simpl.
  apply IH; [by intros ?; apply Hs; right|].
  destruct a as [i|f|]; simpl.
  - by rewrite worker_step_done.
  - destruct (submit f p) as [[fut p']| |] eqn:Hsub; [|done..].
    by apply submit_frame in Hsub as (-> & _).
  - destruct Hs. by left.
Qed.

Lemma run_issued_mono s p : issued p ≤ issued (run_schedule s p).
Proof.
  revert p. induction s as [|a s IH]; intros p; [done|]. simpl.
  etrans; [|apply IH]. destruct a as [i|f|]; simpl; [| |done].
  - unfold worker_step. destruct (threads p !! i) as [[| |task| | |]|]; try done.
    + by destruct (try_pop_ref _ _) as [[[[|] task] q']| |].
    + destruct (call task p) as [p'|] eqn:Hc; simpl; [|done].
      by apply call_frame in Hc as (_ & _ & _ & ->).
  - unfold submit. destruct (push _ _) as [[[] q']| |]; simpl; lia.
Qed.



(** ** The tasks a worker still invokes once [done] is set *)

Lemma sum_insert (f : worker V E → nat) ths i w w' :
  ths !! i = Some w →
  sum_list_with f (<[i:=w']> ths) + f w = sum_list_with f ths + f w'.
Proof.
  revert i. induction ths as [|w0 ths IH]; intros [|i] Hi; simplify_eq/=; [lia|].
  specialize (IH _ Hi). lia.
Qed.

Lemma budget_act p l a :
  inv p l → done p = true →
  length (invoked (act p a)) + sum_list_with mid_iteration (threads (act p a))
  ≤ length (invoked p) + sum_list_with mid_iteration (threads p).
Proof.
  intros Hinv Hd. destruct a as [i|f|]; simpl; [| |done].
  2: { destruct (submit f p) as [[fut p']| |] eqn:Hs; [|done..].
       by apply submit_frame in Hs as (_ & -> & _ & ->). }
  destruct (threads p !! i) as [pc|] eqn:Hi; [|by rewrite step_idle by eauto].
  destruct pc as [| |w| | |].
  - destruct (step_at_while _ _ _ Hinv Hi) as [-> _]. rewrite Hd. simpl.
    pose proof (sum_insert mid_iteration _ _ _ Exited Hi). simpl in *. lia.
  - destruct l as [|w l].
    + destruct (step_at_try_pop_nil _ _ Hinv Hi) as [-> _]. simpl.
      pose proof (sum_insert mid_iteration _ _ _ AtYield Hi). simpl in *. lia.
    + destruct (step_at_try_pop_cons _ _ _ _ Hinv Hi) as (q' & _ & -> & _). simpl.
      pose proof (sum_insert mid_iteration _ _ _ (AtCall w) Hi). simpl in *. lia.
  - destruct (step_at_call _ _ _ _ Hinv Hi) as (t & _ & _ & -> & _). simpl.
    rewrite length_app. simpl.
    pose proof (sum_insert mid_iteration _ _ _ AtWhile Hi). simpl in *. lia.
  - destruct (step_at_yield _ _ _ Hinv Hi) as [-> _]. simpl.
    pose proof (sum_insert mid_iteration _ _ _ AtWhile Hi). simpl in *. lia.
  - by rewrite step_idle by eauto.
  - by destruct (inv_no_fault _ _ Hinv i).
Qed.

Lemma budget_run s p l :
  inv p l → done p = true →
  length (invoked (run_schedule s p))
  ≤ length (invoked p) + sum_list_with mid_iteration (threads p).
Proof.
  revert p l. induction s as [|a s IH]; intros p l Hinv Hd; [simpl; lia|].
  simpl. destruct (inv_act _ _ a Hinv) as [l' Hinv'].
  pose proof (IH _ _ Hinv' (act_done_true _ a Hd)).
  pose proof (budget_act _ _ a Hinv Hd). lia.
Qed.

(** C2, as the code has it. When every thread can be created, the
    constructor starts exactly as many workers as
    [hardware_concurrency()] answers, each at the head of its loop, and
    nothing makes up for an answer of zero: the pool has a worker exactly
    when the answer is positive. *)
Theorem ctor_spawns_thread_count hw spawn_ok :
  (∀ i, i < hw → spawn_ok i = true) →
  ∃ p, ThreadPool_ctor hw spawn_ok = (Spawned <$> seq 0 hw, Some p) ∧
       threads p = replicate hw AtWhile ∧
       length (threads p) = hw ∧
       (1 ≤ length (threads p) ↔ 1 ≤ hw) ∧
       done p = false ∧ work_queue p = new_queue.
Proof.
  intros Hok. unfold ThreadPool_ctor.
  rewrite (spawn_loop_all hw 0 spawn_ok) by (intros; by apply Hok).
  simpl. rewrite length_replicate. eexists. split; [done|]. simpl.
  rewrite length_replicate. done.
Qed.

(** ** The claims about the pool *)


(** C6. When the [k]-th thread is the first that cannot be created, the
    constructor has started threads [0..k-1], then sets [done], then joins
    threads [0..k-1] in order, then lets the exception go on to its caller,
    and no pool comes out of it. The joins do return: whatever the started
    workers did before [done] was set, each of them has left its loop after
    three moves of its own. *)
Theorem ctor_thread_creation_failure hw spawn_ok k :
  k < hw → (∀ i, i < k → spawn_ok i = true) → spawn_ok k = false →
  ThreadPool_ctor (V:=V) (E:=E) hw spawn_ok =
    ((Spawned <$> seq 0 k) ++ [DoneSet] ++ (Joined <$> seq 0 k) ++ [Rethrown],
     None) ∧
  ∀ (before after : list (action V E)) i,
    i < k → 3 ≤ runs_of i after →
    threads (run_schedule after
               (set_done true
                  (run_schedule before
                     (MkPool false new_queue (replicate k AtWhile) ∅ 0 []))))
      !! i = Some Exited.
Proof.
  intros Hk Hok Hfail. split; [by apply ctor_failure_trace|].
  intros before after i Hi Hruns.
  destruct (inv_run_schedule before _ _ (inv_initial k)) as [l Hinv].
  apply inv_shutdown in Hinv.
  eapply exits_after_shutdown; [exact Hinv|done| |done].
  simpl. rewrite run_schedule_length. simpl. by rewrite length_replicate.
Qed.

(** C7, as the code has it. A worker reads [done] at its loop head and there
    only: from there it leaves the loop when the flag is set and goes on to
    [try_pop] when it is not, and it leaves the loop from nowhere else. A
    worker that holds a popped task calls it on its next move, whatever the
    flag, and is back at the loop head afterwards. A worker that has left
    stays out, and after the destructor has set the flag every worker is out
    within three moves of its own. From the moment the flag is set, a worker
    in the middle of an iteration invokes at most one more task, the others
    none. Once the flag is set and every worker is at its loop head or out,
    nothing is invoked any more: the tasks still in the queue never run. *)
Theorem shutdown_between_iterations p i :
  reachable p →
  (threads p !! i = Some AtWhile →
     threads (worker_step i p) !! i = Some (if done p then Exited else AtTryPop)) ∧
  (∀ w b, threads p !! i = Some w → w ≠ AtWhile →
     worker_step i (set_done b p) = set_done b (worker_step i p)) ∧
  (threads (worker_step i p) !! i = Some Exited →
     threads p !! i = Some Exited ∨ (threads p !! i = Some AtWhile ∧ done p = true)) ∧
  (∀ task, threads p !! i = Some (AtCall task) →
     ∃ t, impl task = Some t ∧
          threads (worker_step i p) !! i = Some AtWhile ∧
          invoked (worker_step i p) = invoked p ++ [state t] ∧
          shared (worker_step i p) !! state t = Some (stored t tt)) ∧
  (threads p !! i = Some Exited →
     ∀ s, threads (run_schedule s p) !! i = Some Exited) ∧
  (i < length (threads p) → ∀ s, 3 ≤ runs_of i s →
     threads (run_schedule s (ThreadPool_dtor p)) !! i = Some Exited) ∧
  (∀ s, length (invoked (run_schedule s (ThreadPool_dtor p)))
        ≤ length (invoked p) + sum_list_with mid_iteration (threads p)) ∧
  (done p = true → between_iterations p →
     ∀ s, invoked (run_schedule s p) = invoked p ∧
          ∀ l w t, rep (work_queue p) l → w ∈ l → impl w = Some t →
                   (state t ∉ invoked (run_schedule s p)) ∧
                   shared (run_schedule s p) !! state t = None).
Proof.
  intros Hreach. destruct (reachable_inv _ Hreach) as [l Hinv]. split_and!.
  - intros Hi. destruct (step_at_while _ _ _ Hinv Hi) as [-> _]. simpl.
    apply list_lookup_insert_eq. by eapply lookup_lt_Some.
  - intros w b. apply step_ignores_done.
  - apply exit_from_while.
  - intros task Hi. destruct (step_at_call _ _ _ _ Hinv Hi) as (t & Ht & _ & -> & _).
    exists t. simpl. split_and!; [done| |done|by rewrite lookup_insert_eq].
    apply list_lookup_insert_eq. by eapply lookup_lt_Some.
  - intros Hi s. by apply exited_final.
  - intros Hlt s Hruns. eapply exits_after_shutdown; [|done|done|done].
    by apply inv_shutdown.
  - intros s. by apply (budget_run s _ _ (inv_shutdown _ _ Hinv)).
  - intros Hd Hb s. destruct (quiescent_run s p Hd Hb) as [Hq Hsq]. split; [done|].
    intros l' w t Hrep Hw Ht. rewrite (rep_functional _ _ _ Hrep (inv_rep _ _ Hinv)) in Hw.
    destruct (inv_queue _ _ Hinv _ Hw) as (t' & Ht' & _ & Hsh).
    rewrite Ht in Ht'. injection Ht' as <-. rewrite Hq, Hsq. split; [|done].
    intros Hin. apply (inv_shared _ _ Hinv) in Hin as [? Hin]. congruence.
Qed.

(** C10. A default-constructed [FunctionWrapper] has a null [impl], and
    calling it is a null dereference. A worker gets to the call only from
    [try_pop] answering true, with the wrapper that [try_pop] handed out;
    that wrapper always holds a task, the call goes through, and no worker
    of any pool that can exist ever faults. *)
Theorem worker_never_calls_empty_wrapper p i :
  reachable p →
  impl (FunctionWrapper_default (V:=V) (E:=E)) = None ∧
  call FunctionWrapper_default p = None ∧
  (∀ task, threads (worker_step i p) !! i = Some (AtCall task) →
     threads p !! i = Some AtTryPop ∧
     ∃ q', try_pop_ref FunctionWrapper_default (work_queue p) = Ok ((true, task), q')) ∧
  (∀ task, threads p !! i = Some (AtCall task) →
     impl task ≠ None ∧ is_Some (call task p)) ∧
  threads p !! i ≠ Some Faulted ∧
  threads (worker_step i p) !! i ≠ Some Faulted.
Proof.
  intros Hreach. destruct (reachable_inv _ Hreach) as [l Hinv].
  split_and!; [done|done| | | |].
  - unfold worker_step. destruct (threads p !! i) as [pc|] eqn:Hi; [|by rewrite Hi].
    assert (Hlt : i < length (threads p)) by by eapply lookup_lt_Some.
    destruct pc as [| |task'| | |]; try (rewrite Hi; by eauto).
    + simpl. rewrite list_lookup_insert_eq by done. by destruct (done p).
    + destruct (try_pop_ref _ _) as [[[[|] task'] q']| |]; simpl;
        rewrite list_lookup_insert_eq by done; try done.
      intros task [= ->]. eauto.
    + destruct (call task' p) as [p'|] eqn:Hcall; simpl.
      * apply call_frame in Hcall as (_ & _ & -> & _).
        by rewrite list_lookup_insert_eq.
      * by rewrite list_lookup_insert_eq.
    + simpl. by rewrite list_lookup_insert_eq.
  - intros task Hi.
    destruct (inv_call _ _ _ _ Hinv Hi) as (t & p' & Ht & _ & Hcall & _).
    split; [congruence|eauto].
  - apply (inv_no_fault _ _ Hinv).
  - destruct (inv_worker_step _ _ i Hinv) as [l' Hinv'].
    apply (inv_no_fault _ _ Hinv').
Qed.

(** ** The order of service *)

Lemma in_order_set_thread p l k i pc pc' :
  threads p !! i = Some pc → (∀ w, pc ≠ AtCall w) → (∀ w, pc' ≠ AtCall w) →
  in_order p l k → in_order (set_thread i pc' p) l k.
Proof.
  intros Hi Hpc Hpc' (Hk & Hl & Htaken & Hone). split_and!; [done|done| |].
  - intros id. rewrite <-Htaken. unfold taken. simpl. split.
    + intros [?|(j & w & Hj & Hw)]; [by left|right].
      exists j, w. split; [|done]. destruct (decide (i = j)) as [<-|Hij].
      * apply list_lookup_insert_Some in Hj as [(_ & ? & _)|[? _]]; [|done].
        by destruct (Hpc' w).
      * by rewrite list_lookup_insert_ne in Hj.
    + intros [?|(j & w & Hj & Hw)]; [by left|right].
      exists j, w. split; [|done]. rewrite list_lookup_insert_ne; [done|].
      intros <-. rewrite Hi in Hj. injection Hj as ->. by destruct (Hpc w).
  - simpl. rewrite length_insert. intros Hlen. rewrite <-(Hone Hlen). f_equal.
    destruct (threads p) as [|x [|??]]; try done.
    destruct i as [|i]; [|by destruct i]. injection Hi as ->. unfold held. simpl.
    destruct pc as [| |w| | |]; [|  |by destruct (Hpc w)|..];
      (destruct pc' as [| |w'| | |]; [|  |by destruct (Hpc' w')|..]); done.
Qed.

(** Whatever happens to the pool, the tasks leave the queue in the order in
    which they were submitted. *)
Lemma in_order_act p l k a :
  inv p l → in_order p l k →
  ∃ l' k', inv (act p a) l' ∧ in_order (act p a) l' k'.
Proof.
  intros Hinv Hord. destruct a as [i|f|]; simpl.
  - destruct (threads p !! i) as [[| |w| | |]|] eqn:Hi.
    + destruct (step_at_while _ _ _ Hinv Hi) as [Heq Hinv']. exists l, k.
      split; [done|]. rewrite Heq.
      eapply in_order_set_thread; [done|done| |done]. by destruct (done p).
    + destruct l as [|w l].
      * destruct (step_at_try_pop_nil _ _ Hinv Hi) as [Heq Hinv']. exists [], k.
        split; [done|]. rewrite Heq. by eapply in_order_set_thread.
      * destruct (step_at_try_pop_cons _ _ _ _ Hinv Hi) as (q' & _ & Heq & Hinv').
        exists l, (S k). split; [done|]. rewrite Heq.
        destruct Hord as (Hk & Hl & Htaken & Hone). simpl in Hk, Hl.
        injection Hl as Hw Hl.
        split_and!; [simpl; lia|done| |].
        -- intros id. unfold taken. simpl. split.
           ++ intros [Hin|(j & w' & Hj & Hw')].
              ** assert (id < k); [|lia]. apply Htaken. by left.
              ** destruct (decide (i = j)) as [<-|Hij].
                 --- apply list_lookup_insert_Some in Hj as [(_ & [= <-] & _)|[? _]];
                       [|done].
                     rewrite Hw in Hw'. injection Hw' as <-. lia.
                 --- rewrite list_lookup_insert_ne in Hj by done.
                     assert (id < k); [|lia]. apply Htaken. right. eauto.
           ++ intros Hid. destruct (decide (id = k)) as [->|Hne].
              ** right. exists i, w. split; [|done].
                 apply list_lookup_insert_eq. by eapply lookup_lt_Some.
              ** assert (Hlt : id < k) by lia.
                 apply Htaken in Hlt as [?|(j & w' & Hj & Hw')]; [by left|right].
                 exists j, w'. split; [|done]. rewrite list_lookup_insert_ne; [done|].
                 intros <-. rewrite Hi in Hj. done.
        -- simpl. rewrite length_insert. intros Hlen. specialize (Hone Hlen).
           destruct (threads p) as [|x [|??]]; simplify_eq/=.
           destruct i; simplify_eq/=. rewrite Hw. simpl.
           rewrite app_nil_r in Hone. rewrite Hone. symmetry. exact (seq_S k 0).
    + destruct (step_at_call _ _ _ _ Hinv Hi) as (t & Ht & _ & Heq & Hinv').
      exists l, k. split; [done|]. rewrite Heq.
      destruct Hord as (Hk & Hl & Htaken & Hone).
      assert (Hw : wid w = Some (state t)) by (unfold wid; by rewrite Ht).
      split_and!; [done|done| |].
      * intros id. rewrite <-Htaken. unfold taken. simpl. split.
        -- intros [[?| ->%list_elem_of_singleton]%elem_of_app|(j & w' & Hj & Hw')].
           ++ by left.
           ++ right. eauto.
           ++ right. exists j, w'. split; [|done].
              destruct (decide (i = j)) as [<-|Hij].
              ** by apply list_lookup_insert_Some in Hj as [(_ & ? & _)|[? _]].
              ** by rewrite list_lookup_insert_ne in Hj.
        -- intros [?|(j & w' & Hj & Hw')].
           ++ left. apply elem_of_app. by left.
           ++ destruct (decide (i = j)) as [<-|Hij].
              ** rewrite Hi in Hj. injection Hj as <-. rewrite Hw in Hw'.
                 injection Hw' as <-. left. apply elem_of_app. right.
                 by apply list_elem_of_singleton.
              ** right. exists j, w'. by rewrite list_lookup_insert_ne.
      * simpl. rewrite length_insert. intros Hlen. specialize (Hone Hlen).
        destruct (threads p) as [|x [|??]]; simplify_eq/=.
        destruct i; simplify_eq/=. rewrite Hw in Hone. simpl in Hone.
        by rewrite app_nil_r.
    + destruct (step_at_yield _ _ _ Hinv Hi) as [Heq Hinv']. exists l, k.
      split; [done|]. rewrite Heq. by eapply in_order_set_thread.
    + exists l, k. rewrite step_idle; eauto.
    + by destruct (inv_no_fault _ _ Hinv i).
    + exists l, k. rewrite step_idle; eauto.
  - destruct (inv_submit _ _ f Hinv) as (q' & _ & -> & Hinv').
    eexists _, k. split; [done|].
    destruct Hord as (Hk & Hl & Htaken & Hone).
    split_and!; simpl; [rewrite length_app; simpl; lia| |done|done].
    rewrite fmap_app, length_app, seq_app, fmap_app, Hl. simpl.
    do 3 f_equal. unfold wid. simpl. f_equal. lia.
  - exists l, k. split; [by apply inv_shutdown|done].
Qed.

Lemma in_order_run s p l k :
  inv p l → in_order p l k →
  ∃ l' k', inv (run_schedule s p) l' ∧ in_order (run_schedule s p) l' k'.
Proof.
  revert p l k. induction s as [|a s IH]; intros p l k Hinv Hord; simpl; [eauto|].
  destruct (in_order_act _ _ _ a Hinv Hord) as (l1 & k1 & Hinv1 & Hord1).
  by apply (IH _ _ _ Hinv1 Hord1).
Qed.

Lemma reachable_in_order p : reachable p → ∃ l k, inv p l ∧ in_order p l k.
Proof.
  intros (hw & spawn_ok & tr & p0 & s & Hctor & ->).
  apply ctor_some in Hctor as [n ->].
  eapply in_order_run; [apply inv_initial|].
  split_and!; simpl; [done|done| |].
  - intros id. split; [|lia].
    intros [[]%elem_of_nil|(i & w & [? _]%lookup_replicate & _)]. done.
  - intros Hn. rewrite length_replicate in Hn. by subst n.
Qed.

(** A pool without a worker does nothing but collect tasks. *)
Lemma no_worker_act p a :
  threads p = [] →
  threads (act p a) = [] ∧ invoked (act p a) = invoked p ∧
  shared (act p a) = shared p.
Proof.
  intros Hths. destruct a as [i|f|]; simpl.
  - unfold worker_step. by rewrite Hths, lookup_nil.
  - destruct (submit f p) as [[fut p1]| |] eqn:Hsub; [|done..].
    apply submit_frame in Hsub as (_ & -> & -> & ->). done.
  - done.
Qed.

Lemma no_worker_run s p :
  threads p = [] →
  threads (run_schedule s p) = [] ∧ invoked (run_schedule s p) = invoked p ∧
  shared (run_schedule s p) = shared p.
Proof.
  revert p. induction s as [|a s IH]; intros p Hths; simpl; [done|].
  destruct (no_worker_act p a Hths) as (Hths1 & <- & <-). by apply IH.
Qed.

(** X12. Tasks leave the queue in the order in which they entered it. In
    every pool that can exist, with the tasks numbered in the order in which
    [submit] linked them into the queue, there is a [k] such that the tasks
    taken out of the queue, run already or in the hands of a worker, are
    exactly the tasks before [k], and the queue holds all the later ones in
    the order of their numbers. No task is taken before one that entered
    the queue earlier. For tasks submitted by one thread this is the order
    of its calls of [submit]; between threads that call [submit] at the
    same time it is the order in which their pushes got [tail_mutex]. *)
Theorem tasks_taken_in_queue_order p :
  reachable p →
  ∃ l k, rep (work_queue p) l ∧ k + length l = issued p ∧
         wid <$> l = Some <$> seq k (length l) ∧
         (∀ id, taken p id ↔ id < k) ∧
         (∀ id, id ∈ invoked p → id < k).
Proof.
  intros (l & k & Hinv & Hk & Hl & Htaken & _)%reachable_in_order.
  exists l, k. split_and!; [apply (inv_rep _ _ Hinv)|done..|].
  intros id Hid. apply Htaken. by left.
Qed.

(** X13. A pool with a single worker runs the tasks one at a time in the
    order in which they entered the queue: with the tasks numbered in the
    order in which [submit] linked them into the queue, the tasks run so far
    are the first ones, in that order, and the task the worker holds, if it
    holds one, is the next. For tasks submitted by one thread this is the
    order of its calls of [submit]. *)
Theorem single_worker_runs_in_queue_order p :
  reachable p → length (threads p) = 1 →
  invoked p = seq 0 (length (invoked p)) ∧
  held (threads p) = seq (length (invoked p)) (length (held (threads p))) ∧
  length (held (threads p)) ≤ 1.
Proof.
  intros (l & k & Hinv & _ & _ & _ & Hone)%reachable_in_order Hlen.
  specialize (Hone Hlen).
  assert (Hk : k = length (invoked p) + length (held (threads p))).
  { by rewrite <-length_app, Hone, length_seq. }
  rewrite Hk, seq_app in Hone. simpl in Hone.
  apply app_inj_1 in Hone as [H1 H2]; [|by rewrite length_seq].
  split_and!; [done|done|].
  destruct (threads p) as [|x [|??]]; try done. unfold held. simpl.
  destruct (match x with AtCall w => wid w | _ => None end); simpl; lia.
Qed.

(** X14. When [hardware_concurrency()] answers zero the constructor succeeds
    with no worker, and then no task is ever run: [submit] goes on accepting
    tasks, but whatever is submitted and whatever else happens, no task is
    invoked, and every task submitted so far is still in the queue. *)
Theorem no_worker_nothing_runs spawn_ok s :
  ∃ p0, ThreadPool_ctor (V:=V) (E:=E) 0 spawn_ok = ([], Some p0) ∧
        threads (run_schedule s p0) = [] ∧
        invoked (run_schedule s p0) = [] ∧
        (∃ l, rep (work_queue (run_schedule s p0)) l ∧
              length l = issued (run_schedule s p0)) ∧
        ∀ f, ∃ fut p1, submit f (run_schedule s p0) = Ok (fut, p1) ∧
                       ∀ s', fut ∉ invoked (run_schedule s' p1).
Proof.
  set (p0 := MkPool (V:=V) (E:=E) false new_queue [] ∅ 0 []).
  exists p0. split; [reflexivity|].
  destruct (no_worker_run s p0 eq_refl) as (Hths & Hinvoked & Hshared).
  assert (Hreach : reachable (run_schedule s p0)).
  { by exists 0, spawn_ok, [], p0, s. }
  split_and!; [done|done| |].
  - destruct (reachable_in_order _ Hreach) as (l & k & Hinv & Hk & _ & Htaken & _).
    exists l. split; [apply (inv_rep _ _ Hinv)|].
    destruct k as [|k]; [done|]. exfalso.
    destruct (proj2 (Htaken 0) ltac:(lia)) as [Hin|(i & w & Hi & _)].
    + rewrite Hinvoked in Hin. by apply elem_of_nil in Hin.
    + by rewrite Hths in Hi.
  - intros f. destruct (reachable_inv _ Hreach) as [l Hinv].
    destruct (inv_submit _ _ f Hinv) as (q' & _ & Hsub & _).
    eexists _, _. split; [exact Hsub|]. intros s'.
    match goal with |- _ ∉ invoked (run_schedule s' ?p1) =>
      destruct (no_worker_run s' p1 Hths) as (_ & -> & _) end.
    simpl. rewrite Hinvoked. apply not_elem_of_nil.
Qed.

(** X15. [submit] is accepted in every state of the pool, shut down or not,
    with or without workers: it returns a future of its own, whose task has
    not run, adds the task at the back of the queue, and touches neither
    the flag, nor the threads, nor any other future. Once [done] is set and
    every worker is at its loop head or out, no worker ever runs the task
    submitted: it stays in the queue. *)
Theorem submit_always_accepted p f l :
  reachable p → rep (work_queue p) l →
  ∃ p1, submit f p = Ok (issued p, p1) ∧
        rep (work_queue p1) (l ++ [FunctionWrapper_of (PackagedTask f (issued p))]) ∧
        done p1 = done p ∧ threads p1 = threads p ∧ shared p1 = shared p ∧
        invoked p1 = invoked p ∧ issued p1 = S (issued p) ∧
        shared p1 !! issued p = None ∧
        (done p = true → between_iterations p →
           ∀ s, issued p ∉ invoked (run_schedule s p1) ∧
                ∃ l' w, rep (work_queue (run_schedule s p1)) l' ∧
                        w ∈ l' ∧ wid w = Some (issued p)).
Proof.
  intros Hreach Hrep. destruct (reachable_inv _ Hreach) as [l0 Hinv].
  rewrite (rep_functional _ _ _ Hrep (inv_rep _ _ Hinv)).
  destruct (inv_submit _ _ f Hinv) as (q' & _ & Hsub & Hinv1).
  eexists. split; [exact Hsub|]. simpl.
  assert (Hnew : shared p !! issued p = None).
  { destruct (shared p !! issued p) eqn:Hsh; [|done].
    assert (Hin : issued p ∈ invoked p) by (apply (inv_shared _ _ Hinv); eauto).
    apply (inv_issued _ _ Hinv) in Hin. lia. }
  assert (Hnot : issued p ∉ invoked p).
  { intros Hin. apply (inv_issued _ _ Hinv) in Hin. lia. }
  split_and!; [apply (inv_rep _ _ Hinv1)|done..|].
  intros Hd Hb s.
  set (p1 := MkPool _ _ _ _ _ _) in *.
  destruct (quiescent_run s p1 Hd Hb) as [Hinvoked _].
  pose proof (between_iterations_run s p1 Hd Hb) as Hb'.
  assert (Hnot' : issued p ∉ invoked (run_schedule s p1)) by by rewrite Hinvoked.
  split; [done|].
  assert (Hreach' : reachable (run_schedule s p1)).
  { apply reachable_run. destruct Hreach as (hw & ok & tr & p0 & s0 & Hctor & ->).
    exists hw, ok, tr, p0, (s0 ++ [Submit f]). split; [done|].
    unfold run_schedule. rewrite foldl_app. simpl. fold (run_schedule s0 p0).
    by rewrite Hsub. }
  destruct (reachable_in_order _ Hreach') as (l' & k & Hinv' & Hk & Hl & Htaken & _).
  pose proof (run_issued_mono s p1) as Hmono. simpl in Hmono.
  assert (Hge : k ≤ issued p).
  { destruct (decide (issued p < k)) as [Hlt|]; [|lia].
    apply Htaken in Hlt as [Hin|(i & w & Hi & _)]; [done|].
    destruct (Hb' _ _ Hi) as [?|?]; done. }
  assert (Hin : Some (issued p) ∈ wid <$> l').
  { rewrite Hl. apply list_elem_of_fmap_2, elem_of_seq. lia. }
  apply list_elem_of_fmap in Hin as (w & Hw & Hin).
  exists l', w. split; [apply (inv_rep _ _ Hinv')|done].
Qed.

(** X16. The workers leave their loop for no other reason than the flag. In
    a running pool, as long as the destructor has not run, whatever is
    submitted and however the tasks end, by returning or by throwing, the
    flag stays false and every worker is still in its loop, neither returned
    nor stopped by a fault. *)
Theorem workers_stay_until_shutdown p s i :
  reachable p → done p = false → Shutdown ∉ s → i < length (threads p) →
  done (run_schedule s p) = false ∧
  ∃ pc, threads (run_schedule s p) !! i = Some pc ∧ pc ≠ Exited ∧ pc ≠ Faulted.
Proof.
  intros Hreach Hd Hs Hi.
  pose proof (run_no_shutdown s p Hs Hd) as Hd'.
  destruct (reachable_inv _ (reachable_run s p Hreach)) as [l Hinv].
  split; [done|].
  destruct (lookup_lt_is_Some_2 (threads (run_schedule s p)) i) as [pc Hpc].
  { by rewrite run_schedule_length. }
  exists pc. split_and!; [done| |].
  - intros ->. by apply (inv_running _ _ Hinv Hd' i).
  - intros ->. by apply (inv_no_fault _ _ Hinv i).
Qed.

End Facts.

(** ** Concrete pools *)

(** C2 fails on the code: with a hardware-concurrency answer of zero the
    constructor succeeds and the pool it builds has no worker at all. *)
Lemma ctor_zero_hint_no_worker :
  ThreadPool_ctor (V:=nat) (E:=nat) 0 (λ _, true) = ([], Some initial) ∧
  threads (@initial nat nat) = [] ∧
  ¬ (∀ (spawn_ok : nat → bool) tr (p : pool nat nat),
       ThreadPool_ctor 0 spawn_ok = (tr, Some p) → 1 ≤ length (threads p)).
Proof.
  split_and!; [reflexivity|reflexivity|].
  intros Hclaim. specialize (Hclaim (λ _, true) [] initial eq_refl).
  simpl in Hclaim. lia.
Qed.

Lemma reachable_one_worker : reachable one_worker.
Proof. by exists 1, (λ _, true), [Spawned 0], one_worker, []. Qed.



(** The same pool at work: one task submitted and three moves of the worker. *)
Example one_worker_runs_task :
  let p := run_schedule [Submit (λ _, Returns 5); Run 0; Run 0; Run 0] one_worker in
  shared p !! 0 = Some (Returns 5) ∧ invoked p = [0] ∧
  threads p = [AtWhile] ∧ done p = false.
Proof. vm_compute. done. Qed.

Lemma ctor_thread_creation_failure_witness :
  1 < 2 ∧ (∀ i, i < 1 → Nat.eqb i 0 = true) ∧ Nat.eqb 1 0 = false ∧
  ThreadPool_ctor (V:=nat) (E:=nat) 2 (λ i, Nat.eqb i 0) =
    ([Spawned 0; DoneSet; Joined 0; Rethrown], None).
Proof.
  assert (H1 : 1 < 2) by lia.
  assert (H2 : ∀ i, i < 1 → Nat.eqb i 0 = true) by (intros [|i] Hi; [reflexivity|lia]).
  assert (H3 : Nat.eqb 1 0 = false) by reflexivity.
  split_and!; [exact H1|exact H2|exact H3|].
  exact (proj1 (ctor_thread_creation_failure (V:=nat) (E:=nat) 2 (λ i, Nat.eqb i 0) 1 H1 H2 H3)).
Defined.

(** C7 fails on the code as it is worded. A worker has passed the test of
    [done]; a task is submitted and the destructor sets the flag, with the
    task in the queue; the worker then pops the task and invokes it. *)
Lemma queued_task_invoked_after_shutdown :
  let w := FunctionWrapper_of (PackagedTask (λ _, Returns 5) 0) in
  let p := run_schedule [Run 0; Submit (λ _, Returns 5); Shutdown] one_worker in
  reachable p ∧ done p = true ∧ invoked p = [] ∧
  rep (work_queue p) [w] ∧
  invoked (run_schedule [Run 0; Run 0] p) = [0] ∧
  ¬ (∀ (p : pool nat nat) s l w t,
       reachable p → done p = true → rep (work_queue p) l → w ∈ l →
       impl w = Some t → state t ∉ invoked (run_schedule s p)).
Proof.
  intros w p.
  assert (Hreach : reachable p) by apply reachable_run, reachable_one_worker.
  assert (Hrep : rep (work_queue p) [w]).
  { destruct (rep_push new_queue [] w rep_new) as (q' & Hpush & Hrep).
    assert (Hq : work_queue p = q'); [|by rewrite Hq].
    assert (Hc : push w new_queue = Ok (tt, work_queue p)) by (vm_compute; reflexivity).
    rewrite Hc in Hpush. by injection Hpush. }
  assert (Hinvoked : invoked (run_schedule [Run 0; Run 0] p) = [0])
    by (vm_compute; reflexivity).
  split_and!; [done|reflexivity|reflexivity|done|done|].
  intros Hclaim.
  apply (Hclaim p [Run 0; Run 0] [w] w (PackagedTask (λ _, Returns 5) 0));
    [done|reflexivity|done|by left|reflexivity|].
  rewrite Hinvoked. by left.
Qed.

Lemma shutdown_between_iterations_witness :
  reachable one_worker ∧
  threads (worker_step 0 one_worker) !! 0 = Some AtTryPop ∧
  threads (run_schedule [Run 0; Run 0; Run 0] (ThreadPool_dtor one_worker)) !! 0
    = Some Exited.
Proof.
  split; [exact reachable_one_worker|].
  destruct (shutdown_between_iterations one_worker 0 reachable_one_worker)
    as (Hwhile & _ & _ & _ & _ & Hexit & _ & _).
  split; [exact (Hwhile eq_refl)|].
  apply Hexit; [simpl; lia|simpl; lia].
Defined.

Lemma worker_never_calls_empty_wrapper_witness :
  reachable one_worker ∧
  call FunctionWrapper_default one_worker = None ∧
  threads (worker_step 0 one_worker) !! 0 ≠ Some Faulted.
Proof.
  split; [exact reachable_one_worker|].
  destruct (worker_never_calls_empty_wrapper one_worker 0 reachable_one_worker)
    as (_ & Hcall & _ & _ & _ & Hstep).
  split; [exact Hcall|exact Hstep].
Defined.

Lemma ctor_spawns_thread_count_witness :
  (∀ i, i < 2 → (λ _ : nat, true) i = true) ∧
  ∃ p : pool nat nat,
    ThreadPool_ctor 2 (λ _, true) = ([Spawned 0; Spawned 1], Some p) ∧
    threads p = [AtWhile; AtWhile].
Proof.
  assert (Hok : ∀ i, i < 2 → (λ _ : nat, true) i = true) by reflexivity.
  split; [exact Hok|].
  destruct (ctor_spawns_thread_count (V:=nat) (E:=nat) 2 (λ _, true) Hok)
    as (p & Hctor & Hths & _).
  exists p. split; [exact Hctor|exact Hths].
Defined.

(** One worker, three tasks submitted, two of them run and the third
    popped. *)
Lemma tasks_taken_in_queue_order_witness :
  let p := run_schedule [Submit (λ _, Returns 5); Submit (λ _, Throws 6);
                         Submit (λ _, Returns 7); Run 0; Run 0; Run 0;
                         Run 0; Run 0; Run 0; Run 0; Run 0] one_worker in
  reachable p ∧ invoked p = [0; 1] ∧
  ∃ l k, rep (work_queue p) l ∧ k + length l = issued p ∧ ∀ id, taken p id ↔ id < k.
Proof.
  intros p.
  assert (Hreach : reachable p) by apply reachable_run, reachable_one_worker.
  split; [exact Hreach|]. split; [reflexivity|].
  destruct (tasks_taken_in_queue_order p Hreach)
    as (l & k & Hrep & Hk & _ & Htaken & _).
  exists l, k. split; [exact Hrep|]. split; [exact Hk|exact Htaken].
Defined.

Lemma single_worker_runs_in_queue_order_witness :
  let p := run_schedule [Submit (λ _, Returns 5); Submit (λ _, Throws 6);
                         Submit (λ _, Returns 7); Run 0; Run 0; Run 0;
                         Run 0; Run 0; Run 0; Run 0; Run 0] one_worker in
  reachable p ∧ length (threads p) = 1 ∧ invoked p = [0; 1] ∧
  invoked p = seq 0 (length (invoked p)).
Proof.
  intros p.
  assert (Hreach : reachable p) by apply reachable_run, reachable_one_worker.
  assert (Hlen : length (threads p) = 1) by reflexivity.
  split; [exact Hreach|]. split; [exact Hlen|]. split; [reflexivity|].
  exact (proj1 (single_worker_runs_in_queue_order p Hreach Hlen)).
Defined.

(** [submit] while the pool is being destroyed, its one worker out. *)
Lemma submit_always_accepted_witness :
  let p := run_schedule [Shutdown; Run 0] one_worker in
  reachable p ∧ rep (work_queue p) [] ∧ threads p = [Exited] ∧
  ∃ p1, submit (λ _, Returns 5) p = Ok (0, p1) ∧
        ∀ s, 0 ∉ invoked (run_schedule s p1).
Proof.
  intros p.
  assert (Hreach : reachable p) by apply reachable_run, reachable_one_worker.
  assert (Hrep : rep (work_queue p) []) by apply rep_new.
  split; [exact Hreach|]. split; [exact Hrep|]. split; [reflexivity|].
  destruct (submit_always_accepted p (λ _, Returns 5) [] Hreach Hrep)
    as (p1 & Hsub & _ & _ & _ & _ & _ & _ & _ & Hnever).
  exists p1. split; [exact Hsub|]. intros s.
  refine (proj1 (Hnever eq_refl _ s)).
  intros j w Hj. destruct j as [|j]; [|destruct j; discriminate Hj].
  right. by injection Hj.
Defined.

(** A task that throws leaves the worker in its loop. *)
Lemma workers_stay_until_shutdown_witness :
  let s : list (action nat nat) := [Submit (λ _, Throws 6); Run 0; Run 0; Run 0] in
  reachable one_worker ∧ done one_worker = false ∧ (Shutdown ∉ s) ∧
  0 < length (threads one_worker) ∧
  shared (run_schedule s one_worker) !! 0 = Some (Throws 6) ∧
  ∃ pc, threads (run_schedule s one_worker) !! 0 = Some pc ∧ pc ≠ Exited ∧ pc ≠ Faulted.
Proof.
  intros s.
  assert (Hd : done one_worker = false) by reflexivity.
  assert (Hs : Shutdown ∉ s).
  { intros Hin. repeat (apply elem_of_cons in Hin as [Hin|Hin]; [discriminate Hin|]).
    by apply elem_of_nil in Hin. }
  assert (Hi : 0 < length (threads one_worker)) by (simpl; lia).
  split_and!; [exact reachable_one_worker|exact Hd|exact Hs|exact Hi|reflexivity|].
  exact (proj2 (workers_stay_until_shutdown one_worker s 0 reachable_one_worker Hd Hs Hi)).
Defined.

End Pool.
